(** * Europa-Corps: the item merge tool ([Tools/_theft.py]) and the
      text swapper ([Text/_swapper.py]).

    Python [str] values are modelled as lists of Unicode code points
    ([N]); the regular expressions of the tools are modelled by the
    deterministic matchers they denote, driven by one left-to-right
    scanner that plays the role of [re.finditer] / [re.sub]. *)

From Stdlib Require Import NArith List Bool Lia String Ascii.
From stdpp Require Import base option list gmap sets sorting.
Import ListNotations.

#[local] Set Warnings "-clear-no-such-hyp,-level-tolerance".

Local Open Scope N_scope.

(** ** Python string primitives *)

Module PyStr.

Abbreviation text := (list N).

Definition LF : N := 10.
Definition CR : N := 13.
Definition TAB : N := 9.
Definition SPACE : N := 32.
Definition DQUOTE : N := 34.
Definition GT : N := 62.

(** String literals of the development.  A backslash introduces the
    escapes n, r, t (as in Python) and q for the double quote. *)
Fixpoint lit (s : string) : text :=
  match s with
  | EmptyString => []
  | String a s' =>
      if Ascii.eqb a "\"%char then
        match s' with
        | EmptyString => [N_of_ascii a]
        | String c s'' =>
            (if Ascii.eqb c "n"%char then LF
             else if Ascii.eqb c "r"%char then CR
             else if Ascii.eqb c "t"%char then TAB
             else if Ascii.eqb c "q"%char then DQUOTE
             else N_of_ascii c) :: lit s''
        end
      else N_of_ascii a :: lit s'
  end.

Definition between (lo hi c : N) : bool := (lo <=? c) && (c <=? hi).

(** [str.isspace] on one code point; it is also the class [\s] of [re]
    for [str] patterns. *)
Definition isspace (c : N) : bool :=
  between 9 13 c || between 28 32 c || (c =? 133) || (c =? 160)
  || (c =? 5760) || between 8192 8202 c || between 8232 8233 c
  || (c =? 8239) || (c =? 8287) || (c =? 12288).

(** The line boundaries of [str.splitlines]. *)
Definition is_linebreak (c : N) : bool :=
  between 10 13 c || between 28 30 c || (c =? 133) || between 8232 8233 c.

(** The code points of the class [\w] of [re] for [str] patterns
    ([str.isalnum] or underscore), as inclusive ranges (Unicode 14.0,
    the database of Python 3.11). *)
Definition word_ranges : list (N * N) := [
  (48, 57); (65, 90); (95, 95); (97, 122); (170, 170); (178, 179);
  (181, 181); (185, 186); (188, 190); (192, 214); (216, 246); (248, 705);
  (710, 721); (736, 740); (748, 748); (750, 750); (880, 884); (886, 887);
  (890, 893); (895, 895); (902, 902); (904, 906); (908, 908); (910, 929);
  (931, 1013); (1015, 1153); (1162, 1327); (1329, 1366); (1369, 1369);
  (1376, 1416); (1488, 1514); (1519, 1522); (1568, 1610); (1632, 1641);
  (1646, 1647); (1649, 1747); (1749, 1749); (1765, 1766); (1774, 1788);
  (1791, 1791); (1808, 1808); (1810, 1839); (1869, 1957); (1969, 1969);
  (1984, 2026); (2036, 2037); (2042, 2042); (2048, 2069); (2074, 2074);
  (2084, 2084); (2088, 2088); (2112, 2136); (2144, 2154); (2160, 2183);
  (2185, 2190); (2208, 2249); (2308, 2361); (2365, 2365); (2384, 2384);
  (2392, 2401); (2406, 2415); (2417, 2432); (2437, 2444); (2447, 2448);
  (2451, 2472); (2474, 2480); (2482, 2482); (2486, 2489); (2493, 2493);
  (2510, 2510); (2524, 2525); (2527, 2529); (2534, 2545); (2548, 2553);
  (2556, 2556); (2565, 2570); (2575, 2576); (2579, 2600); (2602, 2608);
  (2610, 2611); (2613, 2614); (2616, 2617); (2649, 2652); (2654, 2654);
  (2662, 2671); (2674, 2676); (2693, 2701); (2703, 2705); (2707, 2728);
  (2730, 2736); (2738, 2739); (2741, 2745); (2749, 2749); (2768, 2768);
  (2784, 2785); (2790, 2799); (2809, 2809); (2821, 2828); (2831, 2832);
  (2835, 2856); (2858, 2864); (2866, 2867); (2869, 2873); (2877, 2877);
  (2908, 2909); (2911, 2913); (2918, 2927); (2929, 2935); (2947, 2947);
  (2949, 2954); (2958, 2960); (2962, 2965); (2969, 2970); (2972, 2972);
  (2974, 2975); (2979, 2980); (2984, 2986); (2990, 3001); (3024, 3024);
  (3046, 3058); (3077, 3084); (3086, 3088); (3090, 3112); (3114, 3129);
  (3133, 3133); (3160, 3162); (3165, 3165); (3168, 3169); (3174, 3183);
  (3192, 3198); (3200, 3200); (3205, 3212); (3214, 3216); (3218, 3240);
  (3242, 3251); (3253, 3257); (3261, 3261); (3293, 3294); (3296, 3297);
  (3302, 3311); (3313, 3314); (3332, 3340); (3342, 3344); (3346, 3386);
  (3389, 3389); (3406, 3406); (3412, 3414); (3416, 3425); (3430, 3448);
  (3450, 3455); (3461, 3478); (3482, 3505); (3507, 3515); (3517, 3517);
  (3520, 3526); (3558, 3567); (3585, 3632); (3634, 3635); (3648, 3654);
  (3664, 3673); (3713, 3714); (3716, 3716); (3718, 3722); (3724, 3747);
  (3749, 3749); (3751, 3760); (3762, 3763); (3773, 3773); (3776, 3780);
  (3782, 3782); (3792, 3801); (3804, 3807); (3840, 3840); (3872, 3891);
  (3904, 3911); (3913, 3948); (3976, 3980); (4096, 4138); (4159, 4169);
  (4176, 4181); (4186, 4189); (4193, 4193); (4197, 4198); (4206, 4208);
  (4213, 4225); (4238, 4238); (4240, 4249); (4256, 4293); (4295, 4295);
  (4301, 4301); (4304, 4346); (4348, 4680); (4682, 4685); (4688, 4694);
  (4696, 4696); (4698, 4701); (4704, 4744); (4746, 4749); (4752, 4784);
  (4786, 4789); (4792, 4798); (4800, 4800); (4802, 4805); (4808, 4822);
  (4824, 4880); (4882, 4885); (4888, 4954); (4969, 4988); (4992, 5007);
  (5024, 5109); (5112, 5117); (5121, 5740); (5743, 5759); (5761, 5786);
  (5792, 5866); (5870, 5880); (5888, 5905); (5919, 5937); (5952, 5969);
  (5984, 5996); (5998, 6000); (6016, 6067); (6103, 6103); (6108, 6108);
  (6112, 6121); (6128, 6137); (6160, 6169); (6176, 6264); (6272, 6276);
  (6279, 6312); (6314, 6314); (6320, 6389); (6400, 6430); (6470, 6509);
  (6512, 6516); (6528, 6571); (6576, 6601); (6608, 6618); (6656, 6678);
  (6688, 6740); (6784, 6793); (6800, 6809); (6823, 6823); (6917, 6963);
  (6981, 6988); (6992, 7001); (7043, 7072); (7086, 7141); (7168, 7203);
  (7232, 7241); (7245, 7293); (7296, 7304); (7312, 7354); (7357, 7359);
  (7401, 7404); (7406, 7411); (7413, 7414); (7418, 7418); (7424, 7615);
  (7680, 7957); (7960, 7965); (7968, 8005); (8008, 8013); (8016, 8023);
  (8025, 8025); (8027, 8027); (8029, 8029); (8031, 8061); (8064, 8116);
  (8118, 8124); (8126, 8126); (8130, 8132); (8134, 8140); (8144, 8147);
  (8150, 8155); (8160, 8172); (8178, 8180); (8182, 8188); (8304, 8305);
  (8308, 8313); (8319, 8329); (8336, 8348); (8450, 8450); (8455, 8455);
  (8458, 8467); (8469, 8469); (8473, 8477); (8484, 8484); (8486, 8486);
  (8488, 8488); (8490, 8493); (8495, 8505); (8508, 8511); (8517, 8521);
  (8526, 8526); (8528, 8585); (9312, 9371); (9450, 9471); (10102, 10131);
  (11264, 11492); (11499, 11502); (11506, 11507); (11517, 11517);
  (11520, 11557); (11559, 11559); (11565, 11565); (11568, 11623);
  (11631, 11631); (11648, 11670); (11680, 11686); (11688, 11694);
  (11696, 11702); (11704, 11710); (11712, 11718); (11720, 11726);
  (11728, 11734); (11736, 11742); (11823, 11823); (12293, 12295);
  (12321, 12329); (12337, 12341); (12344, 12348); (12353, 12438);
  (12445, 12447); (12449, 12538); (12540, 12543); (12549, 12591);
  (12593, 12686); (12690, 12693); (12704, 12735); (12784, 12799);
  (12832, 12841); (12872, 12879); (12881, 12895); (12928, 12937);
  (12977, 12991); (13312, 19903); (19968, 42124); (42192, 42237);
  (42240, 42508); (42512, 42539); (42560, 42606); (42623, 42653);
  (42656, 42735); (42775, 42783); (42786, 42888); (42891, 42954);
  (42960, 42961); (42963, 42963); (42965, 42969); (42994, 43009);
  (43011, 43013); (43015, 43018); (43020, 43042); (43056, 43061);
  (43072, 43123); (43138, 43187); (43216, 43225); (43250, 43255);
  (43259, 43259); (43261, 43262); (43264, 43301); (43312, 43334);
  (43360, 43388); (43396, 43442); (43471, 43481); (43488, 43492);
  (43494, 43518); (43520, 43560); (43584, 43586); (43588, 43595);
  (43600, 43609); (43616, 43638); (43642, 43642); (43646, 43695);
  (43697, 43697); (43701, 43702); (43705, 43709); (43712, 43712);
  (43714, 43714); (43739, 43741); (43744, 43754); (43762, 43764);
  (43777, 43782); (43785, 43790); (43793, 43798); (43808, 43814);
  (43816, 43822); (43824, 43866); (43868, 43881); (43888, 44002);
  (44016, 44025); (44032, 55203); (55216, 55238); (55243, 55291);
  (63744, 64109); (64112, 64217); (64256, 64262); (64275, 64279);
  (64285, 64285); (64287, 64296); (64298, 64310); (64312, 64316);
  (64318, 64318); (64320, 64321); (64323, 64324); (64326, 64433);
  (64467, 64829); (64848, 64911); (64914, 64967); (65008, 65019);
  (65136, 65140); (65142, 65276); (65296, 65305); (65313, 65338);
  (65345, 65370); (65382, 65470); (65474, 65479); (65482, 65487);
  (65490, 65495); (65498, 65500); (65536, 65547); (65549, 65574);
  (65576, 65594); (65596, 65597); (65599, 65613); (65616, 65629);
  (65664, 65786); (65799, 65843); (65856, 65912); (65930, 65931);
  (66176, 66204); (66208, 66256); (66273, 66299); (66304, 66339);
  (66349, 66378); (66384, 66421); (66432, 66461); (66464, 66499);
  (66504, 66511); (66513, 66517); (66560, 66717); (66720, 66729);
  (66736, 66771); (66776, 66811); (66816, 66855); (66864, 66915);
  (66928, 66938); (66940, 66954); (66956, 66962); (66964, 66965);
  (66967, 66977); (66979, 66993); (66995, 67001); (67003, 67004);
  (67072, 67382); (67392, 67413); (67424, 67431); (67456, 67461);
  (67463, 67504); (67506, 67514); (67584, 67589); (67592, 67592);
  (67594, 67637); (67639, 67640); (67644, 67644); (67647, 67669);
  (67672, 67702); (67705, 67742); (67751, 67759); (67808, 67826);
  (67828, 67829); (67835, 67867); (67872, 67897); (67968, 68023);
  (68028, 68047); (68050, 68096); (68112, 68115); (68117, 68119);
  (68121, 68149); (68160, 68168); (68192, 68222); (68224, 68255);
  (68288, 68295); (68297, 68324); (68331, 68335); (68352, 68405);
  (68416, 68437); (68440, 68466); (68472, 68497); (68521, 68527);
  (68608, 68680); (68736, 68786); (68800, 68850); (68858, 68899);
  (68912, 68921); (69216, 69246); (69248, 69289); (69296, 69297);
  (69376, 69415); (69424, 69445); (69457, 69460); (69488, 69505);
  (69552, 69579); (69600, 69622); (69635, 69687); (69714, 69743);
  (69745, 69746); (69749, 69749); (69763, 69807); (69840, 69864);
  (69872, 69881); (69891, 69926); (69942, 69951); (69956, 69956);
  (69959, 69959); (69968, 70002); (70006, 70006); (70019, 70066);
  (70081, 70084); (70096, 70106); (70108, 70108); (70113, 70132);
  (70144, 70161); (70163, 70187); (70272, 70278); (70280, 70280);
  (70282, 70285); (70287, 70301); (70303, 70312); (70320, 70366);
  (70384, 70393); (70405, 70412); (70415, 70416); (70419, 70440);
  (70442, 70448); (70450, 70451); (70453, 70457); (70461, 70461);
  (70480, 70480); (70493, 70497); (70656, 70708); (70727, 70730);
  (70736, 70745); (70751, 70753); (70784, 70831); (70852, 70853);
  (70855, 70855); (70864, 70873); (71040, 71086); (71128, 71131);
  (71168, 71215); (71236, 71236); (71248, 71257); (71296, 71338);
  (71352, 71352); (71360, 71369); (71424, 71450); (71472, 71483);
  (71488, 71494); (71680, 71723); (71840, 71922); (71935, 71942);
  (71945, 71945); (71948, 71955); (71957, 71958); (71960, 71983);
  (71999, 71999); (72001, 72001); (72016, 72025); (72096, 72103);
  (72106, 72144); (72161, 72161); (72163, 72163); (72192, 72192);
  (72203, 72242); (72250, 72250); (72272, 72272); (72284, 72329);
  (72349, 72349); (72368, 72440); (72704, 72712); (72714, 72750);
  (72768, 72768); (72784, 72812); (72818, 72847); (72960, 72966);
  (72968, 72969); (72971, 73008); (73030, 73030); (73040, 73049);
  (73056, 73061); (73063, 73064); (73066, 73097); (73112, 73112);
  (73120, 73129); (73440, 73458); (73648, 73648); (73664, 73684);
  (73728, 74649); (74752, 74862); (74880, 75075); (77712, 77808);
  (77824, 78894); (82944, 83526); (92160, 92728); (92736, 92766);
  (92768, 92777); (92784, 92862); (92864, 92873); (92880, 92909);
  (92928, 92975); (92992, 92995); (93008, 93017); (93019, 93025);
  (93027, 93047); (93053, 93071); (93760, 93846); (93952, 94026);
  (94032, 94032); (94099, 94111); (94176, 94177); (94179, 94179);
  (94208, 100343); (100352, 101589); (101632, 101640); (110576, 110579);
  (110581, 110587); (110589, 110590); (110592, 110882); (110928, 110930);
  (110948, 110951); (110960, 111355); (113664, 113770); (113776, 113788);
  (113792, 113800); (113808, 113817); (119520, 119539); (119648, 119672);
  (119808, 119892); (119894, 119964); (119966, 119967); (119970, 119970);
  (119973, 119974); (119977, 119980); (119982, 119993); (119995, 119995);
  (119997, 120003); (120005, 120069); (120071, 120074); (120077, 120084);
  (120086, 120092); (120094, 120121); (120123, 120126); (120128, 120132);
  (120134, 120134); (120138, 120144); (120146, 120485); (120488, 120512);
  (120514, 120538); (120540, 120570); (120572, 120596); (120598, 120628);
  (120630, 120654); (120656, 120686); (120688, 120712); (120714, 120744);
  (120746, 120770); (120772, 120779); (120782, 120831); (122624, 122654);
  (123136, 123180); (123191, 123197); (123200, 123209); (123214, 123214);
  (123536, 123565); (123584, 123627); (123632, 123641); (124896, 124902);
  (124904, 124907); (124909, 124910); (124912, 124926); (124928, 125124);
  (125127, 125135); (125184, 125251); (125259, 125259); (125264, 125273);
  (126065, 126123); (126125, 126127); (126129, 126132); (126209, 126253);
  (126255, 126269); (126464, 126467); (126469, 126495); (126497, 126498);
  (126500, 126500); (126503, 126503); (126505, 126514); (126516, 126519);
  (126521, 126521); (126523, 126523); (126530, 126530); (126535, 126535);
  (126537, 126537); (126539, 126539); (126541, 126543); (126545, 126546);
  (126548, 126548); (126551, 126551); (126553, 126553); (126555, 126555);
  (126557, 126557); (126559, 126559); (126561, 126562); (126564, 126564);
  (126567, 126570); (126572, 126578); (126580, 126583); (126585, 126588);
  (126590, 126590); (126592, 126601); (126603, 126619); (126625, 126627);
  (126629, 126633); (126635, 126651); (127232, 127244); (130032, 130041);
  (131072, 173791); (173824, 177976); (177984, 178205); (178208, 183969);
  (183984, 191456); (194560, 195101); (196608, 201546)
].

Definition is_word (c : N) : bool :=
  existsb (fun r => between (fst r) (snd r) c) word_ranges.

Fixpoint lstrip (s : text) : text :=
  match s with
  | [] => []
  | c :: s' => if isspace c then lstrip s' else s
  end.

Fixpoint rstrip (s : text) : text :=
  match s with
  | [] => []
  | c :: s' =>
      match rstrip s' with
      | [] => if isspace c then [] else [c]
      | r => c :: r
      end
  end.

(** [s.strip()] *)
Definition strip (s : text) : text := rstrip (lstrip s).

(** [s.splitlines()]: a carriage return directly followed by a line
    feed is one boundary; no empty last line is produced after a final
    boundary. *)
Fixpoint splitlines (s : text) : list text :=
  match s with
  | [] => []
  | c :: s' =>
      if is_linebreak c then
        [] :: (if c =? CR then
                 match s' with
                 | d :: s'' => if d =? LF then splitlines s'' else splitlines s'
                 | [] => []
                 end
               else splitlines s')
      else
        match splitlines s' with
        | [] => [[c]]
        | l :: ls => (c :: l) :: ls
        end
  end.

(** [s.splitlines(keepends=True)] *)
Fixpoint splitlines_keepends (s : text) : list text :=
  match s with
  | [] => []
  | c :: s' =>
      if is_linebreak c then
        if c =? CR then
          match s' with
          | d :: s'' =>
              if d =? LF then [c; d] :: splitlines_keepends s''
              else [c] :: splitlines_keepends s'
          | [] => [[c]]
          end
        else [c] :: splitlines_keepends s'
      else
        match splitlines_keepends s' with
        | [] => [[c]]
        | l :: ls => (c :: l) :: ls
        end
  end.

(** [sep.join(ls)] *)
Fixpoint join (sep : text) (ls : list text) : text :=
  match ls with
  | [] => []
  | l :: ls' =>
      match ls' with
      | [] => l
      | _ :: _ => l ++ sep ++ join sep ls'
      end
  end.

(** [s.replace('\r\n', '\n')] *)
Fixpoint replace_crlf (s : text) : text :=
  match s with
  | [] => []
  | c :: s' =>
      match s' with
      | d :: s'' =>
          if (c =? CR) && (d =? LF) then LF :: replace_crlf s''
          else c :: replace_crlf s'
      | [] => [c]
      end
  end.

(** [s.replace('\r', '\n')] *)
Definition replace_cr (s : text) : text :=
  map (fun c => if c =? CR then LF else c) s.

(** The rest of [s] after the literal prefix [p], if [s] starts with it. *)
Fixpoint strip_prefix (p s : text) : option text :=
  match p with
  | [] => Some s
  | a :: p' =>
      match s with
      | [] => None
      | c :: s' => if a =? c then strip_prefix p' s' else None
      end
  end.

(** [s.endswith(suffix)] *)
Definition endswith (s suffix : text) : bool :=
  match strip_prefix (rev suffix) (rev s) with
  | Some _ => true
  | None => false
  end.

(** The longest prefix of [s] whose code points satisfy [p], and the rest. *)
Fixpoint span (p : N -> bool) (s : text) : text * text :=
  match s with
  | [] => ([], [])
  | c :: s' =>
      if p c then let (a, b) := span p s' in (c :: a, b) else ([], s)
  end.

(** The text before and after the first occurrence of the literal [pat]. *)
Fixpoint find_sub (pat s : text) : option (text * text) :=
  match strip_prefix pat s with
  | Some r => Some ([], r)
  | None =>
      match s with
      | [] => None
      | c :: s' =>
          match find_sub pat s' with
          | Some (b, a) => Some (c :: b, a)
          | None => None
          end
      end
  end.

End PyStr.

Import PyStr.

(** ** The scanner behind [re.finditer] and [re.sub] *)

Module Re.

(** [Lit c] is a code point outside every match, [Hit a] a match. *)
Inductive piece (A : Type) : Type :=
| Lit (c : N)
| Hit (a : A).

Arguments Lit {A} c.
Arguments Hit {A} a.

(** Whether the position after the text [s] is a line start for [^]
    under [re.MULTILINE]: only a line feed opens a line. *)
Definition ends_line (s : text) : bool :=
  match last s with
  | Some c => c =? LF
  | None => false
  end.

Section Scanner.

Context {A : Type}.

(** [match_at bol s] tries the pattern at the first position of [s];
    [bol] tells whether that position is the start of the text or
    follows a line feed.  It gives the match and the text after it. *)
Variable match_at : bool -> text -> option (A * text).

(** Left to right, leftmost match first, the search resuming at the end
    of each match; a position without a match is passed through. *)
Fixpoint scan_from (fuel : nat) (bol : bool) (s : text) : list (piece A) :=
  match fuel with
  | O => []
  | S fuel' =>
      match match_at bol s with
      | Some (a, rest) =>
          Hit a :: scan_from fuel'
                     (ends_line (take (length s - length rest) s)) rest
      | None =>
          match s with
          | [] => []
          | c :: s' => Lit c :: scan_from fuel' (c =? LF) s'
          end
      end
  end.

Definition scan (s : text) : list (piece A) :=
  scan_from (S (length s)) true s.

(** [pattern.finditer(s)] *)
Definition finditer (s : text) : list A :=
  omap (fun p => match p with Hit a => Some a | Lit _ => None end) (scan s).

(** [pattern.sub(repl, s)] for a replacement function without effects. *)
Definition sub (repl : A -> text) (s : text) : text :=
  flat_map (fun p => match p with Lit c => [c] | Hit a => repl a end)
           (scan s).

End Scanner.

End Re.

(** ** [Tools/_theft.py] *)

Module Theft.

(** The groups of one match of [ITEM_BLOCK_REGEX]. *)
Record item_match : Type := {
  group0 : text;
  indent : text;
  attrs : text;
  inner : text
}.

Definition is_indent (c : N) : bool := (c =? SPACE) || (c =? TAB).

Definition not_gt (c : N) : bool := negb (c =? GT).

Definition not_dquote (c : N) : bool := negb (c =? DQUOTE).

(** [ITEM_BLOCK_REGEX] at one position.  Under MULTILINE [^] asks for a
    line start.  The greedy classes cannot give back a code point (the
    literal after each of them is outside the class), and the lazy
    [.*?] under DOTALL stops at the first closing tag. *)
Definition match_item_block (bol : bool) (s : text)
  : option (item_match * text) :=
  if bol then
    let (ind, r0) := span is_indent s in
    match strip_prefix (lit "<Item") r0 with
    | None => None
    | Some r1 =>
        let (att, r2) := span not_gt r1 in
        match r2 with
        | [] => None
        | _ :: r3 =>
            match find_sub (lit "</Item>") r3 with
            | None => None
            | Some (inn, r4) =>
                Some ({| group0 := take (length s - length r4) s;
                         indent := ind; attrs := att; inner := inn |}, r4)
            end
        end
    end
  else None.

(** [IDENTIFIER_REGEX] at one position. *)
Definition match_identifier (s : text) : option text :=
  match strip_prefix (lit "identifier=\q") s with
  | None => None
  | Some r =>
      let (v, r') := span not_dquote r in
      match v, r' with
      | _ :: _, _ :: _ => Some v
      | _, _ => None
      end
  end.

(** [IDENTIFIER_REGEX.search(attrs)], giving group 1 of the first match. *)
Fixpoint search_identifier (s : text) : option text :=
  match match_identifier s with
  | Some v => Some v
  | None =>
      match s with
      | [] => None
      | _ :: s' => search_identifier s'
      end
  end.

(** The text after the first closing tag of a removed component. *)
Fixpoint find_component_end (s : text) : option text :=
  match strip_prefix (lit "</Fabricate>") s with
  | Some r => Some r
  | None =>
      match strip_prefix (lit "</Deconstruct>") s with
      | Some r => Some r
      | None =>
          match s with
          | [] => None
          | _ :: s' => find_component_end s'
          end
      end
  end.

(** [\b] right after a word character. *)
Definition word_boundary (s : text) : bool :=
  match s with
  | [] => true
  | c :: _ => negb (is_word c)
  end.

(** [REMOVE_COMPONENTS_REGEX] at one position. *)
Definition match_component (bol : bool) (s : text) : option (unit * text) :=
  let opened :=
    match strip_prefix (lit "<Fabricate") s with
    | Some r => Some r
    | None => strip_prefix (lit "<Deconstruct") s
    end in
  match opened with
  | None => None
  | Some r =>
      if word_boundary r then
        match find_component_end r with
        | Some rest => Some (tt, rest)
        | None => None
        end
      else None
  end.

(** [REMOVE_COMPONENTS_REGEX.sub('', inner)] *)
Definition remove_components (s : text) : text :=
  Re.sub match_component (fun _ => []) s.

(** The pattern [\s+] at one position. *)
Definition match_whitespace (bol : bool) (s : text) : option (unit * text) :=
  let (ws, rest) := span isspace s in
  match ws with
  | [] => None
  | _ :: _ => Some (tt, rest)
  end.

Definition normalize_whitespace (t : text) : text :=
  Re.sub match_whitespace (fun _ => [SPACE]) (strip t).

Definition reindent (t ind : text) : text :=
  join [LF]
       (map (fun line => match strip line with
                         | [] => []
                         | _ :: _ => ind ++ line
                         end)
            (splitlines t)).

(** A directory listing: file names with the text read from each file,
    [None] when reading the file raises.  The files are opened in text
    mode, so the text read has the line ends of the file as line feeds. *)
Abbreviation directory := (list (text * option text)).

(** The loop body of [extract_items_from_src] over one file's content. *)
Definition add_items (items : gmap text text) (content : text)
  : gmap text text :=
  foldl (fun items m =>
           match search_identifier (attrs m) with
           | Some ident =>
               <[ident := strip (remove_components (inner m))]> items
           | None => items
           end)
        items (Re.finditer match_item_block content).

Definition extract_items_from_src (src_dir : directory) : gmap text text :=
  foldl (fun items file =>
           if endswith (fst file) (lit ".xml") then
             match snd file with
             | Some content => add_items items content
             | None => items
             end
           else items)
        ∅ src_dir.

(** [os.linesep] *)
Inductive platform : Type := Posix | Windows.

Definition linesep (os : platform) : text :=
  match os with
  | Posix => [LF]
  | Windows => [CR; LF]
  end.

(** The closure [replacer]; the set [used_ids] it mutates is threaded. *)
Definition replacer (os : platform) (src_items : gmap text text)
    (used_ids : gset text) (m : item_match) : text * gset text :=
  match search_identifier (attrs m) with
  | None => (group0 m, used_ids)
  | Some ident =>
      match src_items !! ident with
      | None => (group0 m, used_ids)
      | Some src_inner =>
          let used_ids' := {[ident]} ∪ used_ids in
          if bool_decide (normalize_whitespace (inner m)
                          = normalize_whitespace src_inner)
          then (group0 m, used_ids')
          else
            let new_indent := indent m ++ [TAB] in
            let new_inner := reindent src_inner new_indent in
            (indent m ++ lit "<Item" ++ attrs m ++ [GT] ++ linesep os
               ++ new_inner ++ linesep os ++ indent m ++ lit "</Item>",
             used_ids')
      end
  end.

(** [ITEM_BLOCK_REGEX.sub(replacer, original)] over the scanned pieces,
    calling [replacer] on the matches in document order. *)
Fixpoint sub_items (os : platform) (src_items : gmap text text)
    (used_ids : gset text) (ps : list (Re.piece item_match))
  : text * gset text :=
  match ps with
  | [] => ([], used_ids)
  | Re.Lit c :: ps' =>
      let (t, u) := sub_items os src_items used_ids ps' in (c :: t, u)
  | Re.Hit m :: ps' =>
      let (r, used_ids') := replacer os src_items used_ids m in
      let (t, u) := sub_items os src_items used_ids' ps' in (r ++ t, u)
  end.

(** The overall formatting step at the end of [update_tar_file]. *)
Definition normalize_overall (modified : text) : text :=
  reindent (replace_cr (replace_crlf modified)) [].

(** [update_tar_file], given what reading [tar_path] produced.  The
    result is the returned triple and the updated [used_ids]. *)
Definition update_tar_file (os : platform) (content : option text)
    (src_items : gmap text text) (used_ids : gset text)
  : (text * text * bool) * gset text :=
  match content with
  | None => (([], [], false), used_ids)
  | Some original =>
      let (substituted, used_ids') :=
        sub_items os src_items used_ids (Re.scan match_item_block original) in
      let modified := normalize_overall substituted in
      let changed :=
        negb (bool_decide (normalize_whitespace original
                           = normalize_whitespace modified)) in
      ((original, modified, changed), used_ids')
  end.

(** The two line lists [generate_diff] hands to [difflib.unified_diff]. *)
Definition generate_diff_lines (original modified : text)
  : list text * list text :=
  (splitlines_keepends original, splitlines_keepends modified).

(** Comparison of [str] values: lexicographic on code points. *)
Fixpoint text_leb (a b : text) : bool :=
  match a, b with
  | [], _ => true
  | _ :: _, [] => false
  | x :: a', y :: b' => (x <? y) || ((x =? y) && text_leb a' b')
  end.

Definition text_le (a b : text) : Prop := text_leb a b = true.

#[global] Instance text_le_dec a b : Decision (text_le a b).
Proof. unfold text_le. apply _. Defined.

(** The loop of [main] over the target files: the triple returned for
    each [.xml] file and the identifiers used. *)
Definition process_targets (os : platform) (src_items : gmap text text)
    (tar_dir : directory)
  : list (text * (text * text * bool)) * gset text :=
  foldl (fun st file =>
           if endswith (fst file) (lit ".xml") then
             let (res, used_ids') :=
               update_tar_file os (snd file) src_items (snd st) in
             (fst st ++ [(fst file, res)], used_ids')
           else st)
        ([], ∅) tar_dir.

(** [sorted(set(src_items.keys()) - used_ids)] *)
Definition missing_ids (src_items : gmap text text) (used_ids : gset text)
  : list text :=
  merge_sort text_le (elements (dom src_items ∖ used_ids)).

(** What [main] writes to [MISSING_FILE]; nothing is written when no
    identifier is missing. *)
Definition missing_report (ids : list text) : option text :=
  match ids with
  | [] => None
  | _ :: _ => Some (concat (map (fun ident => ident ++ [LF]) ids))
  end.

(** One pass of [main]: the per-file results and the missing
    identifiers. *)
Definition main_pass (os : platform) (src_dir tar_dir : directory)
  : list (text * (text * text * bool)) * list text :=
  let src_items := extract_items_from_src src_dir in
  let (results, used_ids) := process_targets os src_items tar_dir in
  (results, missing_ids src_items used_ids).

End Theft.

(** ** [Text/_swapper.py] *)

Module Swapper.

(** The pattern [^( {4})+] under MULTILINE at one position: the number
    of groups of four spaces matched, greedily. *)
Definition match_indent_groups (bol : bool) (s : text) : option (nat * text) :=
  if bol then
    let (sp, _) := span (fun c => c =? SPACE) s in
    let k := (length sp / 4)%nat in
    match k with
    | O => None
    | S _ => Some (k, drop (4 * k) s)
    end
  else None.

Definition normalize_formatting (t : text) : text :=
  let t' := replace_cr (replace_crlf t) in
  Re.sub match_indent_groups (fun k => repeat TAB k) t'.

(** The groups of one match of the pattern of [patch_xml_content]. *)
Record tag_match : Type := {
  group0 : text;
  tag : text;
  original_text : text
}.

(** The pattern [<(\S+?)>(.*?)</\1>] under DOTALL after its first
    [<], with the tag read so far in [tg].  The lazy [\S+?] offers the
    shortest tag first; a tag is tried when a [>] follows it, and the
    lazy [.*?] then stops at the first closing tag of that name.  When
    there is none, the tag is extended by the next code point, which
    may itself be the [>], as long as it is not white space. *)
Fixpoint match_tag_from (tg s : text) : option (text * text * text) :=
  match s with
  | [] => None
  | c :: s' =>
      let longer :=
        if isspace c then None else match_tag_from (tg ++ [c]) s' in
      match tg with
      | [] => longer
      | _ :: _ =>
          if c =? GT then
            match find_sub (lit "</" ++ tg ++ [GT]) s' with
            | Some (txt, rest) => Some (tg, txt, rest)
            | None => longer
            end
          else longer
      end
  end.

(** The pattern of [patch_xml_content] at one position. *)
Definition match_tag_element (bol : bool) (s : text)
  : option (tag_match * text) :=
  match strip_prefix (lit "<") s with
  | None => None
  | Some r =>
      match match_tag_from [] r with
      | None => None
      | Some (tg, txt, rest) =>
          Some ({| group0 := take (length s - length rest) s;
                   tag := tg; original_text := txt |}, rest)
      end
  end.

(** What an f-string writes for a value that is a [str] or [None]. *)
Definition format_value (v : option text) : text :=
  match v with
  | Some t => t
  | None => lit "None"
  end.

(** The closure [replace_tag].  The values of [replacements] are the
    [elem.text] of the parsed patch files: a [str], or [None] for an
    element without text. *)
Definition replace_tag (replacements : gmap text (option text))
    (m : tag_match) : text :=
  match replacements !! tag m with
  | Some new_text =>
      if bool_decide (new_text = Some (original_text m)) then group0 m
      else lit "<" ++ tag m ++ [GT] ++ format_value new_text
             ++ lit "</" ++ tag m ++ [GT]
  | None => group0 m
  end.

Definition patch_xml_content (original_content : text)
    (replacements : gmap text (option text)) : text :=
  Re.sub match_tag_element (replace_tag replacements) original_content.

(** What [process_all_files] does to one target file. *)
Record outcome : Type := {
  out_file : option text;
  diff_file : option (list text * list text)
}.

(** The body of the loop of [process_all_files] for one target file
    with the content [original_content]: what is written to the output
    file, and the two line lists whose unified diff is written to the
    diff file.  [user_input] is the answer read in preview mode, in
    lower case as [input(...).lower()] gives it. *)
Definition process_file (preview_mode : bool) (user_input : text)
    (original_content : text) (patch_dict : gmap text (option text))
  : outcome :=
  let original_normalized := normalize_formatting original_content in
  let modified_content := patch_xml_content original_normalized patch_dict in
  let modified_normalized := normalize_formatting modified_content in
  if preview_mode && negb (bool_decide (user_input = lit "y")) then
    {| out_file := None; diff_file := None |}
  else
    {| out_file := Some modified_normalized;
       diff_file :=
         if bool_decide (original_normalized = modified_normalized) then None
         else Some (splitlines_keepends original_normalized,
                    splitlines_keepends modified_normalized) |}.

End Swapper.

Import Theft.

(** ** Definitions used to state the properties *)

(** The scanner at a position whose line-start status is [bol]. *)
Definition scan_at {A : Type} (match_at : bool -> text -> option (A * text))
    (bol : bool) (s : text) : list (Re.piece A) :=
  Re.scan_from match_at (S (length s)) bol s.

(** The text a piece of an item scan stands for in the scanned document. *)
Definition piece_text (p : Re.piece item_match) : text :=
  match p with
  | Re.Lit c => [c]
  | Re.Hit m => group0 m
  end.

(** The words of a text: its maximal runs of code points that are not
    whitespace, in order (what [str.split()] returns). *)
Fixpoint words (s : text) : list text :=
  match s with
  | [] => []
  | c :: s' =>
      if isspace c then words s'
      else
        match s' with
        | [] => [[c]]
        | d :: _ =>
            if isspace d then [c] :: words s'
            else
              match words s' with
              | w :: ws => (c :: w) :: ws
              | [] => [[c]]
              end
        end
  end.

(** Whether a text begins inside a word. *)
Definition starts_word (s : text) : bool :=
  match s with
  | [] => false
  | d :: _ => negb (isspace d)
  end.

(** A word: not empty and free of whitespace. *)
Definition is_a_word (w : text) : Prop :=
  w <> [] /\ forallb (fun c => negb (isspace c)) w = true.

(** [re.sub(r'\s+', ' ', s)] from a position of the text. *)
Definition collapse (s : text) : text :=
  Re.sub match_whitespace (fun _ => [SPACE]) s.

Arguments isspace : simpl never.
Arguments is_linebreak : simpl never.
Arguments is_word : simpl never.

(** [s.split(sep)] for a separator of one code point. *)
Fixpoint split_on (sep : N) (s : text) : list text :=
  match s with
  | [] => [[]]
  | c :: s' =>
      if (c =? sep)%N then [] :: split_on sep s'
      else
        match split_on sep s' with
        | l :: ls => (c :: l) :: ls
        | [] => [[c]]
        end
  end.

(** The text after the line boundary that starts with [c]. *)
Definition after_break (c : N) (s : text) : text :=
  if (c =? CR)%N then
    match s with
    | d :: s' => if (d =? LF)%N then s' else s
    | [] => []
    end
  else s.

(** What [reindent] makes of one line. *)
Definition reindent_line (ind line : text) : text :=
  match strip line with
  | [] => []
  | _ :: _ => ind ++ line
  end.

(** What the overall formatting, [reindent] with an empty indent, makes
    of one line: a line of whitespace only is emptied, any other line is
    kept as it is. *)
Definition format_line (line : text) : text :=
  if forallb isspace line then [] else line.

(** The components of the result of [update_tar_file]. *)
Definition tar_original (r : (text * text * bool) * gset text) : text :=
  fst (fst (fst r)).
Definition tar_modified (r : (text * text * bool) * gset text) : text :=
  snd (fst (fst r)).
Definition tar_changed (r : (text * text * bool) * gset text) : bool :=
  snd (fst r).
Definition tar_used (r : (text * text * bool) * gset text) : gset text :=
  snd r.

(** The catalog content that the merge writes into a matched block, if
    it replaces the block. *)
Definition replacement (src_items : gmap text text) (m : item_match)
  : option text :=
  match search_identifier (attrs m) with
  | None => None
  | Some ident =>
      match src_items !! ident with
      | None => None
      | Some src_inner =>
          if bool_decide (normalize_whitespace (inner m)
                          = normalize_whitespace src_inner)
          then None else Some src_inner
      end
  end.

(** The identifier a matched block marks as used, if any. *)
Definition used_ident (src_items : gmap text text) (m : item_match)
  : option text :=
  match search_identifier (attrs m) with
  | None => None
  | Some ident =>
      match src_items !! ident with
      | None => None
      | Some _ => Some ident
      end
  end.

(** The block written in place of a replaced block. *)
Definition new_block (os : platform) (m : item_match) (src_inner : text)
  : text :=
  indent m ++ lit "<Item" ++ attrs m ++ [GT] ++ linesep os
    ++ reindent src_inner (indent m ++ [TAB]) ++ linesep os
    ++ indent m ++ lit "</Item>".

(** The text the substitution emits for one scanned piece. *)
Definition piece_out (os : platform) (src_items : gmap text text)
    (p : Re.piece item_match) : text :=
  match p with
  | Re.Lit c => [c]
  | Re.Hit m =>
      match replacement src_items m with
      | Some src_inner => new_block os m src_inner
      | None => group0 m
      end
  end.

(** The matches among scanned pieces. *)
Definition hits {A : Type} (ps : list (Re.piece A)) : list A :=
  omap (fun p => match p with Re.Hit a => Some a | Re.Lit _ => None end) ps.

(** A target block carrying the identifier [ident] is met in the run:
    some [.xml] file of the target directory that could be read holds a
    block whose attribute text resolves to [ident]. *)
Definition encountered (tar_dir : directory) (ident : text) : Prop :=
  exists fname content m,
    (fname, Some content) ∈ tar_dir
    /\ endswith fname (lit ".xml") = true
    /\ m ∈ Re.finditer match_item_block content
    /\ search_identifier (attrs m) = Some ident.

(** The identifiers one target file marks as used. *)
Definition file_used (src_items : gmap text text) (file : text * option text)
  : list text :=
  if endswith (fst file) (lit ".xml") then
    match snd file with
    | Some content =>
        omap (used_ident src_items)
             (hits (Re.scan match_item_block content))
    | None => []
    end
  else [].

(** Strict order of [str] values. *)
Definition text_lt (a b : text) : Prop := text_le a b /\ a <> b.

(** A source block carrying the identifier [ident] whose cleaned inner
    content is [cleaned]: some [.xml] file of the source directory that
    could be read holds such a block. *)
Definition source_block (src_dir : directory) (ident cleaned : text) : Prop :=
  exists fname content m,
    (fname, Some content) ∈ src_dir
    /\ endswith fname (lit ".xml") = true
    /\ m ∈ Re.finditer match_item_block content
    /\ search_identifier (attrs m) = Some ident
    /\ cleaned = strip (remove_components (inner m)).

(** What a match of the item pattern looks like. *)
Definition is_block (m : item_match) : Prop :=
  group0 m = indent m ++ lit "<Item" ++ attrs m ++ [GT] ++ inner m
               ++ lit "</Item>"
  /\ forallb is_indent (indent m) = true
  /\ forallb not_gt (attrs m) = true
  /\ find_sub (lit "</Item>") (inner m) = None.

(** The document and catalog of the scenario of the specification. *)
Definition rope_catalog : gmap text text :=
  {[ lit "rope_1" := lit "<price>10</price>" ]}.

Definition rope_target : text :=
  lit "<Item identifier=\qrope_1\q>\n    <price>5</price>\n</Item>".

Definition rope_merged : text :=
  lit "<Item identifier=\qrope_1\q>\n\t<price>10</price>\n</Item>".

(** A target document, as read (line feeds only), with four-space
    indentation and a whitespace-only line around the block of the
    scenario. *)
Definition indented_target : text :=
  lit "<root>\n    <a/>\n  \n<Item identifier=\qrope_1\q>\n    <price>5</price>\n</Item>\n</root>\n".

(** A target document, as read, that ends with an empty line after its
    last line. *)
Definition blank_end_target : text :=
  lit "<root>\n<Item identifier=\qrope_1\q>\n<price>5</price>\n</Item>\n</root>\n\n".

(** NEXT LINE (U+0085): a line boundary for [str.splitlines], but not
    for [^] of [re], which in multi-line mode only matches after a line
    feed. *)
Definition NEL : N := 133.

(** A target document, as read, with two blocks, the second one after a
    NEXT LINE, and a catalog with an entry for each. *)
Definition nel_target : text :=
  lit "<Item identifier=\qrope_1\q>old</Item>" ++ [NEL]
    ++ lit "<Item identifier=\qrope_2\q>old</Item>".

Definition two_ropes : gmap text text :=
  {[ lit "rope_1" := lit "<price>10</price>";
     lit "rope_2" := lit "<price>20</price>" ]}.

(** The component tags of the exclusion set. *)
Inductive component : Type := Fabricate | Deconstruct.

Definition component_name (k : component) : text :=
  match k with
  | Fabricate => lit "Fabricate"
  | Deconstruct => lit "Deconstruct"
  end.

Definition LT : N := 60.

(** The opening of a component element, up to its tag name. *)
Definition opening (k : component) : text := LT :: component_name k.

(** The closing tag of a component element. *)
Definition closing (k : component) : text :=
  lit "</" ++ component_name k ++ [GT].

(** The text after an opening component tag at the head of [s]. *)
Definition after_opening (s : text) : option text :=
  match strip_prefix (opening Fabricate) s with
  | Some r => Some r
  | None => strip_prefix (opening Deconstruct) s
  end.

(** No opening component tag of [s] stands at a word boundary: each one
    is followed in [s] by a word code point, as [<Fabricated] is. *)
Fixpoint no_span_opening (s : text) : bool :=
  match s with
  | [] => true
  | _ :: s' =>
      match after_opening s with
      | Some r => negb (word_boundary r)
      | None => true
      end && no_span_opening s'
  end.

(** Well-formed markup, to read the wording of the specification: an
    element with tag name [tag] is an opening tag with attribute text, a
    body of nested content and the closing tag of the same name; content
    is text without tag openers, interleaved with elements. *)
Inductive element : text -> text -> Prop :=
| element_intro (tag attrs body : text) :
    tag <> [] ->
    forallb is_word tag = true ->
    word_boundary attrs = true ->
    forallb not_gt attrs = true ->
    contents body ->
    element tag
            (LT :: tag ++ attrs ++ [GT] ++ body ++ lit "</" ++ tag ++ [GT])
with contents : text -> Prop :=
| contents_nil : contents []
| contents_char (c : N) (s : text) :
    c <> LT -> contents s -> contents (c :: s)
| contents_element (tag e s : text) :
    element tag e -> contents s -> contents (e ++ s).

(** The wording of the specification for the removal: each element of
    the exclusion set is removed in full together with the content nested
    inside it, so that of an inner content that is one such element
    nothing remains. *)
Definition removes_components_in_full : Prop :=
  forall (k : component) (e : text),
    element (component_name k) e -> remove_components e = [].

(** A line that begins, after spaces and tabs, with the item opening. *)
Definition opens_item (line : text) : bool :=
  match strip_prefix (lit "<Item") (snd (span is_indent line)) with
  | Some _ => true
  | None => false
  end.

(** The opening tag of a matched block, with its indent. *)
Definition open_tag (m : item_match) : text :=
  indent m ++ lit "<Item" ++ attrs m ++ [GT].

(** The inner region written for a replaced block. *)
Definition written_inner (os : platform) (m : item_match) (src_inner : text)
  : text :=
  linesep os ++ reindent src_inner (indent m ++ [TAB]) ++ linesep os
    ++ indent m.

(** The replaced blocks among scanned pieces, each with the catalog
    content written into it. *)
Fixpoint replaced_blocks (src_items : gmap text text)
    (ps : list (Re.piece item_match)) : list (item_match * text) :=
  match ps with
  | [] => []
  | Re.Lit _ :: ps' => replaced_blocks src_items ps'
  | Re.Hit m :: ps' =>
      match replacement src_items m with
      | Some c => (m, c) :: replaced_blocks src_items ps'
      | None => replaced_blocks src_items ps'
      end
  end.

(** [x] put in front of the first text of a list. *)
Definition push_front (x : text) (fs : list text) : list text :=
  match fs with
  | [] => [x]
  | f :: fs' => (x ++ f) :: fs'
  end.

(** The text of scanned pieces outside the inner regions of the replaced
    blocks: the stretch before the first replaced inner region, the
    stretches between two of them, and the stretch after the last. *)
Fixpoint outer_texts (src_items : gmap text text)
    (ps : list (Re.piece item_match)) : list text :=
  match ps with
  | [] => [[]]
  | Re.Lit c :: ps' => push_front [c] (outer_texts src_items ps')
  | Re.Hit m :: ps' =>
      match replacement src_items m with
      | Some _ =>
          open_tag m :: push_front (lit "</Item>") (outer_texts src_items ps')
      | None => push_front (group0 m) (outer_texts src_items ps')
      end
  end.

(** Outer stretches with one inner region between each two of them. *)
Fixpoint weave (outer inners : list text) : text :=
  match outer with
  | [] => []
  | f :: outer' =>
      match inners with
      | [] => f
      | h :: inners' => f ++ h ++ weave outer' inners'
      end
  end.

(** The lines of a text that continues a line already begun. *)
Definition continue_lines (s : text) : list text :=
  match splitlines s with
  | [] => [[]]
  | l :: ls => l :: ls
  end.

(** Lines put after lines whose last one is still open. *)
Fixpoint glue (ls ks : list text) : list text :=
  match ls with
  | [] => ks
  | l :: ls' =>
      match ls' with
      | [] =>
          match ks with
          | [] => [l]
          | h :: t => (l ++ h) :: t
          end
      | _ :: _ => l :: glue ls' ks
      end
  end.

(** What [reindent] with an empty indent makes of a text that continues
    a line holding a code point that is not whitespace. *)
Definition reindent_continued (s : text) : text :=
  match continue_lines s with
  | [] => []
  | h :: t =>
      h ++ match t with
           | [] => []
           | _ :: _ => LF :: join [LF] (map (reindent_line []) t)
           end
  end.

(** Outer stretches around inner regions: each stretch before an inner
    region ends with [>], each stretch after one starts with [<]. *)
Inductive framed : list text -> Prop :=
| framed_last (f : text) : framed [f]
| framed_next (a b : text) (fs : list text) :
    framed ((LT :: b) :: fs) -> framed ((a ++ [GT]) :: (LT :: b) :: fs).

(** A text whose only line boundaries are line feeds. *)
Definition only_lf (s : text) : Prop :=
  forallb (fun c => negb (is_linebreak c) || (c =? LF)%N) s = true.

(** Whitespace-only lines emptied, except the last line. *)
Fixpoint empty_blank_but_last (ls : list text) : list text :=
  match ls with
  | [] => []
  | l :: ls' =>
      match ls' with
      | [] => [l]
      | _ :: _ => reindent_line [] l :: empty_blank_but_last ls'
      end
  end.

(** What the overall formatting makes of a region between two code
    points that are not whitespace, as the inner region of a block
    between [>] and [<], or its attribute text between the tag name and
    [>]: its first and last line stay, the whitespace-only lines between
    them are emptied. *)
Definition hole_format (x : text) : text :=
  match split_on LF x with
  | [] => []
  | h :: t => join [LF] (h :: empty_blank_but_last t)
  end.

(** The substituted text from a scan position, with line feeds as
    [os.linesep]. *)
Definition sub_text (src_items : gmap text text) (bol : bool) (s : text)
  : text :=
  flat_map (piece_out Posix src_items) (scan_at match_item_block bol s).

(** The entry of the result list of [main] for one file of the target
    directory: the triple that [update_tar_file] returns for it. *)
Definition target_result (os : platform) (src_items : gmap text text)
    (file : text * option text) : option (text * (text * text * bool)) :=
  if endswith (fst file) (lit ".xml") then
    Some (fst file, fst (update_tar_file os (snd file) src_items ∅))
  else None.

(** What the formatting normalizer makes of one line: each leading
    group of four spaces becomes a tab, what is left of the line stays. *)
Definition tab_line (l : text) : text :=
  let k := (length (fst (span (fun c => (c =? SPACE)%N) l)) / 4)%nat in
  repeat TAB k ++ drop (4 * k) l.

(** The lines of a text with their leading groups of four spaces turned
    into tabs, the first line only if the text begins at a line start. *)
Definition tab_lines_from (bol : bool) (s : text) : text :=
  match split_on LF s with
  | [] => []
  | l :: ls => join [LF] ((if bol then tab_line l else l) :: map tab_line ls)
  end.

(** A text in the form the formatting normalizer produces: no carriage
    return, and no line that begins with four spaces. *)
Definition tab_indented (t : text) : Prop :=
  CR ∉ t
  /\ Forall (fun l => strip_prefix (lit "    ") l = None) (split_on LF t).

(** An element with the tag name [tg] and the text [body]. *)
Definition element_text (tg body : text) : text :=
  lit "<" ++ tg ++ [GT] ++ body ++ lit "</" ++ tg ++ [GT].

(** The text a piece of a scan for elements stands for. *)
Definition tag_piece_text (p : Re.piece Swapper.tag_match) : text :=
  match p with
  | Re.Lit c => [c]
  | Re.Hit m => Swapper.group0 m
  end.

(** A match that [replace_tag] leaves as it is: its tag has no patch, or
    the patch is the text it already has. *)
Definition in_sync (replacements : gmap text (option text))
    (m : Swapper.tag_match) : Prop :=
  replacements !! Swapper.tag m = None
  \/ replacements !! Swapper.tag m = Some (Some (Swapper.original_text m)).

(** * Facts about the string primitives *)

Lemma strip_prefix_Some (p s r : text) :
  strip_prefix p s = Some r <-> s = p ++ r.
Proof.
  revert s; induction p as [|a p IH]; intros s; simpl.
  - split; congruence.
  - destruct s as [|c s]; [split; discriminate|].
    destruct (N.eqb_spec a c) as [->|Hne].
    + rewrite IH. split; congruence.
    + split; [discriminate | intros [= ? ?]; congruence].
Qed.

Lemma strip_prefix_cons (a : N) (p : text) (c : N) (s : text) :
  strip_prefix (a :: p) (c :: s)
  = if (a =? c)%N then strip_prefix p s else None.
Proof. done. Qed.

Lemma strip_prefix_app (p r : text) : strip_prefix p (p ++ r) = Some r.
Proof. by apply strip_prefix_Some. Qed.

Lemma strip_prefix_None_cons (p s : text) (c : N) :
  head p <> None -> head p <> Some c -> strip_prefix p (c :: s) = None.
Proof.
  destruct p as [|a p]; simpl; [congruence|].
  intros _ Hne. destruct (N.eqb_spec a c); congruence.
Qed.

Lemma span_app (p : N -> bool) (s : text) :
  fst (span p s) ++ snd (span p s) = s.
Proof.
  induction s as [|c s IH]; simpl; [done|].
  destruct (p c); [|done]. destruct (span p s); simpl in *. by f_equal.
Qed.

Lemma span_fst_all (p : N -> bool) (s : text) :
  forallb p (fst (span p s)) = true.
Proof.
  induction s as [|c s IH]; simpl; [done|].
  destruct (p c) eqn:E; [|done]. destruct (span p s); simpl in *.
  by rewrite E.
Qed.

Lemma span_snd_head (p : N -> bool) (s : text) (c : N) (r : text) :
  snd (span p s) = c :: r -> p c = false.
Proof.
  induction s as [|d s IH]; simpl; [done|].
  destruct (p d) eqn:E.
  - destruct (span p s); simpl in *. done.
  - simpl. intros [= -> _]. done.
Qed.

Lemma span_all_app (p : N -> bool) (a b : text) :
  forallb p a = true ->
  span p (a ++ b) = (a ++ fst (span p b), snd (span p b)).
Proof.
  induction a as [|c a IH]; simpl.
  - by destruct (span p b).
  - intros [-> Ha]%andb_prop. rewrite (IH Ha). done.
Qed.

Lemma span_stop (p : N -> bool) (c : N) (s : text) :
  p c = false -> span p (c :: s) = ([], c :: s).
Proof. simpl. by intros ->. Qed.

Lemma find_sub_Some (pat s b a : text) :
  find_sub pat s = Some (b, a) -> s = b ++ pat ++ a.
Proof.
  revert b; induction s as [|c s IH]; intros b; simpl.
  - destruct (strip_prefix pat []) eqn:E; [|done].
    intros [= <- <-]. by apply strip_prefix_Some in E.
  - destruct (strip_prefix pat (c :: s)) eqn:E.
    + intros [= <- <-]. by apply strip_prefix_Some in E.
    + destruct (find_sub pat s) as [[b' a']|]; [|done].
      intros [= <- <-]. simpl. f_equal. by apply IH.
Qed.

Lemma find_sub_length (pat s b a : text) :
  find_sub pat s = Some (b, a) -> (length a <= length s)%nat.
Proof.
  intros ->%find_sub_Some. rewrite !length_app. lia.
Qed.

(** * Facts about the scanner *)

Section ScannerFacts.

Context {A : Type} (match_at : bool -> text -> option (A * text)).

Hypothesis match_consumes : forall bol s a rest,
  match_at bol s = Some (a, rest) -> (length rest < length s)%nat.

Lemma scan_from_fuel (f1 f2 : nat) (bol : bool) (s : text) :
  (length s < f1)%nat -> (length s < f2)%nat ->
  Re.scan_from match_at f1 bol s = Re.scan_from match_at f2 bol s.
Proof.
  revert f2 bol s; induction f1 as [|f1 IH]; intros f2 bol s H1 H2; [lia|].
  destruct f2 as [|f2]; [lia|]. simpl.
  destruct (match_at bol s) as [[a rest]|] eqn:E.
  - apply match_consumes in E. f_equal. apply IH; lia.
  - destruct s as [|c s]; [done|]. simpl in *. f_equal. apply IH; lia.
Qed.

Lemma scan_at_eq (bol : bool) (s : text) :
  scan_at match_at bol s =
  match match_at bol s with
  | Some (a, rest) =>
      Re.Hit a ::
        scan_at match_at (Re.ends_line (take (length s - length rest) s)) rest
  | None =>
      match s with
      | [] => []
      | c :: s' => Re.Lit c :: scan_at match_at (c =? LF)%N s'
      end
  end.
Proof.
  unfold scan_at at 1. simpl.
  destruct (match_at bol s) as [[a rest]|] eqn:E.
  - apply match_consumes in E. f_equal. apply scan_from_fuel; lia.
  - destruct s as [|c s]; [done|]. done.
Qed.

Lemma scan_at_hit (bol : bool) (s : text) (a : A) (rest : text) :
  match_at bol s = Some (a, rest) ->
  scan_at match_at bol s =
  Re.Hit a ::
    scan_at match_at (Re.ends_line (take (length s - length rest) s)) rest.
Proof. intros E. by rewrite scan_at_eq, E. Qed.

Lemma scan_at_lit (bol : bool) (c : N) (s : text) :
  match_at bol (c :: s) = None ->
  scan_at match_at bol (c :: s) = Re.Lit c :: scan_at match_at (c =? LF)%N s.
Proof. intros E. by rewrite scan_at_eq, E. Qed.

Lemma scan_at_nil (bol : bool) : scan_at match_at bol [] = [].
Proof.
  rewrite scan_at_eq. destruct (match_at bol []) as [[a rest]|] eqn:E; [|done].
  apply match_consumes in E. simpl in E. lia.
Qed.

(** Induction along the scan. *)
Lemma scan_at_ind (P : bool -> text -> list (Re.piece A) -> Prop) :
  (forall bol, P bol [] []) ->
  (forall bol c s,
      match_at bol (c :: s) = None ->
      P (c =? LF)%N s (scan_at match_at (c =? LF)%N s) ->
      P bol (c :: s) (Re.Lit c :: scan_at match_at (c =? LF)%N s)) ->
  (forall bol s a rest,
      match_at bol s = Some (a, rest) ->
      let bol' := Re.ends_line (take (length s - length rest) s) in
      P bol' rest (scan_at match_at bol' rest) ->
      P bol s (Re.Hit a :: scan_at match_at bol' rest)) ->
  forall bol s, P bol s (scan_at match_at bol s).
Proof.
  intros Hnil Hlit Hhit bol s.
  remember (length s) as n eqn:Hn. revert bol s Hn.
  induction n as [n IH] using lt_wf_ind. intros bol s ->.
  destruct (match_at bol s) as [[a rest]|] eqn:E.
  - rewrite (scan_at_hit _ _ _ _ E). apply Hhit; [done|].
    eapply IH; [|done]. by eapply match_consumes.
  - destruct s as [|c s].
    + rewrite scan_at_nil. apply Hnil.
    + rewrite (scan_at_lit _ _ _ E). apply Hlit; [done|].
      eapply IH; [|done]. simpl; lia.
Qed.

End ScannerFacts.

Lemma scan_scan_at {A : Type} (match_at : bool -> text -> option (A * text))
    (s : text) :
  Re.scan match_at s = scan_at match_at true s.
Proof. done. Qed.

(** * Facts about the item pattern *)

Lemma take_app_length_sub (x r : text) :
  take (length (x ++ r) - length r) (x ++ r) = x.
Proof.
  rewrite length_app. replace (length x + length r - length r)%nat
    with (length x) by lia.
  by rewrite take_app_length.
Qed.

Lemma match_item_block_Some (bol : bool) (s : text) (m : item_match)
    (rest : text) :
  match_item_block bol s = Some (m, rest) ->
  bol = true /\
  s = group0 m ++ rest /\
  group0 m = indent m ++ lit "<Item" ++ attrs m ++ [GT] ++ inner m
               ++ lit "</Item>" /\
  forallb is_indent (indent m) = true /\
  forallb not_gt (attrs m) = true /\
  find_sub (lit "</Item>") (inner m ++ lit "</Item>" ++ rest)
    = Some (inner m, rest).
Proof.
  unfold match_item_block. destruct bol; [|done].
  pose proof (span_app is_indent s) as Hs.
  pose proof (span_fst_all is_indent s) as Hi.
  destruct (span is_indent s) as [ind r0]; cbn [fst snd] in *.
  destruct (strip_prefix (lit "<Item") r0) as [r1|] eqn:E1; [|done].
  apply strip_prefix_Some in E1.
  pose proof (span_app not_gt r1) as Hr1.
  pose proof (span_fst_all not_gt r1) as Ha.
  pose proof (span_snd_head not_gt r1) as Hg.
  destruct (span not_gt r1) as [att r2]; cbn [fst snd] in *.
  destruct r2 as [|g r3]; [done|].
  specialize (Hg g r3 eq_refl). unfold not_gt in Hg.
  apply negb_false_iff, N.eqb_eq in Hg. subst g.
  destruct (find_sub (lit "</Item>") r3) as [[inn r4]|] eqn:E3; [|done].
  intros [= <- <-]. cbn [group0 indent attrs inner].
  pose proof (find_sub_Some _ _ _ _ E3) as Hr3.
  assert (s = (ind ++ lit "<Item" ++ att ++ [GT] ++ inn ++ lit "</Item>")
              ++ r4) as Hdec.
  { rewrite <- Hs, E1, <- Hr1, Hr3. by rewrite <- !app_assoc. }
  split; [done|]. rewrite Hdec, take_app_length_sub.
  split; [done|]. split; [done|]. split; [done|]. split; [done|].
  by rewrite <- Hr3.
Qed.

Lemma match_item_block_consumes (bol : bool) (s : text) (m : item_match)
    (rest : text) :
  match_item_block bol s = Some (m, rest) -> (length rest < length s)%nat.
Proof.
  intros (_ & -> & -> & _)%match_item_block_Some.
  rewrite !length_app. simpl. lia.
Qed.

Lemma ends_line_snoc (s : text) (c : N) :
  Re.ends_line (s ++ [c]) = (c =? LF)%N.
Proof. unfold Re.ends_line. by rewrite last_snoc. Qed.

Lemma match_item_block_bol_after (bol : bool) (s : text) (m : item_match)
    (rest : text) :
  match_item_block bol s = Some (m, rest) ->
  Re.ends_line (take (length s - length rest) s) = false.
Proof.
  intros (_ & -> & Hg & _)%match_item_block_Some.
  rewrite take_app_length_sub, Hg.
  change (lit "</Item>") with (lit "</Item" ++ [GT]).
  by rewrite !app_assoc, ends_line_snoc.
Qed.

Lemma match_item_block_false (s : text) : match_item_block false s = None.
Proof. done. Qed.

(** The scanned pieces spell the scanned text. *)
Lemma scan_item_text (bol : bool) (s : text) :
  flat_map piece_text (scan_at match_item_block bol s) = s.
Proof.
  apply (scan_at_ind match_item_block match_item_block_consumes
           (fun _ s ps => flat_map piece_text ps = s)).
  - done.
  - intros _ c s' _ IH. simpl. by rewrite IH.
  - intros bol' s' m rest E bol'' IH. simpl. rewrite IH.
    by apply match_item_block_Some in E as (_ & -> & _).
Qed.

(** * Whitespace, words and [normalize_whitespace] *)

Lemma linebreak_isspace (c : N) : is_linebreak c = true -> isspace c = true.
Proof.
  unfold is_linebreak, isspace, between.
  rewrite !orb_true_iff, !andb_true_iff, !N.leb_le, !N.eqb_eq. lia.
Qed.

Lemma isspace_SPACE : isspace SPACE = true.
Proof. done. Qed.

Lemma isspace_LF : isspace LF = true.
Proof. done. Qed.

Lemma isspace_TAB : isspace TAB = true.
Proof. done. Qed.

Lemma span_isspace_snd (s : text) : snd (span isspace s) = lstrip s.
Proof.
  induction s as [|c s IH]; simpl; [done|].
  destruct (isspace c); [|done]. by destruct (span isspace s).
Qed.

Lemma lstrip_length (s : text) : (length (lstrip s) <= length s)%nat.
Proof. induction s as [|c s IH]; simpl; [lia|]. destruct (isspace c); simpl; lia. Qed.

Lemma match_whitespace_space (bol : bool) (c : N) (s : text) :
  isspace c = true -> match_whitespace bol (c :: s) = Some (tt, lstrip s).
Proof.
  intros Hc. unfold match_whitespace. simpl. rewrite Hc.
  pose proof (span_isspace_snd s) as H. destruct (span isspace s). by rewrite <- H.
Qed.

Lemma match_whitespace_nonspace (bol : bool) (c : N) (s : text) :
  isspace c = false -> match_whitespace bol (c :: s) = None.
Proof. intros Hc. unfold match_whitespace. simpl. by rewrite Hc. Qed.

Lemma match_whitespace_consumes (bol : bool) (s : text) (a : unit)
    (rest : text) :
  match_whitespace bol s = Some (a, rest) -> (length rest < length s)%nat.
Proof.
  destruct s as [|c s]; [done|]. destruct (isspace c) eqn:Hc.
  - rewrite match_whitespace_space by done. intros [= _ <-].
    pose proof (lstrip_length s). simpl. lia.
  - by rewrite match_whitespace_nonspace.
Qed.

Lemma scan_whitespace_bol (b1 b2 : bool) (s : text) :
  scan_at match_whitespace b1 s = scan_at match_whitespace b2 s.
Proof.
  revert b2. apply (scan_at_ind match_whitespace match_whitespace_consumes
    (fun b s ps => forall b2, ps = scan_at match_whitespace b2 s)).
  - intros b b2. by rewrite scan_at_nil by apply match_whitespace_consumes.
  - intros b c s' E _ b2.
    rewrite (scan_at_lit _ match_whitespace_consumes b2); [done|].
    destruct s'; done.
  - intros b s' a rest E bol' IH b2.
    by rewrite (scan_at_hit _ match_whitespace_consumes b2 s' a rest).
Qed.

Lemma collapse_nil : collapse [] = [].
Proof. done. Qed.

Lemma collapse_nonspace (c : N) (s : text) :
  isspace c = false -> collapse (c :: s) = c :: collapse s.
Proof.
  intros Hc. unfold collapse, Re.sub. rewrite !scan_scan_at.
  rewrite (scan_at_lit _ match_whitespace_consumes)
    by by apply match_whitespace_nonspace.
  simpl. by rewrite (scan_whitespace_bol _ true).
Qed.

Lemma collapse_space (c : N) (s : text) :
  isspace c = true -> collapse (c :: s) = SPACE :: collapse (lstrip s).
Proof.
  intros Hc. unfold collapse, Re.sub. rewrite !scan_scan_at.
  rewrite (scan_at_hit _ match_whitespace_consumes _ _ tt (lstrip s))
    by by apply match_whitespace_space.
  simpl. by rewrite (scan_whitespace_bol _ true).
Qed.

Lemma lstrip_space (c : N) (s : text) :
  isspace c = true -> lstrip (c :: s) = lstrip s.
Proof. simpl. by intros ->. Qed.

Lemma lstrip_nonspace (c : N) (s : text) :
  isspace c = false -> lstrip (c :: s) = c :: s.
Proof. simpl. by intros ->. Qed.

Lemma lstrip_starts (s : text) :
  lstrip s = [] \/ starts_word (lstrip s) = true.
Proof.
  induction s as [|c s IH]; simpl; [by left|].
  destruct (isspace c) eqn:Hc; [done|]. right. simpl. by rewrite Hc.
Qed.

Lemma words_space (c : N) (s : text) :
  isspace c = true -> words (c :: s) = words s.
Proof. simpl. by intros ->. Qed.

Lemma words_nonspace (c : N) (s : text) :
  isspace c = false ->
  words (c :: s) =
  if starts_word s then
    match words s with
    | w :: ws => (c :: w) :: ws
    | [] => [[c]]
    end
  else [c] :: words s.
Proof.
  intros Hc. simpl. rewrite Hc. destruct s as [|d s]; [done|].
  simpl. by destruct (isspace d).
Qed.

Lemma words_starts_nonempty (s : text) :
  starts_word s = true -> words s <> [].
Proof.
  destruct s as [|c s]; [done|]. simpl. intros Hc%negb_true_iff.
  rewrite Hc. destruct s as [|d s]; [done|].
  destruct (isspace d); [done|]. by destruct (words (d :: s)).
Qed.

Lemma words_lstrip (s : text) : words (lstrip s) = words s.
Proof.
  induction s as [|c s IH]; [done|]. simpl lstrip.
  destruct (isspace c) eqn:Hc; [|done]. by rewrite words_space.
Qed.

(** Two texts that agree on their words and on whether they begin
    inside a word still do so after the same code point is put in front. *)
Lemma words_cons_congr (c : N) (s1 s2 : text) :
  words s1 = words s2 -> starts_word s1 = starts_word s2 ->
  words (c :: s1) = words (c :: s2).
Proof.
  intros Hw Hs. destruct (isspace c) eqn:Hc.
  - by rewrite !words_space.
  - by rewrite !words_nonspace, Hw, Hs.
Qed.

Lemma words_app_space (a b : text) (c : N) :
  isspace c = true -> words (a ++ c :: b) = words a ++ words b.
Proof.
  intros Hc. induction a as [|x a IH].
  - simpl app. by rewrite words_space.
  - rewrite <- app_comm_cons. destruct (isspace x) eqn:Hx.
    + by rewrite !words_space.
    + rewrite !words_nonspace, IH by done.
      destruct a as [|d a].
      * simpl. by rewrite Hc.
      * simpl starts_word. destruct (isspace d) eqn:Hd; simpl negb; [done|].
        assert (words (d :: a) <> []) as Hne.
        { apply words_starts_nonempty. simpl. by rewrite Hd. }
        destruct (words (d :: a)) as [|w ws]; [by destruct Hne|]. done.
Qed.

Lemma words_blank (s : text) : forallb isspace s = true -> words s = [].
Proof.
  induction s as [|c s IH]; [done|]. simpl forallb.
  intros [Hc Hs]%andb_prop. rewrite words_space by done. by apply IH.
Qed.

Lemma words_blank_app (a b : text) :
  forallb isspace a = true -> words (a ++ b) = words b.
Proof.
  induction a as [|c a IH]; [done|]. simpl forallb.
  intros [Hc Hs]%andb_prop. rewrite <- app_comm_cons, words_space by done.
  by apply IH.
Qed.

Lemma rstrip_cons (c : N) (s : text) :
  rstrip (c :: s) =
  match rstrip s with
  | [] => if isspace c then [] else [c]
  | r => c :: r
  end.
Proof. done. Qed.

Lemma rstrip_blank (s : text) :
  rstrip s = [] <-> forallb isspace s = true.
Proof.
  induction s as [|c s IH]; [done|]. rewrite rstrip_cons. simpl forallb.
  destruct (rstrip s) as [|r rs].
  - destruct (isspace c); simpl; [tauto|]. split; done.
  - split; [done|]. intros [_ Hs]%andb_prop. apply IH in Hs. done.
Qed.

Lemma words_rstrip (s : text) :
  words (rstrip s) = words s /\ starts_word (rstrip s) = starts_word s.
Proof.
  induction s as [|c s [IHw IHs]]; [done|]. rewrite rstrip_cons.
  destruct (rstrip s) as [|r rs] eqn:E.
  - apply rstrip_blank in E. destruct (isspace c) eqn:Hc.
    + rewrite words_space, words_blank by done. simpl. by rewrite Hc.
    + rewrite !words_nonspace by done. simpl.
      rewrite (words_blank s E). rewrite Hc. split; [|done].
      destruct s as [|d s]; [done|]. simpl in *.
      apply andb_prop in E as [-> _]. done.
  - split; [|done]. by apply words_cons_congr.
Qed.

Lemma words_strip (s : text) : words (strip s) = words s.
Proof.
  unfold strip. rewrite (proj1 (words_rstrip _)). apply words_lstrip.
Qed.

Lemma rstrip_idem (s : text) : rstrip (rstrip s) = rstrip s.
Proof.
  induction s as [|c s IH]; [done|]. rewrite rstrip_cons.
  destruct (rstrip s) as [|r rs] eqn:E.
  - destruct (isspace c) eqn:Hc; [done|]. simpl. by rewrite Hc.
  - rewrite rstrip_cons, IH. done.
Qed.

Lemma join_single (sep l : text) : join sep [l] = l.
Proof. done. Qed.

Lemma join_cons2 (sep l l' : text) (ls : list text) :
  join sep (l :: l' :: ls) = l ++ sep ++ join sep (l' :: ls).
Proof. done. Qed.

Lemma join_cons_head (sep : text) (c : N) (w : text) (ws : list text) :
  join sep ((c :: w) :: ws) = c :: join sep (w :: ws).
Proof. by destruct ws. Qed.

Lemma join_cons_ne (sep l : text) (ls : list text) :
  ls <> [] -> join sep (l :: ls) = l ++ sep ++ join sep ls.
Proof. by destruct ls. Qed.

Lemma rstripped_tail (c : N) (s : text) :
  rstrip (c :: s) = c :: s -> rstrip s = s.
Proof.
  rewrite rstrip_cons. destruct (rstrip s) as [|r rs] eqn:E.
  - destruct (isspace c); [done|]. by intros [= <-].
  - by intros [= <-].
Qed.

Lemma rstripped_lstrip (s : text) :
  rstrip s = s -> rstrip (lstrip s) = lstrip s.
Proof.
  induction s as [|c s IH]; [done|]. intros H. simpl lstrip.
  destruct (isspace c); [|done]. apply IH. by eapply rstripped_tail.
Qed.

Lemma lstrip_blank (s : text) :
  lstrip s = [] <-> forallb isspace s = true.
Proof.
  induction s as [|c s IH]; [done|]. simpl.
  destruct (isspace c); simpl; [done|]. split; done.
Qed.

Lemma strip_blank (s : text) :
  strip s = [] <-> forallb isspace s = true.
Proof.
  unfold strip. rewrite rstrip_blank. split.
  - intros H. apply lstrip_blank. destruct (lstrip_starts s) as [E|E]; [done|].
    destruct (lstrip s) as [|c r]; [done|]. simpl in *.
    apply andb_prop in H as [H _]. by rewrite H in E.
  - intros H. apply lstrip_blank in H. by rewrite H.
Qed.

(** On a text without whitespace at either end, collapsing the runs of
    whitespace joins the words by single spaces. *)
Lemma collapse_words (s : text) :
  rstrip s = s -> s = [] \/ starts_word s = true ->
  collapse s = join [SPACE] (words s).
Proof.
  remember (length s) as n eqn:Hn. revert s Hn.
  induction n as [n IH] using lt_wf_ind. intros s -> Hr Hs.
  destruct s as [|c s]; [done|]. destruct Hs as [|Hs]; [done|].
  simpl in Hs. apply negb_true_iff in Hs.
  rewrite collapse_nonspace, words_nonspace by done.
  pose proof (rstripped_tail _ _ Hr) as Hr'.
  destruct s as [|d s]; [done|]. simpl starts_word.
  destruct (isspace d) eqn:Hd; simpl negb.
  - rewrite collapse_space by done.
    pose proof (rstripped_lstrip _ Hr') as Hr''.
    rewrite (lstrip_space d s Hd) in Hr''.
    assert (starts_word (lstrip s) = true) as Hst.
    { destruct (lstrip_starts s) as [E|E]; [|done].
      apply lstrip_blank in E.
      assert (rstrip (d :: s) = []) as Hb.
      { apply rstrip_blank. simpl. by rewrite Hd, E. }
      by rewrite Hr' in Hb. }
    rewrite (IH (length (lstrip s))); [| |done|done|by right].
    2:{ pose proof (lstrip_length s). simpl. lia. }
    rewrite words_space, words_lstrip by done.
    rewrite join_cons_ne; [done|].
    rewrite <- words_lstrip. by apply words_starts_nonempty.
  - rewrite (IH (length (d :: s))); [|simpl; lia|done|done|].
    2:{ right. simpl. by rewrite Hd. }
    assert (words (d :: s) <> []) as Hne.
    { apply words_starts_nonempty. simpl. by rewrite Hd. }
    destruct (words (d :: s)) as [|w ws]; [done|].
    by rewrite join_cons_head.
Qed.

(** [normalize_whitespace] joins the words of its argument by single
    spaces. *)
Lemma normalize_whitespace_words (t : text) :
  normalize_whitespace t = join [SPACE] (words t).
Proof.
  unfold normalize_whitespace. fold (collapse (strip t)).
  rewrite collapse_words.
  - by rewrite words_strip.
  - apply rstrip_idem.
  - unfold strip. destruct (lstrip_starts t) as [E|E].
    + left. by rewrite E.
    + right. by rewrite (proj2 (words_rstrip _)).
Qed.

Lemma words_word (w : text) : is_a_word w -> words w = [w].
Proof.
  intros [Hne Hw]. induction w as [|c w IH]; [done|].
  simpl in Hw. apply andb_prop in Hw as [Hc%negb_true_iff Hw].
  rewrite words_nonspace by done. destruct w as [|d w]; [done|].
  rewrite IH by done. simpl in Hw. apply andb_prop in Hw as [Hd _].
  simpl. by rewrite Hd.
Qed.

Lemma words_are_words (s : text) : Forall is_a_word (words s).
Proof.
  induction s as [|c s IH]; [constructor|].
  destruct (isspace c) eqn:Hc.
  - by rewrite words_space.
  - rewrite words_nonspace by done.
    assert (is_a_word [c]) as Hw1.
    { split; [done|]. simpl. by rewrite Hc. }
    destruct (starts_word s).
    + destruct (words s) as [|w ws]; [by constructor|].
      inversion IH as [|? ? [Hne Hw] Hws]; subst.
      constructor; [|done]. split; [done|]. simpl. by rewrite Hc.
    + by constructor.
Qed.

Lemma words_join (ws : list text) :
  Forall is_a_word ws -> words (join [SPACE] ws) = ws.
Proof.
  induction 1 as [|w ws Hw Hws IH]; [done|].
  destruct ws as [|w' ws].
  - by apply words_word.
  - rewrite join_cons2.
    change ([SPACE] ++ join [SPACE] (w' :: ws))
      with (SPACE :: join [SPACE] (w' :: ws)).
    rewrite words_app_space by done. by rewrite IH, words_word.
Qed.

(** Two texts have the same normalized form exactly when they have the
    same words. *)
Lemma normalize_whitespace_eq_words (a b : text) :
  normalize_whitespace a = normalize_whitespace b <-> words a = words b.
Proof.
  rewrite !normalize_whitespace_words. split; [|by intros ->].
  intros H. apply (f_equal words) in H.
  by rewrite !words_join in H by apply words_are_words.
Qed.

(** ** C7 *)

(** C7: content normalization is idempotent: for every text [s],
    [normalize_whitespace (normalize_whitespace s)] is
    [normalize_whitespace s], the words of [s] joined by single spaces
    (leading and trailing whitespace trimmed, every run of whitespace,
    newlines included, collapsed to one space). *)
Theorem normalize_whitespace_idempotent (s : text) :
  normalize_whitespace (normalize_whitespace s) = normalize_whitespace s
  /\ normalize_whitespace s = join [SPACE] (words s).
Proof.
  split; [|apply normalize_whitespace_words].
  apply normalize_whitespace_eq_words.
  rewrite normalize_whitespace_words. apply words_join, words_are_words.
Qed.

(** * Lines: [splitlines], [join] and [reindent] *)

Lemma splitlines_break (c : N) (s : text) :
  is_linebreak c = true ->
  splitlines (c :: s) = [] :: splitlines (after_break c s).
Proof.
  intros Hc. simpl. rewrite Hc. unfold after_break.
  destruct (c =? CR)%N; [|done]. destruct s as [|d s]; [done|].
  by destruct (d =? LF)%N.
Qed.

Lemma splitlines_char (c : N) (s : text) :
  is_linebreak c = false ->
  splitlines (c :: s) =
  match splitlines s with
  | [] => [[c]]
  | l :: ls => (c :: l) :: ls
  end.
Proof. intros Hc. simpl. by rewrite Hc. Qed.

Lemma after_break_length (c : N) (s : text) :
  (length (after_break c s) <= length s)%nat.
Proof.
  unfold after_break. destruct (c =? CR)%N; [|lia].
  destruct s as [|d s]; [simpl; lia|]. destruct (d =? LF)%N; simpl; lia.
Qed.

(** Induction along the lines of a text. *)
Lemma splitlines_ind (P : text -> Prop) :
  P [] ->
  (forall c s, is_linebreak c = true -> P (after_break c s) -> P (c :: s)) ->
  (forall c s, is_linebreak c = false -> P s -> P (c :: s)) ->
  forall s, P s.
Proof.
  intros Hnil Hbr Hch s.
  remember (length s) as n eqn:Hn. revert s Hn.
  induction n as [n IH] using lt_wf_ind. intros s ->.
  destruct s as [|c s]; [done|]. destruct (is_linebreak c) eqn:Hc.
  - apply Hbr; [done|]. eapply IH; [|done].
    pose proof (after_break_length c s). simpl. lia.
  - apply Hch; [done|]. eapply IH; [|done]. simpl. lia.
Qed.

Lemma splitlines_nil (s : text) : splitlines s = [] <-> s = [].
Proof.
  split; [|by intros ->]. destruct s as [|c s]; [done|].
  destruct (is_linebreak c) eqn:Hc.
  - by rewrite splitlines_break.
  - rewrite splitlines_char by done. by destruct (splitlines s).
Qed.

Lemma splitlines_no_break (s : text) :
  Forall (fun l => forallb (fun c => negb (is_linebreak c)) l = true)
         (splitlines s).
Proof.
  induction s as [| c s Hc IH | c s Hc IH] using splitlines_ind.
  - constructor.
  - rewrite splitlines_break by done. by constructor.
  - rewrite splitlines_char by done.
    destruct (splitlines s) as [|l ls].
    + constructor; [|done]. simpl. by rewrite Hc.
    + inversion IH; subst. constructor; [|done]. simpl. by rewrite Hc.
Qed.

Lemma words_after_break (c : N) (s : text) :
  is_linebreak c = true -> words (c :: s) = words (after_break c s).
Proof.
  intros Hc. rewrite words_space by by apply linebreak_isspace.
  unfold after_break. destruct (c =? CR)%N; [|done].
  destruct s as [|d s]; [done|]. destruct (N.eqb_spec d LF) as [->|]; [|done].
  by rewrite words_space.
Qed.

Lemma splitlines_first_starts (s l : text) (ls : list text) :
  splitlines s = l :: ls -> starts_word l = starts_word s.
Proof.
  destruct s as [|c s]; [done|]. destruct (is_linebreak c) eqn:Hc.
  - rewrite splitlines_break by done. intros [= <- _]. simpl.
    by rewrite (linebreak_isspace c Hc).
  - rewrite splitlines_char by done.
    destruct (splitlines s); by intros [= <- _].
Qed.

(** The words of a text are the words of its lines. *)
Lemma words_splitlines (s : text) :
  words s = concat (map words (splitlines s)).
Proof.
  induction s as [| c s Hc IH | c s Hc IH] using splitlines_ind.
  - done.
  - rewrite splitlines_break, words_after_break by done. by rewrite IH.
  - rewrite splitlines_char by done.
    destruct (isspace c) eqn:Hs.
    + rewrite words_space by done. rewrite IH.
      destruct (splitlines s) as [|l ls];
        cbn [map concat]; by rewrite words_space.
    + rewrite words_nonspace by done.
      destruct (splitlines s) as [|l ls] eqn:E.
      * apply splitlines_nil in E. subst. simpl. by rewrite Hs.
      * rewrite <- (splitlines_first_starts _ _ _ E), IH.
        cbn [map concat]. rewrite (words_nonspace c l) by done.
        destruct (starts_word l) eqn:Hl; [|done].
        pose proof (words_starts_nonempty l Hl).
        by destruct (words l).
Qed.

Lemma words_join_lines (ls : list text) :
  words (join [LF] ls) = concat (map words ls).
Proof.
  induction ls as [|l ls IH]; [done|]. destruct ls as [|l' ls].
  - simpl. by rewrite app_nil_r.
  - rewrite join_cons2. change ([LF] ++ ?x) with (LF :: x).
    rewrite words_app_space by done. by rewrite IH.
Qed.

Lemma words_reindent_line (ind line : text) :
  forallb isspace ind = true -> words (reindent_line ind line) = words line.
Proof.
  intros Hi. unfold reindent_line. destruct (strip line) eqn:E.
  - apply strip_blank in E. by rewrite (words_blank line).
  - by apply words_blank_app.
Qed.

Lemma reindent_eq (t ind : text) :
  reindent t ind = join [LF] (map (reindent_line ind) (splitlines t)).
Proof. done. Qed.

(** Re-indenting with a blank indent keeps the words of a text. *)
Lemma words_reindent (t ind : text) :
  forallb isspace ind = true -> words (reindent t ind) = words t.
Proof.
  intros Hi. rewrite reindent_eq, words_join_lines, (words_splitlines t).
  f_equal. rewrite map_map. apply map_ext. intros l.
  by apply words_reindent_line.
Qed.

Lemma replace_crlf_cons (c : N) (s : text) :
  replace_crlf (c :: s) =
  match s with
  | d :: s'' =>
      if (c =? CR)%N && (d =? LF)%N then LF :: replace_crlf s''
      else c :: replace_crlf s
  | [] => [c]
  end.
Proof. by destruct s. Qed.

Lemma words_replace_crlf (s : text) :
  words (replace_crlf s) = words s
  /\ starts_word (replace_crlf s) = starts_word s.
Proof.
  remember (length s) as n eqn:Hn. revert s Hn.
  induction n as [n IH] using lt_wf_ind. intros s ->.
  destruct s as [|c s]; [done|]. rewrite replace_crlf_cons.
  destruct s as [|d s]; [done|].
  destruct (N.eqb_spec c CR) as [->|Hc];
    [destruct (N.eqb_spec d LF) as [->|Hd]|]; simpl andb.
  - rewrite !words_space by done.
    destruct (IH (length s)) with (s := s) as [Hw _]; [simpl; lia|done|].
    by rewrite Hw.
  - destruct (IH (length (d :: s))) with (s := d :: s) as [Hw Hs];
      [simpl; lia|done|].
    split; [|done]. by apply words_cons_congr.
  - destruct (IH (length (d :: s))) with (s := d :: s) as [Hw Hs];
      [simpl; lia|done|].
    split; [|done]. by apply words_cons_congr.
Qed.

Lemma words_replace_cr (s : text) :
  words (replace_cr s) = words s
  /\ starts_word (replace_cr s) = starts_word s.
Proof.
  induction s as [|c s [IHw IHs]]; [done|]. unfold replace_cr in *.
  rewrite map_cons. destruct (N.eqb_spec c CR) as [->|Hc].
  - rewrite !words_space by done. done.
  - split; [|done]. by apply words_cons_congr.
Qed.

(** The overall formatting step keeps the words of a text. *)
Lemma words_normalize_overall (t : text) :
  words (normalize_overall t) = words t.
Proof.
  unfold normalize_overall. rewrite words_reindent by done.
  rewrite (proj1 (words_replace_cr _)). apply words_replace_crlf.
Qed.

Lemma split_on_cons_ne (sep c : N) (s : text) :
  c <> sep ->
  split_on sep (c :: s) =
  match split_on sep s with
  | l :: ls => (c :: l) :: ls
  | [] => [[c]]
  end.
Proof. intros H. simpl. by destruct (N.eqb_spec c sep). Qed.

Lemma split_on_line (sep : N) (l s : text) :
  sep ∉ l ->
  split_on sep (l ++ sep :: s) = l :: split_on sep s.
Proof.
  induction l as [|c l IH]; intros Hl.
  - simpl. by rewrite N.eqb_refl.
  - rewrite <- app_comm_cons, split_on_cons_ne, IH; [done| |];
      set_solver.
Qed.

Lemma split_on_last (sep : N) (l : text) :
  sep ∉ l -> split_on sep l = [l].
Proof.
  induction l as [|c l IH]; intros Hl; [done|].
  rewrite split_on_cons_ne, IH; [done| |]; set_solver.
Qed.

Lemma split_on_join (sep : N) (ls : list text) :
  ls <> [] -> Forall (fun l => sep ∉ l) ls ->
  split_on sep (join [sep] ls) = ls.
Proof.
  intros Hne Hall. induction Hall as [|l ls Hl Hls IH]; [done|].
  destruct ls as [|l' ls].
  - by apply split_on_last.
  - rewrite join_cons2. change ([sep] ++ ?x) with (sep :: x).
    rewrite split_on_line by done. by rewrite IH.
Qed.

Lemma reindent_line_no_break (ind l : text) :
  forallb (fun c => negb (is_linebreak c)) ind = true ->
  forallb (fun c => negb (is_linebreak c)) l = true ->
  forallb (fun c => negb (is_linebreak c)) (reindent_line ind l) = true.
Proof.
  intros Hi Hl. unfold reindent_line. destruct (strip l); [done|].
  by rewrite forallb_app, Hi, Hl.
Qed.

Lemma reindent_lines_no_break (t ind : text) :
  forallb (fun c => negb (is_linebreak c)) ind = true ->
  Forall (fun l => forallb (fun c => negb (is_linebreak c)) l = true)
         (map (reindent_line ind) (splitlines t)).
Proof.
  intros Hi. apply Forall_map. eapply Forall_impl; [apply splitlines_no_break|].
  intros l Hl. by apply reindent_line_no_break.
Qed.

Lemma no_break_not_elem (l : text) (c : N) :
  is_linebreak c = true ->
  forallb (fun c => negb (is_linebreak c)) l = true -> c ∉ l.
Proof.
  intros Hc Hl Hin. rewrite forallb_forall in Hl.
  apply list_elem_of_In, Hl in Hin. by rewrite Hc in Hin.
Qed.

Lemma elem_of_join (sep : text) (ls : list text) (c : N) :
  c ∈ join sep ls -> c ∈ sep \/ exists l, l ∈ ls /\ c ∈ l.
Proof.
  induction ls as [|l ls IH]; [by intros ?%elem_of_nil|].
  destruct ls as [|l' ls].
  - simpl. intros H. right. exists l. split; [left|done].
  - rewrite join_cons2, !elem_of_app. intros [H|[H|H]].
    + right. exists l. split; [left|done].
    + by left.
    + destruct (IH H) as [?|(x & Hx & Hc)]; [by left|].
      right. exists x. split; [by right|done].
Qed.

(** * The substitution over the scanned pieces *)

Lemma replacer_fst (os : platform) (src : gmap text text) (used : gset text)
    (m : item_match) :
  fst (replacer os src used m) = piece_out os src (Re.Hit m).
Proof.
  unfold replacer, piece_out, replacement, new_block.
  destruct (search_identifier (attrs m)) as [ident|]; [|done].
  destruct (src !! ident) as [c|]; [|done].
  by destruct (bool_decide _).
Qed.

Lemma replacer_snd (os : platform) (src : gmap text text) (used : gset text)
    (m : item_match) :
  snd (replacer os src used m) =
  match used_ident src m with
  | Some ident => {[ident]} ∪ used
  | None => used
  end.
Proof.
  unfold replacer, used_ident.
  destruct (search_identifier (attrs m)) as [ident|]; [|done].
  destruct (src !! ident) as [c|]; [|done].
  by destruct (bool_decide _).
Qed.

Lemma sub_items_fst (os : platform) (src : gmap text text) (used : gset text)
    (ps : list (Re.piece item_match)) :
  fst (sub_items os src used ps) = flat_map (piece_out os src) ps.
Proof.
  revert used; induction ps as [|[c|m] ps IH]; intros used; [done| |].
  - simpl. specialize (IH used). destruct (sub_items os src used ps).
    simpl in *. by rewrite IH.
  - cbn [sub_items flat_map]. rewrite <- replacer_fst with (used := used).
    destruct (replacer os src used m) as [r used'].
    specialize (IH used'). destruct (sub_items os src used' ps).
    simpl in *. by rewrite IH.
Qed.

Lemma sub_items_snd (os : platform) (src : gmap text text) (used : gset text)
    (ps : list (Re.piece item_match)) :
  snd (sub_items os src used ps) =
  used ∪ list_to_set (omap (used_ident src) (hits ps)).
Proof.
  revert used; induction ps as [|[c|m] ps IH]; intros used.
  - simpl. set_solver.
  - simpl. specialize (IH used). destruct (sub_items os src used ps).
    simpl in *. by rewrite IH.
  - cbn [sub_items]. pose proof (replacer_snd os src used m) as Hr.
    destruct (replacer os src used m) as [r used'].
    specialize (IH used'). destruct (sub_items os src used' ps).
    simpl in *. rewrite IH, Hr. unfold hits. simpl.
    destruct (used_ident src m); simpl; set_solver.
Qed.

Lemma update_tar_file_modified (os : platform) (original : text)
    (src : gmap text text) (used : gset text) :
  tar_modified (update_tar_file os (Some original) src used) =
  normalize_overall
    (flat_map (piece_out os src) (Re.scan match_item_block original)).
Proof.
  unfold update_tar_file, tar_modified.
  rewrite <- (sub_items_fst os src used).
  by destruct (sub_items os src used _).
Qed.

Lemma update_tar_file_original (os : platform) (original : text)
    (src : gmap text text) (used : gset text) :
  tar_original (update_tar_file os (Some original) src used) = original.
Proof.
  unfold update_tar_file, tar_original.
  by destruct (sub_items os src used _).
Qed.

Lemma update_tar_file_changed (os : platform) (original : text)
    (src : gmap text text) (used : gset text) :
  let r := update_tar_file os (Some original) src used in
  tar_changed r =
  negb (bool_decide (normalize_whitespace original
                     = normalize_whitespace (tar_modified r))).
Proof.
  unfold update_tar_file, tar_changed, tar_modified.
  by destruct (sub_items os src used _).
Qed.

Lemma update_tar_file_used (os : platform) (original : text)
    (src : gmap text text) (used : gset text) :
  tar_used (update_tar_file os (Some original) src used) =
  used ∪ list_to_set
           (omap (used_ident src)
                 (hits (Re.scan match_item_block original))).
Proof.
  unfold update_tar_file, tar_used.
  rewrite <- (sub_items_snd os src used).
  by destruct (sub_items os src used _).
Qed.

(** Without a replaced block the substitution gives the document back. *)
Lemma flat_map_piece_out_same (os : platform) (src : gmap text text)
    (s : text) (bol : bool) :
  Forall (fun m => replacement src m = None)
         (hits (scan_at match_item_block bol s)) ->
  flat_map (piece_out os src) (scan_at match_item_block bol s) = s.
Proof.
  intros H. rewrite <- (scan_item_text bol s) at 2.
  induction (scan_at match_item_block bol s) as [|[c|m] ps IH]; [done| |].
  - simpl. f_equal. by apply IH.
  - unfold hits in H. simpl in H. inversion H as [|? ? Hm Hps]; subst.
    simpl. rewrite Hm. f_equal. by apply IH.
Qed.

Lemma replacement_empty (m : item_match) : replacement ∅ m = None.
Proof.
  unfold replacement. destruct (search_identifier (attrs m)); [|done].
  by rewrite lookup_empty.
Qed.

(** * The missing-identifiers report *)

Lemma text_leb_refl (a : text) : text_leb a a = true.
Proof.
  induction a as [|x a IH]; [done|]. simpl.
  by rewrite N.eqb_refl, IH, orb_true_r.
Qed.

Lemma text_leb_total (a b : text) : text_leb a b = true \/ text_leb b a = true.
Proof.
  revert b; induction a as [|x a IH]; intros [|y b]; simpl; auto.
  destruct (N.ltb_spec x y); simpl; [auto|].
  destruct (N.ltb_spec y x); simpl; [auto|].
  assert (x = y) as -> by lia. rewrite N.eqb_refl. simpl. apply IH.
Qed.

Lemma text_leb_trans (a b c : text) :
  text_leb a b = true -> text_leb b c = true -> text_leb a c = true.
Proof.
  revert b c; induction a as [|x a IH]; intros [|y b] [|z c]; simpl; try done.
  rewrite !orb_true_iff, !andb_true_iff, !N.ltb_lt, !N.eqb_eq.
  intros [H1|[-> H1]] [H2|[-> H2]]; [left; lia|by left|by left|].
  right. split; [done|]. by eapply IH.
Qed.

Lemma text_leb_antisym (a b : text) :
  text_leb a b = true -> text_leb b a = true -> a = b.
Proof.
  revert b; induction a as [|x a IH]; intros [|y b]; simpl; try done.
  rewrite !orb_true_iff, !andb_true_iff, !N.ltb_lt, !N.eqb_eq.
  intros [H1|[-> H1]] [H2|[H H2]]; try lia. f_equal. by apply IH.
Qed.

#[local] Instance text_le_total : Total text_le.
Proof. intros a b. apply text_leb_total. Qed.

#[local] Instance text_le_trans : Transitive text_le.
Proof. intros a b c. apply text_leb_trans. Qed.

Lemma used_ident_Some (src : gmap text text) (m : item_match) (ident : text) :
  used_ident src m = Some ident <->
  search_identifier (attrs m) = Some ident /\ ident ∈ dom src.
Proof.
  unfold used_ident. rewrite elem_of_dom.
  destruct (search_identifier (attrs m)) as [i|]; [|by split; [|intros []]].
  destruct (src !! i) as [c|] eqn:E.
  - split; [intros [= <-]; by rewrite E|by intros [? _]].
  - split; [done|]. intros [[= ->] [? H]]. congruence.
Qed.

Lemma process_targets_used_from (os : platform) (src : gmap text text)
    (tar_dir : directory)
    (st : list (text * (text * text * bool)) * gset text) :
  snd (foldl (fun st file =>
                if endswith (fst file) (lit ".xml") then
                  let (res, used_ids') :=
                    update_tar_file os (snd file) src (snd st) in
                  (fst st ++ [(fst file, res)], used_ids')
                else st)
             st tar_dir)
  = snd st ∪ list_to_set (flat_map (file_used src) tar_dir).
Proof.
  revert st; induction tar_dir as [|[fname content] tar_dir IH]; intros st.
  - simpl. set_solver.
  - cbn [foldl flat_map]. rewrite IH. unfold file_used at 2. cbn [fst snd].
    destruct (endswith fname (lit ".xml")); [|set_solver].
    destruct content as [content|].
    + pose proof (update_tar_file_used os content src (snd st)) as Hu.
      unfold tar_used in Hu.
      destruct (update_tar_file os (Some content) src (snd st)) as [res u].
      cbn [snd] in *. rewrite Hu, list_to_set_app_L. set_solver.
    + simpl. set_solver.
Qed.

Lemma process_targets_used (os : platform) (src : gmap text text)
    (tar_dir : directory) :
  snd (process_targets os src tar_dir)
  = list_to_set (flat_map (file_used src) tar_dir).
Proof.
  unfold process_targets. rewrite process_targets_used_from. set_solver.
Qed.

Lemma elem_of_dir_used (src : gmap text text) (tar_dir : directory)
    (ident : text) :
  ident ∈ flat_map (file_used src) tar_dir <->
  ident ∈ dom src /\ encountered tar_dir ident.
Proof.
  rewrite list_elem_of_In, in_flat_map. split.
  - intros ([fname content] & Hf%list_elem_of_In & Hi%list_elem_of_In).
    unfold file_used in Hi. cbn [fst snd] in Hi.
    destruct (endswith fname (lit ".xml")) eqn:Hx; [|by apply elem_of_nil in Hi].
    destruct content as [content|]; [|by apply elem_of_nil in Hi].
    apply list_elem_of_omap in Hi as (m & Hm & Hu).
    apply used_ident_Some in Hu as [Hs Hd]. split; [done|].
    by exists fname, content, m.
  - intros [Hd (fname & content & m & Hf & Hx & Hm & Hs)].
    exists (fname, Some content). split; [by apply list_elem_of_In|].
    apply list_elem_of_In. unfold file_used. cbn [fst snd]. rewrite Hx.
    apply list_elem_of_omap. exists m. split; [done|].
    by apply used_ident_Some.
Qed.

Lemma missing_ids_spec (src : gmap text text) (used : gset text) :
  (forall ident,
      ident ∈ missing_ids src used <-> ident ∈ dom src /\ ident ∉ used)
  /\ NoDup (missing_ids src used)
  /\ StronglySorted text_lt (missing_ids src used).
Proof.
  unfold missing_ids.
  pose proof (merge_sort_Permutation text_le (elements (dom src ∖ used)))
    as Hp.
  assert (NoDup (merge_sort text_le (elements (dom src ∖ used)))) as Hnd.
  { rewrite Hp. apply NoDup_elements. }
  split; [|split; [done|]].
  - intros ident. rewrite Hp, elem_of_elements. set_solver.
  - pose proof (StronglySorted_merge_sort text_le
                  (elements (dom src ∖ used))) as Hs.
    revert Hnd Hs. generalize (merge_sort text_le (elements (dom src ∖ used))).
    induction l as [|x l IH]; [constructor|].
    intros [Hx Hl]%NoDup_cons Hs. inversion Hs as [|? ? Hs' Hall]; subst.
    constructor; [by apply IH|].
    rewrite Forall_forall in Hall |- *. intros y Hy. split; [by apply Hall|].
    intros ->. done.
Qed.

(** ** C5 *)

(** C5: an identifier is in the missing-identifiers report exactly when it
    is in the catalog and no target block carrying it was met in any
    target file of the run (whether or not the block's content was in
    sync); the report holds each such identifier once, in sorted order,
    one per line. *)
Theorem missing_report_complete (os : platform) (src_dir tar_dir : directory) :
  let missing := snd (main_pass os src_dir tar_dir) in
  (forall ident,
      ident ∈ missing <->
      ident ∈ dom (extract_items_from_src src_dir)
      /\ ~ encountered tar_dir ident)
  /\ NoDup missing
  /\ StronglySorted text_lt missing
  /\ missing_report missing
     = (if decide (missing = []) then None
        else Some (concat (map (fun ident => ident ++ [LF]) missing))).
Proof.
  cbv zeta. unfold main_pass.
  pose proof (process_targets_used os (extract_items_from_src src_dir)
                tar_dir) as Hu.
  destruct (process_targets os (extract_items_from_src src_dir) tar_dir)
    as [results used]. cbn [snd] in *.
  destruct (missing_ids_spec (extract_items_from_src src_dir) used)
    as (Hin & Hnd & Hs).
  split; [|split; [done|split; [done|]]].
  - intros ident. rewrite Hin, Hu, elem_of_list_to_set, elem_of_dir_used.
    tauto.
  - by destruct (missing_ids _ _).
Qed.

(** * The identifier pattern and the catalog *)

Lemma match_identifier_here (v post : text) :
  v <> [] -> forallb not_dquote v = true ->
  match_identifier (lit "identifier=\q" ++ v ++ DQUOTE :: post) = Some v.
Proof.
  intros Hne Hv. unfold match_identifier. rewrite strip_prefix_app.
  rewrite span_all_app by done. rewrite span_stop by done.
  cbn [fst snd]. rewrite app_nil_r. by destruct v.
Qed.

(** The literal of the pattern cannot begin inside a text and run over
    into a following copy of itself. *)
Lemma identifier_literal_overlap (p rest r : text) :
  p <> [] ->
  strip_prefix (lit "identifier=\q") (p ++ lit "identifier=\q" ++ rest)
    = Some r ->
  exists r', strip_prefix (lit "identifier=\q") p = Some r'.
Proof.
  intros Hne H.
  change (lit "identifier=\q")
    with [105; 100; 101; 110; 116; 105; 102; 105; 101; 114; 61; 34]%N in *.
  destruct p as [|c p]; [done|]. clear Hne.
  rewrite <- app_comm_cons in H. rewrite strip_prefix_cons in H |- *.
  destruct (N.eqb_spec 105 c); [subst|discriminate H].
  do 11 (destruct p as [|c p]; [vm_compute in H; discriminate H|];
         rewrite <- app_comm_cons in H; rewrite strip_prefix_cons in H |- *;
         match goal with
         | |- context [(?a =? c)%N] =>
             destruct (N.eqb_spec a c); [subst|discriminate H]
         end).
  by eexists.
Qed.

Lemma find_sub_None_cons (pat : text) (c : N) (s : text) :
  find_sub pat (c :: s) = None ->
  strip_prefix pat (c :: s) = None /\ find_sub pat s = None.
Proof.
  cbn [find_sub]. destruct (strip_prefix pat (c :: s)); [done|].
  by destruct (find_sub pat s) as [[? ?]|].
Qed.

Lemma find_sub_None_suffix (pat a b : text) :
  find_sub pat (a ++ b) = None -> find_sub pat b = None.
Proof.
  induction a as [|c a IH]; [done|].
  rewrite <- app_comm_cons. intros [_ Ha]%find_sub_None_cons. by apply IH.
Qed.

(** The search takes the first quoted [identifier=] value wherever it
    begins, whatever comes right before it. *)
Lemma search_identifier_first (pre v post : text) :
  find_sub (lit "identifier=\q") pre = None ->
  v <> [] -> forallb not_dquote v = true ->
  search_identifier (pre ++ lit "identifier=\q" ++ v ++ DQUOTE :: post)
    = Some v.
Proof.
  intros Hpre Hne Hv. induction pre as [|c pre IH].
  - cbn [app]. destruct (lit "identifier=\q" ++ v ++ DQUOTE :: post) eqn:E;
      cbn [search_identifier]; rewrite <- ?E;
      by rewrite match_identifier_here.
  - apply find_sub_None_cons in Hpre as [Hc Hpre].
    rewrite <- app_comm_cons. cbn [search_identifier].
    rewrite app_comm_cons.
    assert (match_identifier
              ((c :: pre) ++ lit "identifier=\q" ++ v ++ DQUOTE :: post)
            = None) as ->.
    { unfold match_identifier.
      destruct (strip_prefix (lit "identifier=\q") ((c :: pre) ++ _))
        as [r|] eqn:E; [exfalso|done].
      apply identifier_literal_overlap in E as [r' E]; [|done].
      congruence. }
    by apply IH.
Qed.

Lemma add_items_from (items : gmap text text) (ms : list item_match)
    (ident : text) :
  foldl (fun items m =>
           match search_identifier (attrs m) with
           | Some ident =>
               <[ident := strip (remove_components (inner m))]> items
           | None => items
           end) items ms !! ident
  = match last (filter (fun m => search_identifier (attrs m) = Some ident) ms)
    with
    | Some m => Some (strip (remove_components (inner m)))
    | None => items !! ident
    end.
Proof.
  revert items; induction ms as [|m ms IH] using rev_ind; intros items;
    [done|].
  rewrite foldl_app, filter_app. cbn [foldl].
  destruct (search_identifier (attrs m)) as [i|] eqn:E.
  - destruct (decide (i = ident)) as [->|Hne].
    + rewrite lookup_insert_eq.
      rewrite filter_cons_True, filter_nil by done. by rewrite last_snoc.
    + rewrite lookup_insert_ne by done.
      rewrite filter_cons_False, filter_nil, app_nil_r by congruence.
      apply IH.
  - rewrite filter_cons_False, filter_nil, app_nil_r by congruence.
    apply IH.
Qed.

Lemma add_items_lookup (items : gmap text text) (content ident : text) :
  add_items items content !! ident
  = match last (filter (fun m => search_identifier (attrs m) = Some ident)
                       (Re.finditer match_item_block content))
    with
    | Some m => Some (strip (remove_components (inner m)))
    | None => items !! ident
    end.
Proof. apply add_items_from. Qed.

Lemma last_filter_Some {A : Type} (P : A -> Prop) `{!forall x, Decision (P x)}
    (l : list A) (x : A) :
  last (filter P l) = Some x -> x ∈ l /\ P x.
Proof.
  intros Hl. apply last_Some in Hl as [l' Hl].
  assert (x ∈ filter P l) as Hx by (rewrite Hl; set_solver).
  by apply list_elem_of_filter in Hx as [? ?].
Qed.

Lemma last_filter_None {A : Type} (P : A -> Prop) `{!forall x, Decision (P x)}
    (l : list A) (x : A) :
  last (filter P l) = None -> x ∈ l -> ~ P x.
Proof.
  intros Hl Hx HP. apply last_None in Hl.
  assert (x ∈ filter P l) as Hf by by apply list_elem_of_filter.
  rewrite Hl in Hf. by apply elem_of_nil in Hf.
Qed.

(** Every catalog entry is the cleaned inner content of a source block
    with that identifier, and every identified source block has an
    entry. *)
Lemma extract_items_from_src_spec (src_dir : directory) :
  (forall ident cleaned,
      extract_items_from_src src_dir !! ident = Some cleaned ->
      source_block src_dir ident cleaned)
  /\ (forall ident cleaned,
        source_block src_dir ident cleaned ->
        ident ∈ dom (extract_items_from_src src_dir)).
Proof.
  unfold extract_items_from_src.
  assert (forall items : gmap text text,
    let r := foldl (fun items file =>
               if endswith (fst file) (lit ".xml") then
                 match snd file with
                 | Some content => add_items items content
                 | None => items
                 end
               else items) items src_dir in
    (forall ident cleaned, r !! ident = Some cleaned ->
        items !! ident = Some cleaned \/ source_block src_dir ident cleaned)
    /\ (forall ident cleaned,
          is_Some (items !! ident) \/ source_block src_dir ident cleaned ->
          is_Some (r !! ident))) as H.
  { induction src_dir as [|[fname content] src_dir IH]; intros items.
    - cbv zeta. cbn [foldl]. split; [by left|].
      intros ident cleaned [H|(f & c & m & Hf & _)]; [done|].
      by apply elem_of_nil in Hf.
    - cbv zeta. cbn [foldl fst snd].
      set (items' := if endswith fname (lit ".xml") then _ else items).
      destruct (IH items') as [IH1 IH2]. cbv zeta in IH1, IH2.
      assert (forall ident cleaned, items' !! ident = Some cleaned ->
                items !! ident = Some cleaned
                \/ source_block ((fname, content) :: src_dir) ident cleaned)
        as Hi1.
      { intros ident cleaned. subst items'.
        destruct (endswith fname (lit ".xml")) eqn:Hx; [|by left].
        destruct content as [content|]; [|by left].
        rewrite add_items_lookup.
        destruct (last _) as [m|] eqn:El; [|by left].
        apply last_filter_Some in El as [Hm Hs]. intros [= <-]. right.
        exists fname, content, m. split; [left|done]. }
      assert (forall ident : text,
                is_Some (items !! ident)
                \/ (exists m, endswith fname (lit ".xml") = true
                      /\ content <> None
                      /\ m ∈ Re.finditer match_item_block
                                (default [] content)
                      /\ search_identifier (attrs m) = Some ident) ->
                is_Some (items' !! ident)) as Hi2.
      { intros ident. subst items'.
        intros [Hi|(m & Hx & Hc & Hm & Hs)].
        - destruct (endswith fname (lit ".xml")); [|done].
          destruct content as [content|]; [|done].
          rewrite add_items_lookup. by destruct (last _).
        - rewrite Hx. destruct content as [content|]; [|done].
          rewrite add_items_lookup.
          destruct (last _) as [m'|] eqn:El; [done|].
          by eapply last_filter_None in El. }
      split.
      + intros ident cleaned Hr. apply IH1 in Hr as [Hr|Hr].
        * by apply Hi1.
        * right. destruct Hr as (f & c & m & Hf & Hrest).
          exists f, c, m. split; [by right|done].
      + intros ident cleaned [Hi|(f & c & m & Hf & Hx & Hm & Hs & Hc)].
        * apply (IH2 ident cleaned). left. apply (Hi2 ident).
          by left.
        * apply elem_of_cons in Hf as [[= -> <-]|Hf].
          -- apply (IH2 ident cleaned). left. apply (Hi2 ident).
             right. by exists m.
          -- apply (IH2 ident cleaned). right. by exists f, c, m. }
  specialize (H ∅). cbv zeta in H. destruct H as [H1 H2]. split.
  - intros ident cleaned Hr. apply H1 in Hr as [Hr|Hr]; [|done].
    by rewrite lookup_empty in Hr.
  - intros ident cleaned Hs. apply elem_of_dom. apply (H2 ident cleaned).
    by right.
Qed.

(** ** C9 *)

(** C9: the identifier search takes the first quoted [identifier=] value
    of the attribute text with no check of what stands before it: when
    the text [name] before it holds no earlier [identifier=] followed by
    a quote (it may end in letters, as in [nameidentifier=]), the value
    [v] is the block's identifier; a source block with such attributes puts [v] in the
    catalog, and a target block with such attributes is a merge candidate
    under [v] and records [v] as used when the catalog has it. *)
Theorem identifier_no_word_boundary (name v post : text) :
  find_sub (lit "identifier=\q") name = None ->
  v <> [] ->
  forallb not_dquote v = true ->
  let attrs_text := name ++ lit "identifier=\q" ++ v ++ DQUOTE :: post in
  search_identifier attrs_text = Some v
  /\ (forall (src_dir : directory) fname content m,
        (fname, Some content) ∈ src_dir ->
        endswith fname (lit ".xml") = true ->
        m ∈ Re.finditer match_item_block content ->
        attrs m = attrs_text ->
        v ∈ dom (extract_items_from_src src_dir))
  /\ (forall os original (src : gmap text text) (used : gset text) m c,
        m ∈ Re.finditer match_item_block original ->
        attrs m = attrs_text ->
        src !! v = Some c ->
        v ∈ tar_used (update_tar_file os (Some original) src used)
        /\ (normalize_whitespace (inner m) <> normalize_whitespace c ->
            replacement src m = Some c)).
Proof.
  intros Hname Hne Hv attrs_text.
  assert (search_identifier attrs_text = Some v) as Hs
    by by apply search_identifier_first.
  split; [done|]. split.
  - intros src_dir fname content m Hf Hx Hm Ha.
    apply (proj2 (extract_items_from_src_spec src_dir) v
             (strip (remove_components (inner m)))).
    exists fname, content, m. by rewrite Ha.
  - intros os original src used m c Hm Ha Hc. split.
    + rewrite update_tar_file_used. apply elem_of_union_r.
      apply elem_of_list_to_set, list_elem_of_omap. exists m.
      split; [done|]. apply used_ident_Some. rewrite Ha.
      split; [done|]. by apply elem_of_dom.
    + intros Hn. unfold replacement. rewrite Ha, Hs, Hc.
      by rewrite bool_decide_eq_false_2.
Qed.

Lemma identifier_no_word_boundary_witness :
  find_sub (lit "identifier=\q") (lit " name") = None
  /\ search_identifier (lit " nameidentifier=\qx\q foo=\qy\q")
     = Some (lit "x").
Proof.
  split; [reflexivity|].
  exact (proj1 (identifier_no_word_boundary (lit " name") (lit "x")
                  (lit " foo=\qy\q") eq_refl
                  (fun H => eq_ind [] (fun l => match l with
                                                | [] => True
                                                | _ :: _ => False
                                                end) I _ (eq_sym H))
                  eq_refl)).
Defined.

(** * Formatting changes keep the normalized form *)

Lemma span_eqb_repeat (c : N) (s : text) :
  fst (span (fun x => x =? c)%N s) = repeat c (length (fst (span (fun x => x =? c)%N s))).
Proof.
  induction s as [|x s IH]; [done|]. simpl.
  destruct (N.eqb_spec x c) as [->|]; [|done].
  destruct (span _ s); simpl in *. by f_equal.
Qed.

Lemma take_repeat_le (c : N) (n m : nat) :
  (n <= m)%nat -> take n (repeat c m) = repeat c n.
Proof.
  revert m; induction n as [|n IH]; intros [|m] H; simpl; try done; [lia|].
  f_equal. apply IH. lia.
Qed.

Lemma match_indent_groups_Some (bol : bool) (s : text) (k : nat)
    (rest : text) :
  Swapper.match_indent_groups bol s = Some (k, rest) ->
  bol = true /\ (0 < k)%nat /\ s = repeat SPACE (4 * k) ++ rest.
Proof.
  unfold Swapper.match_indent_groups. destruct bol; [|done].
  pose proof (span_app (fun c => c =? SPACE)%N s) as Hs.
  pose proof (span_eqb_repeat SPACE s) as Hr.
  destruct (span _ s) as [sp r]. cbn [fst snd] in *.
  destruct (length sp / 4)%nat as [|k'] eqn:Ek; [done|].
  intros [= <- <-]. split; [done|]. split; [lia|].
  assert (4 * S k' <= length sp)%nat as Hle.
  { rewrite <- Ek. apply Nat.Div0.mul_div_le. }
  rewrite <- (take_drop (4 * S k') s) at 1. f_equal.
  rewrite <- Hs, take_app_le by lia. rewrite Hr.
  apply take_repeat_le. lia.
Qed.

Lemma match_indent_groups_consumes (bol : bool) (s : text) (k : nat)
    (rest : text) :
  Swapper.match_indent_groups bol s = Some (k, rest) ->
  (length rest < length s)%nat.
Proof.
  intros (_ & Hk & ->)%match_indent_groups_Some.
  rewrite length_app, repeat_length. lia.
Qed.

Lemma words_repeat_space_app (c : N) (n : nat) (s : text) :
  isspace c = true -> words (repeat c n ++ s) = words s.
Proof.
  intros Hc. apply words_blank_app. induction n; [done|].
  simpl. by rewrite Hc.
Qed.

Lemma starts_word_repeat_space_app (c : N) (n : nat) (s : text) :
  isspace c = true -> (0 < n)%nat -> starts_word (repeat c n ++ s) = false.
Proof.
  intros Hc Hn. destruct n; [lia|]. simpl. by rewrite Hc.
Qed.

Lemma words_indent_groups (bol : bool) (s : text) :
  let out := flat_map (fun p => match p with
                                | Re.Lit c => [c]
                                | Re.Hit k => repeat TAB k
                                end)
                      (scan_at Swapper.match_indent_groups bol s) in
  words out = words s /\ starts_word out = starts_word s.
Proof.
  cbv zeta.
  apply (scan_at_ind Swapper.match_indent_groups match_indent_groups_consumes
    (fun _ s ps =>
       words (flat_map (fun p => match p with
                                 | Re.Lit c => [c]
                                 | Re.Hit k => repeat TAB k
                                 end) ps) = words s
       /\ starts_word (flat_map (fun p => match p with
                                          | Re.Lit c => [c]
                                          | Re.Hit k => repeat TAB k
                                          end) ps) = starts_word s)).
  - done.
  - intros _ c s' _ [IHw IHs]. cbn [flat_map app]. split; [|done].
    by apply words_cons_congr.
  - intros bol' s' k rest E bol'' [IHw IHs].
    apply match_indent_groups_Some in E as (_ & Hk & ->).
    cbn [flat_map]. rewrite !words_repeat_space_app by done.
    rewrite !starts_word_repeat_space_app by (done || lia). done.
Qed.

(** The formatting normalizer of the swapper keeps the words of a text. *)
Lemma words_normalize_formatting (t : text) :
  words (Swapper.normalize_formatting t) = words t.
Proof.
  unfold Swapper.normalize_formatting, Re.sub. rewrite scan_scan_at.
  rewrite (proj1 (words_indent_groups true _)).
  rewrite (proj1 (words_replace_cr _)). apply words_replace_crlf.
Qed.

Lemma normalize_whitespace_normalize_overall (t : text) :
  normalize_whitespace (normalize_overall t) = normalize_whitespace t.
Proof. apply normalize_whitespace_eq_words, words_normalize_overall. Qed.

Lemma normalize_whitespace_normalize_formatting (t : text) :
  normalize_whitespace (Swapper.normalize_formatting t)
  = normalize_whitespace t.
Proof. apply normalize_whitespace_eq_words, words_normalize_formatting. Qed.

(** A document none of whose blocks is replaced is flagged unchanged. *)
Lemma update_tar_file_unchanged (os : platform) (original : text)
    (src : gmap text text) (used : gset text) :
  Forall (fun m => replacement src m = None)
         (Re.finditer match_item_block original) ->
  tar_modified (update_tar_file os (Some original) src used)
    = normalize_overall original
  /\ tar_changed (update_tar_file os (Some original) src used) = false.
Proof.
  intros H.
  assert (tar_modified (update_tar_file os (Some original) src used)
          = normalize_overall original) as Hm.
  { rewrite update_tar_file_modified, scan_scan_at.
    by rewrite flat_map_piece_out_same. }
  split; [done|]. rewrite update_tar_file_changed, Hm.
  by rewrite normalize_whitespace_normalize_overall, bool_decide_eq_true_2.
Qed.

(** ** C6 *)

(** C6: a target document is flagged changed exactly when the
    whitespace-normalized form of its original text differs from that of
    its merged text; two texts that differ only in line-ending convention
    or in indentation unit (they agree once line endings are unified and
    leading groups of four spaces are turned into tabs) have the same
    whitespace-normalized form, and a document in which no block is
    replaced is judged unchanged. *)
Theorem changed_flag_formatting_insensitive (os : platform) (original : text)
    (src : gmap text text) (used : gset text) :
  let r := update_tar_file os (Some original) src used in
  (tar_changed r = true <->
   normalize_whitespace (tar_original r)
   <> normalize_whitespace (tar_modified r))
  /\ (forall a b : text,
        Swapper.normalize_formatting a = Swapper.normalize_formatting b ->
        normalize_whitespace a = normalize_whitespace b)
  /\ (forall a : text,
        normalize_whitespace (replace_cr (replace_crlf a))
        = normalize_whitespace a)
  /\ (Forall (fun m => replacement src m = None)
             (Re.finditer match_item_block original) ->
      tar_changed r = false).
Proof.
  cbv zeta. split; [|split; [|split]].
  - rewrite update_tar_file_changed, update_tar_file_original.
    rewrite negb_true_iff, bool_decide_eq_false. done.
  - intros a b H.
    rewrite <- (normalize_whitespace_normalize_formatting a), H.
    apply normalize_whitespace_normalize_formatting.
  - intros a. apply normalize_whitespace_eq_words.
    rewrite (proj1 (words_replace_cr _)). apply words_replace_crlf.
  - intros H. by apply update_tar_file_unchanged.
Qed.

(** * Replaced blocks *)

Lemma strip_prefix_app_Some (p s r x : text) :
  strip_prefix p s = Some r -> strip_prefix p (s ++ x) = Some (r ++ x).
Proof.
  intros ->%strip_prefix_Some. rewrite <- app_assoc. apply strip_prefix_app.
Qed.

Lemma find_sub_first (pat b x a : text) :
  pat <> [] -> find_sub pat (b ++ x) = Some (b, a) -> find_sub pat b = None.
Proof.
  intros Hp. revert a; induction b as [|c b IH]; intros a.
  - intros _. by destruct pat.
  - rewrite <- app_comm_cons. cbn [find_sub].
    destruct (strip_prefix pat (c :: b ++ x)) as [r|] eqn:E; [done|].
    destruct (find_sub pat (b ++ x)) as [[b' a']|] eqn:E2; [|done].
    intros [= -> ->]. rewrite (IH _ eq_refl).
    destruct (strip_prefix pat (c :: b)) as [r|] eqn:E3; [|done].
    apply strip_prefix_app_Some with (x := x) in E3.
    rewrite <- app_comm_cons in E3. congruence.
Qed.

Lemma match_item_block_is_block (bol : bool) (s : text) (m : item_match)
    (rest : text) :
  match_item_block bol s = Some (m, rest) -> is_block m.
Proof.
  intros (_ & _ & Hg & Hi & Ha & Hf)%match_item_block_Some.
  repeat split; try done. by eapply find_sub_first.
Qed.

Lemma scan_hits_blocks (bol : bool) (s : text) :
  Forall is_block (hits (scan_at match_item_block bol s)).
Proof.
  apply (scan_at_ind match_item_block match_item_block_consumes
           (fun _ _ ps => Forall is_block (hits ps))).
  - constructor.
  - done.
  - intros bol' s' m rest E bol'' IH. unfold hits. cbn [omap].
    constructor; [|done]. by eapply match_item_block_is_block.
Qed.

Lemma hits_app {A : Type} (ps1 ps2 : list (Re.piece A)) :
  hits (ps1 ++ ps2) = hits ps1 ++ hits ps2.
Proof. apply omap_app. Qed.

Lemma scan_split_is_block (doc : text) (ps1 ps2 : list (Re.piece item_match))
    (m : item_match) :
  Re.scan match_item_block doc = ps1 ++ Re.Hit m :: ps2 -> is_block m.
Proof.
  intros H. pose proof (scan_hits_blocks true doc) as Hb.
  rewrite <- scan_scan_at, H, hits_app in Hb.
  apply Forall_app in Hb as [_ Hb]. by inversion Hb.
Qed.

Lemma reindent_line_blank (ind line : text) :
  reindent_line ind line
  = if forallb isspace line then [] else ind ++ line.
Proof.
  unfold reindent_line. destruct (forallb isspace line) eqn:E.
  - apply strip_blank in E. by rewrite E.
  - destruct (strip line) eqn:E2; [|done].
    apply strip_blank in E2. congruence.
Qed.

Lemma replacement_Some (src : gmap text text) (m : item_match)
    (ident content : text) :
  search_identifier (attrs m) = Some ident ->
  src !! ident = Some content ->
  normalize_whitespace (inner m) <> normalize_whitespace content ->
  replacement src m = Some content.
Proof.
  intros Hs Hc Hn. unfold replacement. rewrite Hs, Hc.
  by rewrite bool_decide_eq_false_2.
Qed.

(** ** C1 *)

(** C1: a target block whose identifier is in the catalog and whose
    whitespace-normalized inner content differs from that of the catalog
    entry is replaced, in place, by its indent, the opening tag with the
    attribute text as it was, a newline, the catalog content with every
    non-blank line prefixed by the indent and one tab (blank lines turned
    into empty ones), a newline, the indent and the closing tag.  For the
    catalog entry rope_1 and the target block of the scenario the whole
    run gives the merged block of the specification and flags the
    document changed. *)
Theorem replaced_block_rebuilt (os : platform) (src : gmap text text)
    (used : gset text) (doc : text) (ps1 ps2 : list (Re.piece item_match))
    (m : item_match) (ident content : text) :
  Re.scan match_item_block doc = ps1 ++ Re.Hit m :: ps2 ->
  search_identifier (attrs m) = Some ident ->
  src !! ident = Some content ->
  normalize_whitespace (inner m) <> normalize_whitespace content ->
  let rebuilt :=
    indent m ++ lit "<Item" ++ attrs m ++ [GT] ++ linesep os
      ++ join [LF]
           (map (fun line => if forallb isspace line then []
                             else (indent m ++ [TAB]) ++ line)
                (splitlines content))
      ++ linesep os ++ indent m ++ lit "</Item>" in
  doc = flat_map piece_text ps1
          ++ (indent m ++ lit "<Item" ++ attrs m ++ [GT] ++ inner m
                ++ lit "</Item>")
          ++ flat_map piece_text ps2
  /\ fst (sub_items os src used (Re.scan match_item_block doc))
     = flat_map (piece_out os src) ps1 ++ rebuilt
         ++ flat_map (piece_out os src) ps2
  /\ fst (update_tar_file os (Some rope_target) rope_catalog ∅)
     = (rope_target, rope_merged, true).
Proof.
  intros Hscan Hs Hc Hn rebuilt.
  pose proof (scan_split_is_block _ _ _ _ Hscan) as (Hg & _).
  split; [|split].
  - rewrite <- (scan_item_text true doc) at 1.
    rewrite <- scan_scan_at, Hscan, flat_map_app. cbn [flat_map piece_text].
    by rewrite Hg, <- !app_assoc.
  - rewrite sub_items_fst, Hscan, flat_map_app. cbn [flat_map piece_out].
    rewrite (replacement_Some _ _ _ _ Hs Hc Hn).
    unfold new_block, rebuilt. rewrite reindent_eq.
    rewrite <- !app_assoc. do 6 f_equal.
    f_equal. f_equal. apply map_ext. intros line.
    apply reindent_line_blank.
  - destruct os; vm_compute; reflexivity.
Qed.

Lemma replaced_block_rebuilt_witness :
  fst (sub_items Windows rope_catalog ∅
         (Re.scan match_item_block
            (lit "<root>\n  <Item identifier=\qrope_1\q>\n    <price>5</price>\n  </Item>\n</root>")))
  = lit "<root>\n  <Item identifier=\qrope_1\q>\r\n  \t<price>10</price>\r\n  </Item>\n</root>".
Proof.
  exact (proj1 (proj2
    (replaced_block_rebuilt Windows rope_catalog ∅
       (lit "<root>\n  <Item identifier=\qrope_1\q>\n    <price>5</price>\n  </Item>\n</root>")
       (map Re.Lit (lit "<root>\n"))
       (map Re.Lit (lit "\n</root>"))
       {| group0 := lit "  <Item identifier=\qrope_1\q>\n    <price>5</price>\n  </Item>";
          indent := lit "  ";
          attrs := lit " identifier=\qrope_1\q";
          inner := lit "\n    <price>5</price>\n  " |}
       (lit "rope_1") (lit "<price>10</price>")
       eq_refl eq_refl eq_refl
       (fun H => eq_ind (lit "<price>5</price>")
                   (fun l => match l with
                             | 60 :: 112 :: 114 :: 105 :: 99 :: 101 :: 62
                                 :: 53 :: _ => True
                             | _ => False
                             end%N) I _ H)))).
Defined.

(** * What reaches the diff *)

(** C3: on a document with four-space indentation and a whitespace-only
    line in which one block is replaced, [update_tar_file] flags the
    document changed and hands back the original text as read, so the
    text before the merge reaches the diff unformatted, while the text
    after the merge has its whitespace-only lines emptied and its final
    newline dropped; on neither side are the four-space indents turned
    into tabs, so neither side is in the form the formatting normalizer
    produces, and the third line, whitespace only and outside every
    block, differs between the two sides. *)
Theorem diff_sides_not_normalized :
  let r := update_tar_file Windows (Some indented_target) rope_catalog ∅ in
  let sides := generate_diff_lines (tar_original r) (tar_modified r) in
  tar_changed r = true
  /\ tar_original r = indented_target
  /\ tar_modified r
     = lit "<root>\n    <a/>\n\n<Item identifier=\qrope_1\q>\n\t<price>10</price>\n</Item>\n</root>"
  /\ Swapper.normalize_formatting (tar_original r) <> tar_original r
  /\ Swapper.normalize_formatting (tar_modified r) <> tar_modified r
  /\ fst sides !! 2%nat = Some (lit "  \n")
  /\ snd sides !! 2%nat = Some (lit "\n")
  /\ last (fst sides) = Some (lit "</root>\n")
  /\ last (snd sides) = Some (lit "</root>").
Proof.
  vm_compute. repeat split; discriminate.
Qed.

(** * Removal of the component elements *)

Lemma scan_at_bol_irrelevant {A : Type}
    (match_at : bool -> text -> option (A * text)) :
  (forall bol s a rest,
      match_at bol s = Some (a, rest) -> (length rest < length s)%nat) ->
  (forall b1 b2 s, match_at b1 s = match_at b2 s) ->
  forall b1 b2 s, scan_at match_at b1 s = scan_at match_at b2 s.
Proof.
  intros Hc Hb b1 b2 s. revert b2.
  apply (scan_at_ind match_at Hc
    (fun b s ps => forall b2, ps = scan_at match_at b2 s)).
  - intros b b2. by rewrite scan_at_nil.
  - intros b c s' E IH b2. rewrite (Hb b b2) in E.
    by rewrite (scan_at_lit _ Hc b2 c s' E).
  - intros b s' a rest E bol' IH b2. rewrite (Hb b b2) in E.
    by rewrite (scan_at_hit _ Hc b2 s' a rest E).
Qed.

(** A literal whose first code point does not occur again in it cannot
    begin inside a text and end inside a following text that starts with
    that code point. *)
Lemma strip_prefix_tail_straddle (q p x r : text) (a : N) :
  forallb (fun c => negb (c =? a)%N) q = true ->
  strip_prefix q (p ++ a :: x) = Some r ->
  exists r', strip_prefix q p = Some r'.
Proof.
  revert p; induction q as [|b q IH]; intros p Hq H; [by eexists|].
  simpl in Hq. apply andb_prop in Hq as [Hb Hq].
  destruct p as [|c p].
  - simpl in H. apply negb_true_iff in Hb. by rewrite Hb in H.
  - rewrite <- app_comm_cons, strip_prefix_cons in H.
    rewrite strip_prefix_cons. destruct (b =? c)%N; [|done]. by apply IH.
Qed.

Lemma strip_prefix_straddle (pat p x : text) (a : N) :
  forallb (fun c => negb (c =? a)%N) (tail pat) = true ->
  pat <> [] ->
  strip_prefix pat p = None -> p <> [] ->
  strip_prefix pat (p ++ a :: x) = None.
Proof.
  intros Hq Hpat Hp Hne. destruct pat as [|b q]; [done|].
  destruct p as [|c p]; [done|]. simpl tail in Hq.
  rewrite <- app_comm_cons, strip_prefix_cons.
  rewrite strip_prefix_cons in Hp. destruct (b =? c)%N; [|done].
  destruct (strip_prefix q (p ++ a :: x)) as [r|] eqn:E; [|done].
  apply strip_prefix_tail_straddle in E as [r' E]; [|done]. congruence.
Qed.

Lemma closing_head (k : component) (post : text) :
  exists x, closing k ++ post = LT :: x.
Proof. destruct k; by eexists. Qed.

Lemma opening_head (k : component) (post : text) :
  exists x, opening k ++ post = LT :: x.
Proof. by eexists. Qed.

Lemma find_component_end_here (k : component) (post : text) :
  find_component_end (closing k ++ post) = Some post.
Proof.
  destruct k.
  - change (closing Fabricate) with (lit "</Fabricate>").
    rewrite <- (strip_prefix_app (lit "</Fabricate>") post). done.
  - change (closing Deconstruct) with (lit "</Deconstruct>").
    assert (strip_prefix (lit "</Fabricate>") (lit "</Deconstruct>" ++ post)
            = None) as H1 by done.
    pose proof (strip_prefix_app (lit "</Deconstruct>") post) as H2.
    remember (lit "</Deconstruct>" ++ post) as s eqn:Hs.
    destruct s as [|c s]; [done|]. cbn [find_component_end].
    by rewrite H1, H2.
Qed.

Lemma find_component_end_cons (c : N) (s : text) :
  strip_prefix (lit "</Fabricate>") (c :: s) = None ->
  strip_prefix (lit "</Deconstruct>") (c :: s) = None ->
  find_component_end (c :: s) = find_component_end s.
Proof. intros H1 H2. cbn [find_component_end]. by rewrite H1, H2. Qed.

(** The lazy body of the pattern ends at the first closing tag. *)
Lemma find_component_end_first (mid : text) (k : component) (post : text) :
  find_sub (closing Fabricate) mid = None ->
  find_sub (closing Deconstruct) mid = None ->
  find_component_end (mid ++ closing k ++ post) = Some post.
Proof.
  induction mid as [|c mid IH]; intros H1 H2.
  - apply find_component_end_here.
  - apply find_sub_None_cons in H1 as [H1 H1'].
    apply find_sub_None_cons in H2 as [H2 H2'].
    destruct (closing_head k post) as [x Hx].
    rewrite <- app_comm_cons, find_component_end_cons.
    + by apply IH.
    + rewrite app_comm_cons, Hx. by apply strip_prefix_straddle.
    + rewrite app_comm_cons, Hx. by apply strip_prefix_straddle.
Qed.

Lemma find_component_end_length (s rest : text) :
  find_component_end s = Some rest -> (length rest < length s)%nat.
Proof.
  induction s as [|c s IH]; [done|]. cbn [find_component_end].
  destruct (strip_prefix (lit "</Fabricate>") (c :: s)) as [r|] eqn:E1.
  { intros [= <-]. apply strip_prefix_Some in E1. rewrite E1.
    rewrite length_app. simpl. lia. }
  destruct (strip_prefix (lit "</Deconstruct>") (c :: s)) as [r|] eqn:E2.
  { intros [= <-]. apply strip_prefix_Some in E2. rewrite E2.
    rewrite length_app. simpl. lia. }
  intros H%IH. simpl. lia.
Qed.

Lemma match_component_consumes (bol : bool) (s : text) (a : unit)
    (rest : text) :
  match_component bol s = Some (a, rest) -> (length rest < length s)%nat.
Proof.
  unfold match_component.
  destruct (strip_prefix (lit "<Fabricate") s) as [r|] eqn:E1.
  - apply strip_prefix_Some in E1. destruct (word_boundary r); [|done].
    destruct (find_component_end r) as [rest'|] eqn:E; [|done].
    intros [= _ <-]. apply find_component_end_length in E.
    rewrite E1, length_app. lia.
  - destruct (strip_prefix (lit "<Deconstruct") s) as [r|] eqn:E2; [|done].
    apply strip_prefix_Some in E2. destruct (word_boundary r); [|done].
    destruct (find_component_end r) as [rest'|] eqn:E; [|done].
    intros [= _ <-]. apply find_component_end_length in E.
    rewrite E2, length_app. lia.
Qed.

Lemma match_component_span (bol : bool) (k1 k2 : component)
    (mid post : text) :
  word_boundary mid = true ->
  find_sub (closing Fabricate) mid = None ->
  find_sub (closing Deconstruct) mid = None ->
  match_component bol (opening k1 ++ mid ++ closing k2 ++ post)
  = Some (tt, post).
Proof.
  intros Hb H1 H2. unfold match_component.
  assert (word_boundary (mid ++ closing k2 ++ post) = true) as Hb'.
  { destruct mid as [|c mid]; [|done]. by destruct k2. }
  destruct k1.
  - change (opening Fabricate) with (lit "<Fabricate").
    rewrite strip_prefix_app, Hb'.
    by rewrite find_component_end_first.
  - change (opening Deconstruct) with (lit "<Deconstruct").
    assert (strip_prefix (lit "<Fabricate")
              (lit "<Deconstruct" ++ mid ++ closing k2 ++ post) = None)
      as -> by done.
    rewrite strip_prefix_app, Hb'.
    by rewrite find_component_end_first.
Qed.

Lemma remove_components_eq (s : text) :
  remove_components s
  = flat_map (fun p => match p with
                       | Re.Lit c => [c]
                       | Re.Hit _ => []
                       end)
             (scan_at match_component false s).
Proof.
  unfold remove_components, Re.sub. rewrite scan_scan_at.
  by rewrite (scan_at_bol_irrelevant match_component
                match_component_consumes (fun _ _ _ => eq_refl) true false).
Qed.

Lemma remove_components_hit (s rest : text) :
  match_component false s = Some (tt, rest) ->
  remove_components s = remove_components rest.
Proof.
  intros E. rewrite !remove_components_eq.
  rewrite (scan_at_hit _ match_component_consumes _ _ _ _ E). cbn [flat_map app].
  by rewrite (scan_at_bol_irrelevant match_component
                match_component_consumes (fun _ _ _ => eq_refl) _ false).
Qed.

Lemma remove_components_lit (c : N) (s : text) :
  match_component false (c :: s) = None ->
  remove_components (c :: s) = c :: remove_components s.
Proof.
  intros E. rewrite !remove_components_eq.
  rewrite (scan_at_lit _ match_component_consumes _ _ _ E). cbn [flat_map app].
  by rewrite (scan_at_bol_irrelevant match_component
                match_component_consumes (fun _ _ _ => eq_refl) _ false).
Qed.

(** A text that holds no opening component tag holds none at a word
    boundary. *)
Lemma no_opening_no_span_opening (pre : text) :
  find_sub (opening Fabricate) pre = None ->
  find_sub (opening Deconstruct) pre = None ->
  no_span_opening pre = true.
Proof.
  induction pre as [|c pre IH]; [done|].
  intros [H1 H1']%find_sub_None_cons [H2 H2']%find_sub_None_cons.
  cbn [no_span_opening]. unfold after_opening. rewrite H1, H2.
  by apply IH.
Qed.

Lemma find_component_end_None (s : text) :
  find_sub (lit "</Fabricate>") s = None ->
  find_sub (lit "</Deconstruct>") s = None ->
  find_component_end s = None.
Proof.
  induction s as [|c s IH]; [done|].
  intros [H1 H1']%find_sub_None_cons [H2 H2']%find_sub_None_cons.
  rewrite find_component_end_cons by done. by apply IH.
Qed.

(** A text without an opening component tag at a word boundary holds no
    start of a span, whatever tag follows it. *)
Lemma match_component_inside (bol : bool) (c : N) (p x : text) :
  no_span_opening (c :: p) = true ->
  match_component bol ((c :: p) ++ LT :: x) = None.
Proof.
  intros H. cbn [no_span_opening] in H. apply andb_prop in H as [H _].
  unfold after_opening in H. unfold match_component.
  change (lit "<Fabricate") with (opening Fabricate).
  change (lit "<Deconstruct") with (opening Deconstruct).
  destruct (strip_prefix (opening Fabricate) (c :: p)) as [r|] eqn:E1.
  { rewrite (strip_prefix_app_Some _ _ _ (LT :: x) E1).
    destruct r as [|w r]; [done|]. cbn [word_boundary app] in *.
    by destruct (is_word w). }
  rewrite (strip_prefix_straddle (opening Fabricate)) by done.
  destruct (strip_prefix (opening Deconstruct) (c :: p)) as [r|] eqn:E2.
  { rewrite (strip_prefix_app_Some _ _ _ (LT :: x) E2).
    destruct r as [|w r]; [done|]. cbn [word_boundary app] in *.
    by destruct (is_word w). }
  by rewrite (strip_prefix_straddle (opening Deconstruct)) by done.
Qed.

Lemma remove_components_before (pre x : text) :
  no_span_opening pre = true ->
  remove_components (pre ++ LT :: x) = pre ++ remove_components (LT :: x).
Proof.
  induction pre as [|c pre IH]; intros H; [done|].
  rewrite <- app_comm_cons, remove_components_lit.
  - cbn [app]. f_equal. apply IH. cbn [no_span_opening] in H.
    by apply andb_prop in H as [_ H].
  - rewrite app_comm_cons. by apply match_component_inside.
Qed.

Lemma match_component_other (bol : bool) (c : N) (s : text) :
  c <> LT -> match_component bol (c :: s) = None.
Proof.
  intros Hc. unfold match_component.
  change (lit "<Fabricate") with (LT :: lit "Fabricate").
  change (lit "<Deconstruct") with (LT :: lit "Deconstruct").
  rewrite !strip_prefix_cons.
  by destruct (N.eqb_spec LT c) as [<-|_].
Qed.

(** Code points other than the tag opener are kept. *)
Lemma remove_components_keep (l s : text) :
  LT ∉ l -> remove_components (l ++ s) = l ++ remove_components s.
Proof.
  induction l as [|c l IH]; intros Hl; [done|].
  rewrite <- app_comm_cons, remove_components_lit.
  - cbn [app]. f_equal. apply IH. set_solver.
  - apply match_component_other. set_solver.
Qed.

Lemma component_name_no_opener (k : component) : LT ∉ component_name k.
Proof.
  destruct k; refine (bool_decide_unpack _ _); vm_compute; exact I.
Qed.

(** An opening component tag that no span starts from is kept. *)
Lemma remove_components_opening_kept (k : component) (rest : text) :
  match_component false (opening k ++ rest) = None ->
  remove_components (opening k ++ rest)
  = opening k ++ remove_components rest.
Proof.
  intros E. unfold opening in *. rewrite <- !app_comm_cons in *.
  rewrite remove_components_lit by done. f_equal.
  apply remove_components_keep, component_name_no_opener.

Qed.

(** An opening component tag inside a longer name starts no span. *)
Lemma match_component_inside_word (bol : bool) (k : component) (w : N)
    (rest : text) :
  is_word w = true ->
  match_component bol (opening k ++ w :: rest) = None.
Proof.
  intros Hw. unfold match_component. destruct k.
  - change (opening Fabricate) with (lit "<Fabricate").
    rewrite strip_prefix_app. cbn [word_boundary]. by rewrite Hw.
  - change (opening Deconstruct) with (lit "<Deconstruct").
    assert (strip_prefix (lit "<Fabricate")
              (lit "<Deconstruct" ++ w :: rest) = None) as -> by done.
    rewrite strip_prefix_app. cbn [word_boundary]. by rewrite Hw.
Qed.

(** An opening component tag with no closing component tag after it
    starts no span. *)
Lemma match_component_unclosed (bol : bool) (k : component) (rest : text) :
  find_sub (closing Fabricate) rest = None ->
  find_sub (closing Deconstruct) rest = None ->
  match_component bol (opening k ++ rest) = None.
Proof.
  intros H1 H2. unfold match_component.
  pose proof (find_component_end_None rest H1 H2) as E. destruct k.
  - change (opening Fabricate) with (lit "<Fabricate").
    rewrite strip_prefix_app, E. by destruct (word_boundary rest).
  - change (opening Deconstruct) with (lit "<Deconstruct").
    assert (strip_prefix (lit "<Fabricate")
              (lit "<Deconstruct" ++ rest) = None) as -> by done.
    rewrite strip_prefix_app, E. by destruct (word_boundary rest).
Qed.

(** A text without a closing component tag is left as it is. *)
Lemma remove_components_unclosed (s : text) :
  find_sub (closing Fabricate) s = None ->
  find_sub (closing Deconstruct) s = None ->
  remove_components s = s.
Proof.
  induction s as [|c s IH]; [done|].
  intros H1 H2.
  pose proof (find_sub_None_cons _ _ _ H1) as [_ H1'].
  pose proof (find_sub_None_cons _ _ _ H2) as [_ H2'].
  rewrite remove_components_lit; [by rewrite IH|].
  unfold match_component.
  assert (forall p r, strip_prefix p (c :: s) = Some r ->
            find_component_end r = None) as Hend.
  { intros p r E%strip_prefix_Some. rewrite E in H1, H2.
    apply find_component_end_None; by eapply find_sub_None_suffix. }
  destruct (strip_prefix (lit "<Fabricate") (c :: s)) as [r|] eqn:E1.
  { rewrite (Hend _ _ E1). by destruct (word_boundary r). }
  destruct (strip_prefix (lit "<Deconstruct") (c :: s)) as [r|] eqn:E2;
    [|done].
  rewrite (Hend _ _ E2). by destruct (word_boundary r).
Qed.

(** ** C8 *)




(** * Running the merge again *)

Lemma words_app_blank (a b : text) :
  forallb isspace b = true -> words (a ++ b) = words a.
Proof.
  destruct b as [|c b]; [by rewrite app_nil_r|]. simpl forallb.
  intros [Hc Hb]%andb_prop. rewrite words_app_space by done.
  by rewrite (words_blank b), app_nil_r.
Qed.

Lemma is_indent_isspace (ind : text) :
  forallb is_indent ind = true -> forallb isspace ind = true.
Proof.
  induction ind as [|c ind IH]; [done|]. simpl.
  intros [Hc Hi]%andb_prop. rewrite IH by done.
  unfold is_indent in Hc.
  apply orb_prop in Hc as [->%N.eqb_eq| ->%N.eqb_eq]; done.
Qed.

(** The inner region written for a replaced block has the words of the
    catalog entry. *)
Lemma words_written_inner (sep ind c : text) :
  forallb isspace sep = true -> forallb is_indent ind = true ->
  words (sep ++ reindent c (ind ++ [TAB]) ++ sep ++ ind) = words c.
Proof.
  intros Hsep Hind%is_indent_isspace.
  rewrite words_blank_app by done. rewrite app_assoc, words_app_blank.
  - rewrite words_app_blank by done. apply words_reindent.
    by rewrite forallb_app, Hind.
  - done.
Qed.

Lemma replace_crlf_no_cr (t : text) : CR ∉ t -> replace_crlf t = t.
Proof.
  induction t as [|c t IH]; [done|]. intros H.
  rewrite replace_crlf_cons. destruct t as [|d t]; [done|].
  destruct (N.eqb_spec c CR) as [->|]; [set_solver|]. simpl andb.
  f_equal. apply IH. set_solver.
Qed.

Lemma replace_cr_no_cr (t : text) : CR ∉ t -> replace_cr t = t.
Proof.
  induction t as [|c t IH]; [done|]. intros H. unfold replace_cr in *.
  rewrite map_cons. destruct (N.eqb_spec c CR) as [->|]; [set_solver|].
  f_equal. apply IH. set_solver.
Qed.

Lemma splitlines_line_break (l s : text) :
  forallb (fun c => negb (is_linebreak c)) l = true ->
  splitlines (l ++ LF :: s) = l :: splitlines s.
Proof.
  induction l as [|c l IH]; intros Hl.
  - by rewrite app_nil_l, splitlines_break.
  - simpl in Hl. apply andb_prop in Hl as [Hc%negb_true_iff Hl].
    rewrite <- app_comm_cons, splitlines_char by done. by rewrite IH.
Qed.

Lemma splitlines_one_line (l : text) :
  forallb (fun c => negb (is_linebreak c)) l = true -> l <> [] ->
  splitlines l = [l].
Proof.
  induction l as [|c l IH]; intros Hl Hne; [done|].
  simpl in Hl. apply andb_prop in Hl as [Hc%negb_true_iff Hl].
  rewrite splitlines_char by done. destruct l as [|d l]; [done|].
  by rewrite IH.
Qed.

Lemma splitlines_join (ls : list text) :
  Forall (fun l => forallb (fun c => negb (is_linebreak c)) l = true) ls ->
  last ls <> Some [] ->
  splitlines (join [LF] ls) = ls.
Proof.
  induction 1 as [|l ls Hl Hls IH]; intros Hlast; [done|].
  destruct ls as [|l' ls].
  - apply splitlines_one_line; [done|]. by intros ->.
  - rewrite join_cons2. change ([LF] ++ ?x) with (LF :: x).
    rewrite splitlines_line_break by done. f_equal. by apply IH.
Qed.

(** A text already in the form the overall formatting produces, with a
    last line that is not empty, is left as it is. *)
Lemma normalize_overall_formatted (ls : list text) :
  Forall (fun l => forallb (fun c => negb (is_linebreak c)) l = true) ls ->
  Forall (fun l => forallb isspace l = true -> l = []) ls ->
  last ls <> Some [] ->
  normalize_overall (join [LF] ls) = join [LF] ls.
Proof.
  intros Hnb Hbl Hlast. unfold normalize_overall.
  assert (CR ∉ join [LF] ls) as Hcr.
  { intros [Hin|(l & Hl & Hin)]%elem_of_join; [set_solver|].
    rewrite Forall_forall in Hnb. revert Hin.
    by apply no_break_not_elem, Hnb. }
  rewrite replace_crlf_no_cr, replace_cr_no_cr by done.
  rewrite reindent_eq, splitlines_join by done. f_equal.
  rewrite <- (map_id ls) at 2. apply map_ext_in. intros l Hl.
  rewrite reindent_line_blank. rewrite Forall_forall in Hbl.
  destruct (forallb isspace l) eqn:E; [|done].
  symmetry. apply Hbl; [by apply list_elem_of_In|done].
Qed.

(** ** C4 *)

(** C4: the merge is not idempotent.  The overall formatting drops one
    final line boundary on every run: a document that ends with an empty
    line comes out of a first run, which replaces its block, with a line
    feed at its end, and a second run on that output returns it without
    that line feed, a modified text that is not its input (the changed
    flag of the second run is false).  And the item pattern begins a
    block after a line feed only, while the overall formatting turns
    every line boundary into a line feed: a block that follows a NEXT
    LINE is not found by the first run, which replaces the block before
    it, and is found and replaced by the second run, whose changed flag
    is true. *)
Theorem rerun_changes_again (os : platform) :
  let first := update_tar_file os (Some blank_end_target) rope_catalog ∅ in
  let second :=
    update_tar_file os (Some (tar_modified first)) rope_catalog ∅ in
  let first' := update_tar_file os (Some nel_target) two_ropes ∅ in
  let second' :=
    update_tar_file os (Some (tar_modified first')) two_ropes ∅ in
  (tar_changed first = true
   /\ tar_modified first
      = lit "<root>\n<Item identifier=\qrope_1\q>\n\t<price>10</price>\n</Item>\n</root>\n"
   /\ tar_original second = tar_modified first
   /\ tar_modified second
      = lit "<root>\n<Item identifier=\qrope_1\q>\n\t<price>10</price>\n</Item>\n</root>"
   /\ tar_modified second <> tar_original second
   /\ tar_changed second = false)
  /\ (tar_changed first' = true
      /\ tar_modified first'
         = lit "<Item identifier=\qrope_1\q>\n\t<price>10</price>\n</Item>\n<Item identifier=\qrope_2\q>old</Item>"
      /\ tar_original second' = tar_modified first'
      /\ tar_modified second'
         = lit "<Item identifier=\qrope_1\q>\n\t<price>10</price>\n</Item>\n<Item identifier=\qrope_2\q>\n\t<price>20</price>\n</Item>"
      /\ tar_modified second' <> tar_original second'
      /\ tar_changed second' = true).
Proof. destruct os; vm_compute; repeat split; discriminate. Qed.

(** * The frame of the merge *)

Lemma replace_crlf_app (x y : text) :
  last x <> Some CR \/ head y <> Some LF ->
  replace_crlf (x ++ y) = replace_crlf x ++ replace_crlf y.
Proof.
  remember (length x) as n eqn:Hn. revert x Hn.
  induction n as [n IH] using lt_wf_ind. intros x -> H.
  destruct x as [|c x]; [done|]. destruct x as [|d x].
  - cbn [app]. rewrite (replace_crlf_cons c y). destruct y as [|e y]; [done|].
    destruct (N.eqb_spec c CR) as [->|]; [|done].
    destruct (N.eqb_spec e LF) as [->|]; [|done].
    simpl in H. destruct H as [H|H]; done.
  - rewrite <- !app_comm_cons. rewrite (replace_crlf_cons c (d :: x ++ y)).
    rewrite (replace_crlf_cons c (d :: x)).
    destruct ((c =? CR)%N && (d =? LF)%N).
    + rewrite <- app_comm_cons. f_equal.
      destruct x as [|e x]; [done|].
      apply (IH (length (e :: x))); [simpl; lia|done|].
      destruct H as [H|H]; [left|by right].
      by rewrite !last_cons_cons in H.
    + rewrite <- app_comm_cons. f_equal. rewrite app_comm_cons.
      apply (IH (length (d :: x))); [simpl; lia|done|].
      destruct H as [H|H]; [left|by right].
      by rewrite last_cons_cons in H.
Qed.

Lemma replace_cr_app (x y : text) :
  replace_cr (x ++ y) = replace_cr x ++ replace_cr y.
Proof. apply map_app. Qed.

Lemma reindent_line_nil (l : text) :
  reindent_line [] l = if forallb isspace l then [] else l.
Proof. by rewrite reindent_line_blank. Qed.

Lemma reindent_line_nonblank (l : text) :
  forallb isspace l = false -> reindent_line [] l = l.
Proof. intros H. by rewrite reindent_line_nil, H. Qed.

Lemma forallb_isspace_snoc (l : text) (g : N) :
  isspace g = false -> forallb isspace (l ++ [g]) = false.
Proof.
  intros Hg. rewrite forallb_app. simpl. rewrite Hg.
  by rewrite andb_false_r.
Qed.

Lemma splitlines_cons_ne (c : N) (s : text) : splitlines (c :: s) <> [].
Proof. intros H. by apply splitlines_nil in H. Qed.

Lemma after_break_app (c : N) (s b : text) :
  head b <> Some LF ->
  after_break c (s ++ b) = after_break c s ++ b.
Proof.
  intros Hb. unfold after_break. destruct (c =? CR)%N; [|done].
  destruct s as [|d s].
  - simpl. destruct b as [|e b]; [done|].
    destruct (N.eqb_spec e LF) as [->|]; done.
  - rewrite <- app_comm_cons. by destruct (d =? LF)%N.
Qed.

(** The lines of a text whose last code point is not a line boundary,
    followed by more text. *)
Lemma splitlines_app_glue (a s : text) (g : N) :
  last a = Some g -> is_linebreak g = false ->
  splitlines (a ++ s) = glue (splitlines a) (continue_lines s).
Proof.
  intros Hl Hg. revert Hl.
  induction a as [| c a Hc IH | c a Hc IH] using splitlines_ind; [done| |].
  - intros Hl. destruct a as [|d a].
    { simpl in Hl. congruence. }
    assert (after_break c (d :: a) <> []
            /\ last (after_break c (d :: a)) = Some g) as [Hne Hl'].
    { rewrite last_cons_cons in Hl. unfold after_break.
      destruct (c =? CR)%N; [|done].
      destruct (N.eqb_spec d LF) as [->|]; [|done].
      destruct a as [|e a]; [|by rewrite last_cons_cons in Hl].
      simpl in Hl. injection Hl as <-. done. }
    assert (after_break c ((d :: a) ++ s) = after_break c (d :: a) ++ s)
      as Hab.
    { unfold after_break. destruct (c =? CR)%N; [|done].
      rewrite <- app_comm_cons. destruct (N.eqb_spec d LF) as [->|]; done. }
    rewrite <- app_comm_cons, splitlines_break by done.
    rewrite Hab, (IH Hl').
    rewrite (splitlines_break c (d :: a)) by done.
    destruct (splitlines (after_break c (d :: a))) as [|l ls] eqn:E.
    { by apply splitlines_nil in E. }
    done.
  - intros Hl. rewrite <- app_comm_cons, !splitlines_char by done.
    destruct a as [|d a].
    + cbn [app splitlines glue]. unfold continue_lines.
      by destruct (splitlines s).
    + rewrite last_cons_cons in Hl. rewrite (IH Hl).
      pose proof (splitlines_cons_ne d a) as Hne.
      destruct (splitlines (d :: a)) as [|l ls]; [done|].
      cbn [glue]. destruct ls as [|l' ls].
      * unfold continue_lines. by destruct (splitlines s).
      * done.
Qed.

Lemma splitlines_last_line (a : text) (g : N) :
  last a = Some g -> is_linebreak g = false ->
  exists la, last (splitlines a) = Some (la ++ [g]).
Proof.
  intros Hl Hg. revert Hl.
  induction a as [| c a Hc IH | c a Hc IH] using splitlines_ind; [done| |].
  - intros Hl. destruct a as [|d a].
    { simpl in Hl. congruence. }
    assert (last (after_break c (d :: a)) = Some g) as Hl'.
    { rewrite last_cons_cons in Hl. unfold after_break.
      destruct (c =? CR)%N; [|done].
      destruct (N.eqb_spec d LF) as [->|]; [|done].
      destruct a as [|e a]; [|by rewrite last_cons_cons in Hl].
      simpl in Hl. injection Hl as <-. done. }
    destruct (IH Hl') as [la Hla]. exists la.
    rewrite splitlines_break by done.
    destruct (splitlines (after_break c (d :: a))) as [|l ls]; [done|].
    by rewrite last_cons_cons.
  - intros Hl. rewrite splitlines_char by done.
    destruct a as [|d a].
    + simpl in Hl. injection Hl as <-. by exists [].
    + rewrite last_cons_cons in Hl. destruct (IH Hl) as [la Hla].
      pose proof (splitlines_cons_ne d a) as Hne.
      destruct (splitlines (d :: a)) as [|l ls]; [done|].
      destruct ls as [|l' ls].
      * simpl in Hla. injection Hla as ->. by exists (c :: la).
      * exists la. by rewrite !last_cons_cons in *.
Qed.

Lemma join_glue (ls : list text) (la : text) (g : N) (h : text)
    (t : list text) :
  last ls = Some (la ++ [g]) -> isspace g = false ->
  join [LF] (map (reindent_line []) (glue ls (h :: t)))
  = join [LF] (map (reindent_line []) ls) ++ h
      ++ match t with
         | [] => []
         | _ :: _ => LF :: join [LF] (map (reindent_line []) t)
         end.
Proof.
  intros Hl Hg. induction ls as [|l ls IH]; [done|].
  destruct ls as [|l' ls].
  - simpl in Hl. injection Hl as ->. cbn [glue map].
    rewrite (reindent_line_nonblank ((la ++ [g]) ++ h)).
    2:{ rewrite forallb_app, forallb_isspace_snoc by done. done. }
    rewrite (reindent_line_nonblank (la ++ [g]))
      by by apply forallb_isspace_snoc.
    rewrite join_single. destruct t as [|t1 t].
    + by rewrite join_single, app_nil_r.
    + cbn [map]. rewrite join_cons2. by rewrite <- !app_assoc.
  - rewrite last_cons_cons in Hl. specialize (IH Hl).
    change (glue (l :: l' :: ls) (h :: t))
      with (l :: glue (l' :: ls) (h :: t)).
    cbn [map]. rewrite join_cons_ne.
    2:{ destruct ls; done. }
    rewrite IH. cbn [map]. rewrite join_cons2. by rewrite <- !app_assoc.
Qed.

(** Formatting a text that ends in a code point that is neither
    whitespace nor a line boundary, followed by more text: the text
    before is formatted as if it stood alone. *)
Lemma reindent_app_continued (a s : text) (g : N) :
  last a = Some g -> isspace g = false ->
  reindent (a ++ s) [] = reindent a [] ++ reindent_continued s.
Proof.
  intros Hl Hg.
  assert (is_linebreak g = false) as Hb.
  { destruct (is_linebreak g) eqn:E; [|done].
    apply linebreak_isspace in E. congruence. }
  rewrite !reindent_eq, (splitlines_app_glue a s g Hl Hb).
  destruct (splitlines_last_line a g Hl Hb) as [la Hla].
  unfold reindent_continued.
  assert (exists h t, continue_lines s = h :: t) as (h & t & E).
  { unfold continue_lines. destruct (splitlines s); by eexists _, _. }
  rewrite E. by apply (join_glue _ la g).
Qed.

Lemma reindent_cons_break (c : N) (s : text) :
  is_linebreak c = true -> after_break c s <> [] ->
  reindent (c :: s) [] = LF :: reindent (after_break c s) [].
Proof.
  intros Hc Hne. rewrite !reindent_eq, splitlines_break by done.
  cbn [map]. rewrite join_cons_ne; [done|].
  intros H%fmap_nil_inv. by apply splitlines_nil in H.
Qed.

Lemma reindent_cons_char (c : N) (s : text) :
  is_linebreak c = false ->
  exists z, reindent (c :: s) [] = z ++ reindent s [].
Proof.
  intros Hc. rewrite !reindent_eq, splitlines_char by done.
  destruct (splitlines s) as [|l ls].
  - eexists. by rewrite app_nil_r.
  - cbn [map]. rewrite !reindent_line_nil.
    destruct (forallb isspace l) eqn:El.
    + exists (if forallb isspace (c :: l) then [] else c :: l).
      destruct ls as [|l' ls].
      * cbn [map]. rewrite !join_single. by rewrite app_nil_r.
      * cbn [map]. rewrite !join_cons2. done.
    + assert (forallb isspace (c :: l) = false) as ->.
      { simpl. by rewrite El, andb_false_r. }
      exists [c]. destruct ls as [|l' ls]; [done|].
      cbn [map]. rewrite !join_cons2. done.
Qed.

(** Formatting text followed by a text that starts with a code point
    that is not a line feed: the text after is formatted as if it stood
    alone. *)
Lemma reindent_app_tail (y b : text) :
  b <> [] -> head b <> Some LF ->
  exists z, reindent (y ++ b) [] = z ++ reindent b [].
Proof.
  intros Hne Hb.
  induction y as [| c y Hc IH | c y Hc IH] using splitlines_ind.
  - by exists [].
  - destruct IH as [z IH]. exists (LF :: z).
    rewrite <- app_comm_cons, reindent_cons_break; [|done|].
    + by rewrite after_break_app, IH.
    + rewrite after_break_app by done. by destruct (after_break c y), b.
  - destruct IH as [z IH].
    destruct (reindent_cons_char c (y ++ b) Hc) as [z' Hz].
    exists (z' ++ z). by rewrite <- app_comm_cons, Hz, IH, app_assoc.
Qed.

Lemma reindent_continued_tail (s : text) :
  s <> [] -> exists z, reindent_continued s = z ++ reindent s [].
Proof.
  intros Hne. unfold reindent_continued, continue_lines.
  rewrite reindent_eq.
  destruct (splitlines s) as [|h t] eqn:E; [by apply splitlines_nil in E|].
  cbn [map]. rewrite reindent_line_nil.
  destruct (forallb isspace h).
  - exists h. destruct t as [|t1 t]; [by rewrite join_single|].
    cbn [map]. by rewrite join_cons2.
  - exists []. destruct t as [|t1 t]; [by rewrite join_single, app_nil_r|].
    cbn [map]. by rewrite join_cons2.
Qed.

Lemma replace_crlf_snoc (a : text) (g : N) :
  g <> LF -> replace_crlf (a ++ [g]) = replace_crlf a ++ [g].
Proof.
  intros Hg. rewrite replace_crlf_app; [done|]. right. simpl. congruence.
Qed.

(** The overall formatting is local: around an inner region that
    follows a [>] and is followed by a [<], the text before and the text
    after are formatted as if each stood alone. *)
Lemma normalize_overall_local (a x b : text) :
  exists z,
    normalize_overall ((a ++ [GT]) ++ x ++ LT :: b)
    = normalize_overall (a ++ [GT]) ++ z ++ normalize_overall (LT :: b).
Proof.
  unfold normalize_overall.
  rewrite (replace_crlf_app (a ++ [GT])).
  2:{ left. by rewrite last_snoc. }
  rewrite (replace_crlf_app x) by by right.
  rewrite !replace_cr_app.
  rewrite replace_crlf_snoc by done.
  rewrite (replace_cr_app _ [GT]).
  change (replace_cr [GT]) with [GT].
  set (a1 := replace_cr (replace_crlf a)).
  set (x1 := replace_cr (replace_crlf x)).
  assert (exists b1, replace_cr (replace_crlf (LT :: b)) = LT :: b1)
    as [b1 ->].
  { rewrite replace_crlf_cons. destruct b as [|d b]; [by eexists|].
    simpl. by eexists. }
  rewrite (reindent_app_continued (a1 ++ [GT]) _ GT);
    [|by rewrite last_snoc|done].
  destruct (reindent_continued_tail (x1 ++ LT :: b1)) as [z1 ->].
  { by destruct x1. }
  destruct (reindent_app_tail x1 (LT :: b1)) as [z2 ->]; [done|done|].
  exists (z1 ++ z2). by rewrite <- !app_assoc.
Qed.

Lemma push_front_framed (x : text) (fs : list text) :
  framed fs -> framed (push_front x fs).
Proof.
  destruct 1 as [f|a b fs H]; cbn [push_front]; [constructor|].
  rewrite app_assoc. by constructor.
Qed.

Lemma outer_texts_framed (src : gmap text text)
    (ps : list (Re.piece item_match)) :
  framed (outer_texts src ps).
Proof.
  induction ps as [|[c|m] ps IH]; cbn [outer_texts].
  - constructor.
  - by apply push_front_framed.
  - destruct (replacement src m); [|by apply push_front_framed].
    pose proof (push_front_framed (lit "</Item>") _ IH) as H.
    destruct (outer_texts src ps) as [|f fs]; [by inversion IH|].
    cbn [push_front] in *.
    change (lit "</Item>" ++ f) with (LT :: (lit "/Item>" ++ f)) in *.
    unfold open_tag. rewrite !app_assoc. by apply framed_next.
Qed.

Lemma outer_texts_length (src : gmap text text)
    (ps : list (Re.piece item_match)) :
  length (outer_texts src ps) = S (length (replaced_blocks src ps)).
Proof.
  assert (forall x fs, fs <> [] ->
            length (push_front x fs) = length fs) as Hp.
  { intros x [|f fs] H; done. }
  assert (forall ps, outer_texts src ps <> []) as Hne.
  { intros ps'. pose proof (outer_texts_framed src ps') as H.
    by destruct H. }
  induction ps as [|[c|m] ps IH]; cbn [outer_texts replaced_blocks];
    [done|by rewrite Hp| ].
  destruct (replacement src m); cbn [length]; rewrite Hp by done; by rewrite IH.
Qed.

Lemma weave_push_front (x : text) (fs hs : list text) :
  fs <> [] -> weave (push_front x fs) hs = x ++ weave fs hs.
Proof.
  intros Hne. destruct fs as [|f fs]; [done|]. cbn [push_front weave].
  destruct hs; by rewrite <- ?app_assoc.
Qed.

Lemma outer_texts_ne (src : gmap text text)
    (ps : list (Re.piece item_match)) :
  outer_texts src ps <> [].
Proof. pose proof (outer_texts_framed src ps) as H. by destruct H. Qed.

(** The scanned document is its outer stretches woven with the inner
    regions of the blocks that the merge replaces. *)
Lemma weave_original (src : gmap text text)
    (ps : list (Re.piece item_match)) :
  Forall is_block (hits ps) ->
  weave (outer_texts src ps)
        (map (fun mc => inner (fst mc)) (replaced_blocks src ps))
  = flat_map piece_text ps.
Proof.
  induction ps as [|[c|m] ps IH]; intros Hb; [done| |].
  - cbn [outer_texts replaced_blocks flat_map piece_text].
    rewrite weave_push_front by apply outer_texts_ne. by rewrite IH.
  - unfold hits in Hb. cbn [omap] in Hb.
    inversion Hb as [|? ? (Hg & _) Hb']; subst.
    cbn [outer_texts replaced_blocks flat_map piece_text].
    destruct (replacement src m).
    + cbn [map weave fst]. rewrite weave_push_front by apply outer_texts_ne.
      rewrite (IH Hb'), Hg. unfold open_tag. by rewrite <- !app_assoc.
    + rewrite weave_push_front by apply outer_texts_ne. by rewrite (IH Hb').
Qed.

(** The substituted text is the same outer stretches woven with the
    inner regions written for the replaced blocks. *)
Lemma weave_substituted (os : platform) (src : gmap text text)
    (ps : list (Re.piece item_match)) :
  weave (outer_texts src ps)
        (map (fun mc => written_inner os (fst mc) (snd mc))
             (replaced_blocks src ps))
  = flat_map (piece_out os src) ps.
Proof.
  induction ps as [|[c|m] ps IH]; [done| |].
  - cbn [outer_texts replaced_blocks flat_map piece_out].
    rewrite weave_push_front by apply outer_texts_ne. by rewrite IH.
  - cbn [outer_texts replaced_blocks flat_map piece_out].
    destruct (replacement src m) as [c|].
    + cbn [map weave fst snd].
      rewrite weave_push_front by apply outer_texts_ne.
      rewrite IH. unfold new_block, open_tag, written_inner.
      by rewrite <- !app_assoc.
    + rewrite weave_push_front by apply outer_texts_ne. by rewrite IH.
Qed.

(** Formatting a woven text formats each outer stretch on its own. *)
Lemma weave_normalize_overall (outer inners : list text) :
  framed outer -> length outer = S (length inners) ->
  exists inners',
    length inners' = length inners
    /\ normalize_overall (weave outer inners)
       = weave (map normalize_overall outer) inners'.
Proof.
  intros Hf. revert inners.
  induction Hf as [f|a b fs Hf IH]; intros inners Hlen.
  - destruct inners; [|done]. by exists [].
  - destruct inners as [|h inners]; [done|].
    destruct (IH inners) as (inners' & Hl & Hn); [simpl in *; lia|].
    assert (exists rest, weave ((LT :: b) :: fs) inners = LT :: rest)
      as [rest Hrest].
    { cbn [weave]. destruct inners; by eexists. }
    cbn [weave] in *. rewrite Hrest in *.
    destruct (normalize_overall_local a h rest) as [z Hz].
    exists (z :: inners'). split; [simpl; lia|].
    cbn [map weave]. rewrite Hz. do 2 f_equal. rewrite Hn.
    by destruct inners'.
Qed.

Lemma replacement_None_cases (src : gmap text text) (m : item_match) :
  search_identifier (attrs m) = None
  \/ (exists ident,
        search_identifier (attrs m) = Some ident /\ src !! ident = None)
  \/ (exists ident c,
        search_identifier (attrs m) = Some ident
        /\ src !! ident = Some c
        /\ normalize_whitespace (inner m) = normalize_whitespace c) ->
  replacement src m = None.
Proof.
  unfold replacement.
  intros [->|[(ident & -> & ->)|(ident & c & -> & -> & Hn)]]; [done|done|].
  by rewrite bool_decide_eq_true_2.
Qed.

Lemma replaced_blocks_nil (src : gmap text text)
    (ps : list (Re.piece item_match)) :
  replaced_blocks src ps = [] ->
  Forall (fun m => replacement src m = None) (hits ps).
Proof.
  induction ps as [|[c|m] ps IH]; cbn [replaced_blocks]; [constructor|done|].
  unfold hits. cbn [omap]. destruct (replacement src m) eqn:E; [done|].
  intros H. constructor; [done|]. by apply IH.
Qed.

(** ** C2 *)

(** C2: for every target document, the document is its outer stretches
    (all text outside item blocks, the blocks that are not replaced, and
    the opening and closing tags of the replaced blocks) woven with the
    inner regions of the replaced blocks, the substituted text is the
    same outer stretches woven with the inner regions written for those
    blocks, and after the overall formatting both the formatted input and
    the merged output are the formatted outer stretches, byte for byte
    the same on both sides, woven with inner regions.  A block without
    identifier, a block whose identifier the catalog lacks and a block
    whose normalized inner content equals that of its catalog entry are
    not replaced and are emitted as they were matched; with no replaced
    block the merged output is the formatted input. *)
Theorem merge_changes_only_replaced_inner (os : platform)
    (src : gmap text text) (used : gset text) (original : text) :
  let ps := Re.scan match_item_block original in
  let outer := outer_texts src ps in
  let rep := replaced_blocks src ps in
  let merged := tar_modified (update_tar_file os (Some original) src used) in
  original = weave outer (map (fun mc => inner (fst mc)) rep)
  /\ fst (sub_items os src used ps)
     = weave outer (map (fun mc => written_inner os (fst mc) (snd mc)) rep)
  /\ (exists inners_in inners_out : list text,
        length inners_in = length rep
        /\ length inners_out = length rep
        /\ normalize_overall original
           = weave (map normalize_overall outer) inners_in
        /\ merged = weave (map normalize_overall outer) inners_out)
  /\ (forall m,
        m ∈ Re.finditer match_item_block original ->
        search_identifier (attrs m) = None
        \/ (exists ident,
              search_identifier (attrs m) = Some ident
              /\ src !! ident = None)
        \/ (exists ident c,
              search_identifier (attrs m) = Some ident
              /\ src !! ident = Some c
              /\ normalize_whitespace (inner m) = normalize_whitespace c) ->
        replacement src m = None
        /\ piece_out os src (Re.Hit m) = group0 m)
  /\ (rep = [] -> merged = normalize_overall original).
Proof.
  cbv zeta.
  set (ps := Re.scan match_item_block original).
  assert (Forall is_block (hits ps)) as Hb by apply scan_hits_blocks.
  assert (original
          = weave (outer_texts src ps)
                  (map (fun mc => inner (fst mc)) (replaced_blocks src ps)))
    as Horig.
  { rewrite weave_original by done. symmetry. apply scan_item_text. }
  assert (fst (sub_items os src used ps)
          = weave (outer_texts src ps)
                  (map (fun mc => written_inner os (fst mc) (snd mc))
                       (replaced_blocks src ps))) as Hsub.
  { by rewrite weave_substituted, sub_items_fst. }
  split; [done|]. split; [done|]. split; [|split].
  - destruct (weave_normalize_overall (outer_texts src ps)
                (map (fun mc => inner (fst mc)) (replaced_blocks src ps)))
      as (hin & Hlin & Hin).
    { apply outer_texts_framed. }
    { by rewrite outer_texts_length, length_map. }
    destruct (weave_normalize_overall (outer_texts src ps)
                (map (fun mc => written_inner os (fst mc) (snd mc))
                     (replaced_blocks src ps)))
      as (hout & Hlout & Hout).
    { apply outer_texts_framed. }
    { by rewrite outer_texts_length, length_map. }
    exists hin, hout. rewrite length_map in Hlin, Hlout.
    split; [done|]. split; [done|]. split.
    + by rewrite Horig at 1.
    + rewrite update_tar_file_modified. fold ps.
      by rewrite <- sub_items_fst with (used := used), Hsub.
  - intros m _ H. apply replacement_None_cases in H.
    split; [done|]. simpl. by rewrite H.
  - intros Hrep. apply update_tar_file_unchanged.
    by apply replaced_blocks_nil.
Qed.

(** * A second run on the output of a first run *)

Lemma only_lf_app (a b : text) : only_lf (a ++ b) <-> only_lf a /\ only_lf b.
Proof. unfold only_lf. rewrite forallb_app, andb_true_iff. done. Qed.

Lemma only_lf_cons (c : N) (s : text) :
  only_lf (c :: s) <-> (is_linebreak c = true -> c = LF) /\ only_lf s.
Proof.
  unfold only_lf. simpl. rewrite andb_true_iff, orb_true_iff, negb_true_iff.
  rewrite N.eqb_eq. split; intros [H1 H2]; (split; [|done]).
  - intros Hc. destruct H1; congruence.
  - destruct (is_linebreak c); [right; by apply H1|by left].
Qed.

Lemma only_lf_no_break (l : text) :
  only_lf l -> LF ∉ l ->
  forallb (fun c => negb (is_linebreak c)) l = true.
Proof.
  induction l as [|c l IH]; [done|].
  intros [Hc Hl]%only_lf_cons Hn. simpl.
  rewrite IH; [|done|set_solver]. rewrite andb_true_r.
  destruct (is_linebreak c) eqn:E; [|done].
  specialize (Hc eq_refl). subst. set_solver.
Qed.

Lemma only_lf_no_cr (s : text) : only_lf s -> CR ∉ s.
Proof.
  induction s as [|c s IH]; [set_solver|].
  intros [Hc Hs]%only_lf_cons. apply not_elem_of_cons. split; [|by apply IH].
  intros <-. by specialize (Hc eq_refl).
Qed.

Lemma first_line (s : text) :
  exists l rest,
    s = l ++ rest /\ LF ∉ l /\ (rest = [] \/ exists s', rest = LF :: s').
Proof.
  induction s as [|c s (l & rest & -> & Hl & Hrest)].
  - exists [], []. split; [done|]. split; [set_solver|by left].
  - destruct (N.eqb_spec c LF) as [->|Hc].
    + exists [], (LF :: l ++ rest). split; [done|].
      split; [set_solver|]. right. by eexists.
    + exists (c :: l), rest. split; [done|]. split; [set_solver|done].
Qed.

Lemma scan_item_line (bol : bool) (l tail : text) :
  LF ∉ l ->
  match_item_block bol (l ++ tail) = None ->
  tail = [] \/ (exists s', tail = LF :: s') ->
  scan_at match_item_block bol (l ++ tail)
  = map Re.Lit l
      ++ match tail with
         | [] => []
         | c :: s' => Re.Lit c :: scan_at match_item_block true s'
         end.
Proof.
  revert bol; induction l as [|c l IH]; intros bol Hl Hm Htail.
  - cbn [app map]. destruct Htail as [->|[s' ->]].
    + apply scan_at_nil, match_item_block_consumes.
    + by rewrite (scan_at_lit _ match_item_block_consumes _ _ _ Hm).
  - rewrite <- app_comm_cons in *.
    rewrite (scan_at_lit _ match_item_block_consumes _ _ _ Hm).
    assert ((c =? LF)%N = false) as ->.
    { apply N.eqb_neq. set_solver. }
    cbn [map app]. f_equal. apply IH; [set_solver|done|done].
Qed.

Lemma hits_lits {A : Type} (l : text) (ps : list (Re.piece A)) :
  hits (map Re.Lit l ++ ps) = hits ps.
Proof. induction l as [|c l IH]; [done|]. simpl. apply IH. Qed.

Lemma flat_map_lits (src : gmap text text) (l : text)
    (ps : list (Re.piece item_match)) :
  flat_map (piece_out Posix src) (map Re.Lit l ++ ps)
  = l ++ flat_map (piece_out Posix src) ps.
Proof. induction l as [|c l IH]; [done|]. simpl. by rewrite IH. Qed.

(** ** The formatting, line by line *)

Lemma reindent_first_line (l x : text) :
  forallb (fun c => negb (is_linebreak c)) l = true ->
  reindent (l ++ LF :: x) []
  = reindent_line [] l
      ++ match x with
         | [] => []
         | _ :: _ => LF :: reindent x []
         end.
Proof.
  intros Hl. rewrite !reindent_eq, splitlines_line_break by done.
  cbn [map]. destruct x as [|c x].
  - by rewrite join_single, app_nil_r.
  - rewrite join_cons_ne; [done|].
    intros H%fmap_nil_inv. by apply splitlines_nil in H.
Qed.

Lemma reindent_one_line (l : text) :
  forallb (fun c => negb (is_linebreak c)) l = true ->
  reindent l [] = reindent_line [] l.
Proof.
  intros Hl. destruct l as [|c l]; [done|].
  by rewrite reindent_eq, splitlines_one_line.
Qed.

Lemma continue_lines_char (c : N) (s : text) :
  is_linebreak c = false ->
  continue_lines (c :: s)
  = match continue_lines s with
    | [] => [[c]]
    | h :: t => (c :: h) :: t
    end.
Proof.
  intros Hc. unfold continue_lines. rewrite splitlines_char by done.
  by destruct (splitlines s).
Qed.

Lemma reindent_continued_char (c : N) (s : text) :
  is_linebreak c = false ->
  reindent_continued (c :: s) = c :: reindent_continued s.
Proof.
  intros Hc. unfold reindent_continued. rewrite continue_lines_char by done.
  assert (continue_lines s <> []) as Hne.
  { unfold continue_lines. by destruct (splitlines s). }
  by destruct (continue_lines s).
Qed.

Lemma reindent_continued_app (w s : text) :
  forallb (fun c => negb (is_linebreak c)) w = true ->
  reindent_continued (w ++ s) = w ++ reindent_continued s.
Proof.
  induction w as [|c w IH]; [done|]. simpl.
  intros [Hc%negb_true_iff Hw]%andb_prop.
  by rewrite reindent_continued_char, IH.
Qed.

Lemma reindent_continued_break (x : text) :
  reindent_continued (LF :: x)
  = match x with
    | [] => []
    | _ :: _ => LF :: reindent x []
    end.
Proof.
  unfold reindent_continued, continue_lines.
  rewrite splitlines_break by done. change (after_break LF x) with x.
  destruct x as [|c x]; [done|]. cbn [app].
  destruct (splitlines (c :: x)) eqn:E; [by apply splitlines_nil in E|].
  by rewrite reindent_eq, E.
Qed.

Lemma reindent_continued_nil : reindent_continued [] = [].
Proof. done. Qed.

Lemma split_on_ne (sep : N) (s : text) : split_on sep s <> [].
Proof.
  induction s as [|c s IH]; [done|]. simpl.
  destruct (c =? sep)%N; [done|]. by destruct (split_on sep s).
Qed.

Lemma empty_blank_but_last_ne (ls : list text) :
  ls <> [] -> empty_blank_but_last ls <> [].
Proof. destruct ls as [|l [|l' ls]]; done. Qed.

Lemma forallb_isspace_mid (l : text) (g : N) (x : text) :
  isspace g = false -> forallb isspace (l ++ g :: x) = false.
Proof.
  intros Hg. rewrite forallb_app. simpl. rewrite Hg.
  by rewrite andb_false_r.
Qed.

Lemma nonspace_nonbreak (g : N) : isspace g = false -> is_linebreak g = false.
Proof.
  intros Hg. destruct (is_linebreak g) eqn:E; [|done].
  apply linebreak_isspace in E. congruence.
Qed.

(** The formatting of an inner region that starts a line and is followed
    by a code point that is not whitespace. *)
Lemma reindent_hole_lines (x : text) (g : N) (b : text) :
  only_lf x -> isspace g = false ->
  reindent (x ++ g :: b) []
  = join [LF] (empty_blank_but_last (split_on LF x))
      ++ g :: reindent_continued b.
Proof.
  intros Hx Hg. remember (length x) as n eqn:Hn. revert x Hn Hx.
  induction n as [n IH] using lt_wf_ind. intros x -> Hx.
  destruct (first_line x) as (l & rest & -> & Hl & Hrest).
  apply only_lf_app in Hx as [Hlf Hrlf].
  pose proof (only_lf_no_break l Hlf Hl) as Hnb.
  destruct Hrest as [->|[x' ->]].
  - rewrite app_nil_r, split_on_last by done. cbn [empty_blank_but_last].
    rewrite join_single.
    replace (l ++ g :: b) with ((l ++ [g]) ++ b) by by rewrite <- app_assoc.
    rewrite (reindent_app_continued (l ++ [g]) b g);
      [|by rewrite last_snoc|done].
    rewrite reindent_one_line.
    + rewrite reindent_line_nonblank by by apply forallb_isspace_snoc.
      by rewrite <- app_assoc.
    + rewrite forallb_app, Hnb. simpl.
      by rewrite (nonspace_nonbreak g Hg).
  - rewrite <- app_assoc, <- app_comm_cons.
    rewrite reindent_first_line by done.
    rewrite split_on_line by done.
    apply only_lf_cons in Hrlf as [_ Hx'].
    rewrite (IH (length x')); [| |done|done].
    2:{ rewrite length_app. simpl. lia. }
    pose proof (split_on_ne LF x') as Hne.
    destruct (split_on LF x') as [|l1 ls1] eqn:E; [done|].
    change (empty_blank_but_last (l :: l1 :: ls1))
      with (reindent_line [] l :: empty_blank_but_last (l1 :: ls1)).
    rewrite join_cons_ne by by apply empty_blank_but_last_ne.
    destruct (x' ++ g :: b) eqn:E2; [by destruct x'|].
    by rewrite <- !app_assoc.
Qed.

(** The formatting of an inner region inside a line already begun,
    followed by a code point that is not whitespace. *)
Lemma reindent_continued_hole (x : text) (g : N) (b : text) :
  only_lf x -> isspace g = false ->
  reindent_continued (x ++ g :: b)
  = hole_format x ++ g :: reindent_continued b.
Proof.
  intros Hx Hg. unfold hole_format.
  destruct (first_line x) as (l & rest & -> & Hl & Hrest).
  apply only_lf_app in Hx as [Hlf Hrlf].
  pose proof (only_lf_no_break l Hlf Hl) as Hnb.
  destruct Hrest as [->|[x' ->]].
  - rewrite app_nil_r, split_on_last by done. cbn [empty_blank_but_last].
    rewrite join_single, reindent_continued_app by done.
    by rewrite reindent_continued_char by by apply nonspace_nonbreak.
  - apply only_lf_cons in Hrlf as [_ Hx'].
    rewrite <- app_assoc, <- app_comm_cons.
    rewrite reindent_continued_app, reindent_continued_break by done.
    rewrite split_on_line by done.
    rewrite (reindent_hole_lines x' g b) by done.
    destruct (x' ++ g :: b) eqn:E2; [by destruct x'|].
    rewrite join_cons_ne by apply empty_blank_but_last_ne, split_on_ne.
    by rewrite <- !app_assoc.
Qed.

(** ** What the formatting keeps of an inner region *)

Lemma split_on_first_starts (s l : text) (ls : list text) :
  split_on LF s = l :: ls -> starts_word l = starts_word s.
Proof.
  destruct s as [|c s]; [by intros [= <- _]|]. simpl.
  destruct (N.eqb_spec c LF) as [->|].
  - by intros [= <- _].
  - destruct (split_on LF s); by intros [= <- _].
Qed.

Lemma words_split_on (s : text) :
  words s = concat (map words (split_on LF s)).
Proof.
  induction s as [|c s IH]; [done|]. simpl split_on.
  destruct (N.eqb_spec c LF) as [->|Hc].
  - by rewrite words_space.
  - pose proof (split_on_ne LF s) as Hne.
    destruct (split_on LF s) as [|l ls] eqn:E; [done|].
    cbn [map concat] in *. destruct (isspace c) eqn:Hs.
    + by rewrite !words_space.
    + rewrite !words_nonspace by done.
      rewrite (split_on_first_starts _ _ _ E), IH.
      destruct (starts_word s) eqn:Hst; [|done].
      rewrite <- (split_on_first_starts _ _ _ E) in Hst.
      pose proof (words_starts_nonempty l Hst).
      by destruct (words l).
Qed.

Lemma words_empty_blank_but_last (ls : list text) :
  map words (empty_blank_but_last ls) = map words ls.
Proof.
  induction ls as [|l ls IH]; [done|]. destruct ls as [|l' ls]; [done|].
  change (empty_blank_but_last (l :: l' :: ls))
    with (reindent_line [] l :: empty_blank_but_last (l' :: ls)).
  cbn [map] in *. by rewrite IH, words_reindent_line.
Qed.

(** The formatted inner region has the words of the inner region. *)
Lemma words_hole_format (x : text) : words (hole_format x) = words x.
Proof.
  unfold hole_format. rewrite (words_split_on x).
  destruct (split_on LF x) as [|h t]; [done|].
  rewrite words_join_lines. cbn [map].
  by rewrite words_empty_blank_but_last.
Qed.

Lemma strip_prefix_app_sep (p a b r : text) (sep : N) :
  sep ∉ p ->
  strip_prefix p (a ++ sep :: b) = Some r ->
  exists r', strip_prefix p a = Some r'.
Proof.
  revert a; induction p as [|x p IH]; intros a Hp H; [by eexists|].
  destruct a as [|c a].
  - simpl in H. destruct (N.eqb_spec x sep) as [->|]; [set_solver|done].
  - rewrite <- app_comm_cons, strip_prefix_cons in H.
    rewrite strip_prefix_cons. destruct (x =? c)%N; [|done].
    apply IH; [set_solver|done].
Qed.

Lemma find_sub_None_nil (pat : text) : pat <> [] -> find_sub pat [] = None.
Proof. by destruct pat. Qed.

Lemma find_sub_None_app_sep (pat a b : text) (sep : N) :
  pat <> [] -> sep ∉ pat ->
  find_sub pat a = None -> find_sub pat b = None ->
  find_sub pat (a ++ sep :: b) = None.
Proof.
  intros Hne Hsep Ha Hb. induction a as [|c a IH].
  - cbn [app find_sub]. rewrite Hb.
    destruct pat as [|x pat]; [done|]. rewrite strip_prefix_cons.
    destruct (N.eqb_spec x sep) as [->|]; [set_solver|done].
  - apply find_sub_None_cons in Ha as [Hc Ha].
    rewrite <- app_comm_cons. cbn [find_sub]. rewrite (IH Ha).
    destruct (strip_prefix pat (c :: a ++ sep :: b)) as [r|] eqn:E; [|done].
    rewrite app_comm_cons in E.
    apply strip_prefix_app_sep in E as [r' E]; [congruence|done].
Qed.

Lemma find_sub_None_prefix (pat a b : text) :
  find_sub pat (a ++ b) = None -> find_sub pat a = None.
Proof.
  induction a as [|c a IH].
  - destruct pat as [|x pat]; [|done]. by destruct b.
  - rewrite <- app_comm_cons. intros [Hc Ha]%find_sub_None_cons.
    cbn [find_sub]. rewrite (IH Ha).
    destruct (strip_prefix pat (c :: a)) as [r|] eqn:E; [|done].
    apply strip_prefix_app_Some with (x := b) in E.
    rewrite <- app_comm_cons in E. congruence.
Qed.

Lemma find_sub_None_join (pat : text) (ls : list text) :
  pat <> [] -> LF ∉ pat ->
  Forall (fun l => find_sub pat l = None) ls ->
  find_sub pat (join [LF] ls) = None.
Proof.
  intros Hne Hlf. induction 1 as [|l ls Hl Hls IH].
  - by apply find_sub_None_nil.
  - destruct ls as [|l' ls]; [done|]. rewrite join_cons2.
    change ([LF] ++ ?x) with (LF :: x). by apply find_sub_None_app_sep.
Qed.

Lemma find_sub_None_split_on (pat s : text) :
  find_sub pat s = None ->
  Forall (fun l => find_sub pat l = None) (split_on LF s).
Proof.
  remember (length s) as n eqn:Hn. revert s Hn.
  induction n as [n IH] using lt_wf_ind. intros s -> H.
  destruct (first_line s) as (l & rest & -> & Hl & Hrest).
  destruct Hrest as [->|[s' ->]].
  - rewrite app_nil_r in *. rewrite split_on_last by done. by constructor.
  - rewrite split_on_line by done. constructor.
    + by eapply find_sub_None_prefix.
    + apply (IH (length s')); [rewrite length_app; simpl; lia|done|].
      apply find_sub_None_suffix in H.
      by apply find_sub_None_cons in H as [_ H].
Qed.

Lemma find_sub_None_reindent_line (pat ind l : text) :
  pat <> [] -> find_sub pat l = None ->
  find_sub pat (reindent_line ind l) = None
  \/ reindent_line ind l = ind ++ l.
Proof.
  intros Hne Hl. unfold reindent_line. destruct (strip l); [|by right].
  left. by apply find_sub_None_nil.
Qed.

Lemma find_sub_None_empty_blank (pat : text) (ls : list text) :
  pat <> [] ->
  Forall (fun l => find_sub pat l = None) ls ->
  Forall (fun l => find_sub pat l = None) (empty_blank_but_last ls).
Proof.
  intros Hne. induction 1 as [|l ls Hl Hls IH]; [constructor|].
  destruct ls as [|l' ls]; [by constructor|].
  change (empty_blank_but_last (l :: l' :: ls))
    with (reindent_line [] l :: empty_blank_but_last (l' :: ls)).
  constructor; [|done].
  destruct (find_sub_None_reindent_line pat [] l Hne Hl) as [H|H]; [done|].
  by rewrite H.
Qed.

(** A literal free of line feeds that is absent from an inner region is
    absent from the formatted inner region. *)
Lemma find_sub_None_hole_format (pat x : text) :
  pat <> [] -> LF ∉ pat ->
  find_sub pat x = None -> find_sub pat (hole_format x) = None.
Proof.
  intros Hne Hlf Hx. unfold hole_format.
  pose proof (find_sub_None_split_on pat x Hx) as Hall.
  destruct (split_on LF x) as [|h t]; [by apply find_sub_None_nil|].
  inversion Hall as [|? ? Hh Ht]; subst.
  apply find_sub_None_join; [done|done|].
  constructor; [done|]. by apply find_sub_None_empty_blank.
Qed.

Lemma splitlines_first_prefix (s l : text) (ls : list text) :
  splitlines s = l :: ls -> exists r, s = l ++ r.
Proof.
  revert l ls; induction s as [|c s IH]; intros l ls; [done|].
  destruct (is_linebreak c) eqn:Hc.
  - rewrite splitlines_break by done. intros [= <- _]. by eexists.
  - rewrite splitlines_char by done.
    destruct (splitlines s) as [|l' ls'] eqn:E.
    + intros [= <- _]. apply splitlines_nil in E as ->. by exists [].
    + intros [= <- _]. destruct (IH _ _ eq_refl) as [r ->]. by exists r.
Qed.

Lemma find_sub_None_after_break (pat : text) (c : N) (s : text) :
  find_sub pat (c :: s) = None -> find_sub pat (after_break c s) = None.
Proof.
  intros [_ H]%find_sub_None_cons. unfold after_break.
  destruct (c =? CR)%N; [|done]. destruct s as [|d s]; [done|].
  destruct (d =? LF)%N; [|done]. by apply find_sub_None_cons in H as [_ H].
Qed.

Lemma find_sub_None_splitlines (pat s : text) :
  pat <> [] -> find_sub pat s = None ->
  Forall (fun l => find_sub pat l = None) (splitlines s).
Proof.
  intros Hne.
  induction s as [| c s Hc IH | c s Hc IH] using splitlines_ind; intros H.
  - constructor.
  - rewrite splitlines_break by done. constructor.
    + by apply find_sub_None_nil.
    + by apply IH, find_sub_None_after_break.
  - rewrite splitlines_char by done.
    pose proof (find_sub_None_cons _ _ _ H) as [_ Hs].
    specialize (IH Hs).
    destruct (splitlines s) as [|l ls] eqn:E.
    + apply splitlines_nil in E as ->. by constructor.
    + destruct (splitlines_first_prefix _ _ _ E) as [r ->].
      inversion IH; subst. constructor; [|done].
      rewrite app_comm_cons in H. by eapply find_sub_None_prefix.
Qed.

Lemma find_sub_None_blank_app (pat w l : text) (p : N) :
  head pat = Some p -> isspace p = false ->
  forallb isspace w = true ->
  find_sub pat l = None -> find_sub pat (w ++ l) = None.
Proof.
  intros Hp Hs Hw Hl. induction w as [|c w IH]; [done|].
  simpl in Hw. apply andb_prop in Hw as [Hc Hw].
  rewrite <- app_comm_cons. cbn [find_sub]. rewrite (IH Hw).
  destruct pat as [|x pat]; [done|]. simpl in Hp. injection Hp as ->.
  rewrite strip_prefix_cons.
  destruct (N.eqb_spec p c) as [->|]; [congruence|done].
Qed.

(** The inner region written for a replaced block holds no closing item
    tag when the catalog content holds none. *)
Lemma find_sub_None_written_inner (m : item_match) (c : text) :
  forallb is_indent (indent m) = true ->
  find_sub (lit "</Item>") c = None ->
  find_sub (lit "</Item>") (written_inner Posix m c) = None.
Proof.
  intros Hind%is_indent_isspace Hc. unfold written_inner. cbn [linesep].
  change ([LF] ++ ?x) with ([] ++ LF :: x).
  apply find_sub_None_app_sep; [done| |done|].
  { vm_compute. set_solver. }
  apply find_sub_None_app_sep; [done| |..].
  { vm_compute. set_solver. }
  - rewrite reindent_eq. apply find_sub_None_join; [done| |].
    { vm_compute. set_solver. }
    apply Forall_map.
    eapply Forall_impl;
      [by apply (find_sub_None_splitlines (lit "</Item>") c)|].
    intros l Hl. cbv beta in *.
    destruct (find_sub_None_reindent_line (lit "</Item>") (indent m ++ [TAB])
                l) as [H|H]; [done|done|done|].
    rewrite H. apply (find_sub_None_blank_app _ _ _ LT); [done|done| |done].
    by rewrite forallb_app, Hind.
  - rewrite <- (app_nil_r (indent m)).
    by apply (find_sub_None_blank_app _ _ _ LT).
Qed.

Lemma find_sub_app_first (pat b a : text) (p : N) :
  head pat = Some p ->
  forallb (fun c => negb (c =? p)%N) (tail pat) = true ->
  find_sub pat b = None ->
  find_sub pat (b ++ pat ++ a) = Some (b, a).
Proof.
  intros Hp Ht Hb. induction b as [|c b IH].
  - cbn [app]. destruct (pat ++ a) eqn:E; cbn [find_sub]; rewrite <- ?E;
      by rewrite strip_prefix_app.
  - apply find_sub_None_cons in Hb as [Hc Hb].
    rewrite <- app_comm_cons. cbn [find_sub]. rewrite (IH Hb).
    rewrite app_comm_cons.
    destruct pat as [|x pat]; [done|]. simpl in Hp. injection Hp as ->.
    rewrite <- (app_comm_cons pat a p).
    by rewrite strip_prefix_straddle.
Qed.

(** A text that is spelled like a block is matched as that block. *)
Lemma match_item_block_intro (ind att inn rest : text) :
  forallb is_indent ind = true ->
  forallb not_gt att = true ->
  find_sub (lit "</Item>") inn = None ->
  exists m,
    match_item_block true
      (ind ++ lit "<Item" ++ att ++ [GT] ++ inn ++ lit "</Item>" ++ rest)
    = Some (m, rest)
    /\ indent m = ind /\ attrs m = att /\ inner m = inn.
Proof.
  intros Hi Ha Hn. unfold match_item_block.
  rewrite (span_all_app is_indent ind) by done.
  change (lit "<Item" ++ ?x) with (LT :: (lit "Item" ++ x)).
  rewrite (span_stop is_indent LT) by done. cbn [fst snd].
  rewrite app_nil_r.
  change (LT :: (lit "Item" ++ ?x)) with (lit "<Item" ++ x).
  rewrite strip_prefix_app.
  rewrite (span_all_app not_gt att) by done.
  change ([GT] ++ ?x) with (GT :: x).
  rewrite (span_stop not_gt GT) by done. cbn [fst snd]. rewrite app_nil_r.
  rewrite (find_sub_app_first _ _ _ LT) by done.
  eexists. split; [done|]. done.
Qed.

(** ** The substituted text after the line ends are unified *)

Lemma unify_no_cr_app (g y : text) :
  CR ∉ g ->
  replace_cr (replace_crlf (g ++ y)) = g ++ replace_cr (replace_crlf y).
Proof.
  intros Hg. rewrite replace_crlf_app.
  - by rewrite replace_cr_app, replace_crlf_no_cr, replace_cr_no_cr.
  - left. intros H. apply Hg. apply last_Some in H as [g' ->]. set_solver.
Qed.

Lemma unify_crlf (y : text) :
  replace_cr (replace_crlf (CR :: LF :: y))
  = LF :: replace_cr (replace_crlf y).
Proof. by rewrite replace_crlf_cons. Qed.

Lemma is_indent_no_break (ind : text) :
  forallb is_indent ind = true ->
  forallb (fun c => negb (is_linebreak c)) ind = true.
Proof.
  induction ind as [|c ind IH]; [done|]. simpl.
  intros [Hc Hi]%andb_prop. rewrite IH by done.
  unfold is_indent in Hc.
  apply orb_prop in Hc as [->%N.eqb_eq| ->%N.eqb_eq]; done.
Qed.

Lemma reindent_no_cr (c ind : text) :
  forallb is_indent ind = true -> CR ∉ reindent c (ind ++ [TAB]).
Proof.
  intros Hi. rewrite reindent_eq.
  intros [Hin|(l & Hl & Hin)]%elem_of_join; [set_solver|].
  assert (forallb (fun c => negb (is_linebreak c)) (ind ++ [TAB]) = true)
    as Hnb by by rewrite forallb_app, is_indent_no_break.
  pose proof (reindent_lines_no_break c _ Hnb) as Hall.
  rewrite Forall_forall in Hall. revert Hin.
  by apply no_break_not_elem, Hall.
Qed.

Lemma new_block_unified (os : platform) (m : item_match) (c rest : text) :
  forallb is_indent (indent m) = true -> CR ∉ attrs m ->
  replace_cr (replace_crlf (new_block os m c ++ rest))
  = new_block Posix m c ++ replace_cr (replace_crlf rest).
Proof.
  intros Hi Ha.
  assert (CR ∉ indent m) as Hci.
  { apply no_break_not_elem; [done|by apply is_indent_no_break]. }
  assert (CR ∉ reindent c (indent m ++ [TAB])) as Hcr
    by by apply reindent_no_cr.
  assert (CR ∉ lit "<Item") as H1 by (vm_compute; set_solver).
  assert (CR ∉ lit "</Item>") as H2 by (vm_compute; set_solver).
  assert (CR ∉ [GT]) as H3 by (vm_compute; set_solver).
  unfold new_block. destruct os; cbn [linesep].
  - rewrite <- !app_assoc.
    repeat (rewrite unify_no_cr_app by (done || set_solver)). done.
  - rewrite <- !app_assoc.
    do 4 (rewrite unify_no_cr_app by done).
    change ([CR; LF] ++ ?x) with (CR :: LF :: x) at 1. rewrite unify_crlf.
    rewrite unify_no_cr_app by done.
    change ([CR; LF] ++ ?x) with (CR :: LF :: x). rewrite unify_crlf.
    do 2 (rewrite unify_no_cr_app by done). done.
Qed.

Lemma substituted_unified (os : platform) (src : gmap text text)
    (ps : list (Re.piece item_match)) :
  Forall is_block (hits ps) ->
  CR ∉ flat_map piece_text ps ->
  replace_cr (replace_crlf (flat_map (piece_out os src) ps))
  = flat_map (piece_out Posix src) ps.
Proof.
  induction ps as [|[c|m] ps IH]; intros Hb Hcr; [done| |].
  - cbn [flat_map piece_out piece_text] in *.
    rewrite unify_no_cr_app by set_solver. by rewrite IH by set_solver.
  - unfold hits in Hb. cbn [omap] in Hb.
    inversion Hb as [|? ? (Hg & Hi & _) Hb']; subst.
    cbn [flat_map piece_out piece_text] in *.
    destruct (replacement src m) as [c|].
    + rewrite new_block_unified; [|done|].
      * rewrite IH; [done|done|set_solver].
      * rewrite Hg in Hcr. set_solver.
    + rewrite unify_no_cr_app by set_solver.
      rewrite IH; [done|done|set_solver].
Qed.

(** With line feeds as the only line boundaries of the document, the
    merged text is the substituted text, written with line feeds,
    re-indented with an empty indent. *)
Lemma merged_reindent_sub_text (os : platform) (src : gmap text text)
    (used : gset text) (d : text) :
  only_lf d ->
  tar_modified (update_tar_file os (Some d) src used)
  = reindent (sub_text src true d) [].
Proof.
  intros Hd. rewrite update_tar_file_modified. unfold normalize_overall.
  rewrite scan_scan_at, substituted_unified; [done| |].
  - apply scan_hits_blocks.
  - rewrite scan_item_text. by apply only_lf_no_cr.
Qed.

Lemma span_stop_app (p : N -> bool) (l : text) (c : N) (t : text) :
  p c = false ->
  span p (l ++ c :: t) = (fst (span p l), snd (span p l) ++ c :: t).
Proof.
  intros Hc. induction l as [|x l IH].
  - cbn [app]. by rewrite span_stop.
  - rewrite <- app_comm_cons. cbn [span]. destruct (p x); [|done].
    rewrite IH. by destruct (span p l).
Qed.

Lemma find_sub_occurs (pat a b : text) : find_sub pat (a ++ pat ++ b) <> None.
Proof.
  induction a as [|c a IH].
  - cbn [app]. destruct (pat ++ b) eqn:E; cbn [find_sub]; rewrite <- ?E;
      by rewrite strip_prefix_app.
  - rewrite <- app_comm_cons. cbn [find_sub].
    destruct (strip_prefix pat (c :: a ++ pat ++ b)); [done|].
    by destruct (find_sub pat (a ++ pat ++ b)) as [[? ?]|].
Qed.

Lemma scan_item_hit (s : text) (m : item_match) (rest : text) :
  match_item_block true s = Some (m, rest) ->
  scan_at match_item_block true s
  = Re.Hit m :: scan_at match_item_block false rest.
Proof.
  intros E. rewrite (scan_at_hit _ match_item_block_consumes _ _ _ _ E).
  by rewrite (match_item_block_bol_after _ _ _ _ E).
Qed.

(** The text written for a matched block: its opening tag, an inner
    region without closing item tag that is in sync with the catalog
    entry of the block, and the closing tag. *)
Lemma piece_out_shape (src : gmap text text) (m : item_match) :
  map_Forall (fun _ c => find_sub (lit "</Item>") c = None) src ->
  is_block m -> only_lf (inner m) ->
  exists x,
    piece_out Posix src (Re.Hit m) = open_tag m ++ x ++ lit "</Item>"
    /\ only_lf x
    /\ find_sub (lit "</Item>") x = None
    /\ (forall ident c,
          search_identifier (attrs m) = Some ident ->
          src !! ident = Some c -> words x = words c).
Proof.
  intros Hsrc (Hg & Hi & Ha & Hn) Hlf. cbn [piece_out].
  destruct (replacement src m) as [c|] eqn:E.
  - exists (written_inner Posix m c).
    assert (exists ident, search_identifier (attrs m) = Some ident
                          /\ src !! ident = Some c) as (ident & Hs & Hc).
    { unfold replacement in E.
      destruct (search_identifier (attrs m)) as [i|]; [|done].
      destruct (src !! i) as [c'|] eqn:Ec; [|done].
      destruct (bool_decide _); [done|]. injection E as <-. by exists i. }
    split; [|split; [|split]].
    + unfold new_block, open_tag, written_inner. by rewrite <- !app_assoc.
    + unfold written_inner. cbn [linesep].
      rewrite !only_lf_app. split; [done|]. split; [|split; [done|]].
      * unfold only_lf. rewrite forallb_forall. intros x Hx.
        destruct (is_linebreak x) eqn:Ex; [|done]. simpl.
        apply N.eqb_eq. rewrite reindent_eq in Hx.
        apply list_elem_of_In, elem_of_join in Hx as [Hx|(l & Hl & Hx)];
          [set_solver|].
        assert (forallb (fun c => negb (is_linebreak c)) (indent m ++ [TAB])
                = true) as Hnb by by rewrite forallb_app, is_indent_no_break.
        pose proof (reindent_lines_no_break c _ Hnb) as Hall.
        rewrite Forall_forall in Hall. exfalso. revert Hx.
        by apply no_break_not_elem, Hall.
      * unfold only_lf. rewrite forallb_forall. intros x Hx.
        pose proof (is_indent_no_break _ Hi) as Hnb.
        rewrite forallb_forall in Hnb. by rewrite (Hnb x Hx).
    + apply find_sub_None_written_inner; [done|]. by apply (Hsrc ident).
    + intros i c' Hs' Hc'. assert (c' = c) as -> by congruence.
      unfold written_inner. by apply words_written_inner.
  - exists (inner m). split; [|split; [done|split; [done|]]].
    + rewrite Hg. unfold open_tag. by rewrite <- !app_assoc.
    + intros ident c Hs Hc. unfold replacement in E. rewrite Hs, Hc in E.
      destruct (bool_decide _) eqn:Eb; [|done].
      apply bool_decide_eq_true in Eb.
      by apply normalize_whitespace_eq_words.
Qed.

Lemma hits_line_then (bol : bool) (l x : text) (P : item_match -> Prop) :
  let tail := match x with
              | [] => []
              | _ :: _ => LF :: reindent x []
              end in
  LF ∉ l ->
  match_item_block bol (l ++ tail) = None ->
  Forall P (hits (scan_at match_item_block true (reindent x []))) ->
  Forall P (hits (scan_at match_item_block bol (l ++ tail))).
Proof.
  intros tail Hl Hm Hx. rewrite scan_item_line; [|done|done|].
  - rewrite hits_lits. subst tail. destruct x; [constructor|]. done.
  - subst tail. destruct x; [by left|right; by eexists].
Qed.

(** A line that does not begin with the item opening is not the start
    of a block. *)
Lemma match_item_block_not_opened (l tail : text) :
  opens_item l = false ->
  tail = [] \/ (exists s', tail = LF :: s') ->
  match_item_block true (l ++ tail) = None.
Proof.
  unfold opens_item. intros Hl Htail. unfold match_item_block.
  destruct (strip_prefix (lit "<Item") (snd (span is_indent l)))
    as [r|] eqn:Hno; [done|].
  destruct Htail as [->|[s' ->]].
  - rewrite app_nil_r. destruct (span is_indent l) as [ind r0] eqn:E.
    cbn [snd] in Hno. by rewrite Hno.
  - rewrite span_stop_app by done.
    destruct (strip_prefix _ (snd (span is_indent l) ++ LF :: s')) eqn:E2;
      [|done].
    apply strip_prefix_app_sep in E2 as [r' E2]; [congruence|].
    vm_compute. set_solver.
Qed.

(** ** What the formatting keeps of a continued text *)

Lemma forallb_after_break (p : N -> bool) (c : N) (s : text) :
  forallb p s = true -> forallb p (after_break c s) = true.
Proof.
  intros H. unfold after_break. destruct (c =? CR)%N; [|done].
  destruct s as [|d s]; [done|]. destruct (d =? LF)%N; [|done].
  simpl in H. by apply andb_prop in H as [_ H].
Qed.

Lemma forallb_splitlines (p : N -> bool) (s : text) :
  forallb p s = true ->
  Forall (fun l => forallb p l = true) (splitlines s).
Proof.
  induction s as [| c s Hc IH | c s Hc IH] using splitlines_ind; intros H.
  - constructor.
  - rewrite splitlines_break by done. simpl in H.
    apply andb_prop in H as [_ H]. constructor; [done|].
    by apply IH, forallb_after_break.
  - rewrite splitlines_char by done. simpl in H.
    apply andb_prop in H as [Hp H]. specialize (IH H).
    destruct (splitlines s) as [|l ls].
    + constructor; [|done]. simpl. by rewrite Hp.
    + inversion IH; subst. constructor; [|done]. simpl. by rewrite Hp.
Qed.

Lemma forallb_split_on (p : N -> bool) (s : text) :
  forallb p s = true ->
  Forall (fun l => forallb p l = true) (split_on LF s).
Proof.
  induction s as [|c s IH]; intros H; [by repeat constructor|].
  simpl in H. apply andb_prop in H as [Hp H]. specialize (IH H).
  simpl. destruct (c =? LF)%N.
  - by constructor.
  - destruct (split_on LF s) as [|l ls].
    + constructor; [|done]. simpl. by rewrite Hp.
    + inversion IH; subst. constructor; [|done]. simpl. by rewrite Hp.
Qed.

Lemma forallb_join (p : N -> bool) (ls : list text) :
  p LF = true ->
  Forall (fun l => forallb p l = true) ls ->
  forallb p (join [LF] ls) = true.
Proof.
  intros Hp. induction 1 as [|l ls Hl Hls IH]; [done|].
  destruct ls as [|l' ls]; [by rewrite join_single|].
  rewrite join_cons2, !forallb_app, Hl, IH. simpl. by rewrite Hp.
Qed.

Lemma forallb_reindent_lines (p : N -> bool) (ls : list text) :
  Forall (fun l => forallb p l = true) ls ->
  Forall (fun l => forallb p l = true) (map (reindent_line []) ls).
Proof.
  intros H. apply Forall_map. eapply Forall_impl; [apply H|].
  intros l Hl. simpl. rewrite reindent_line_nil.
  by destruct (forallb isspace l).
Qed.

Lemma forallb_empty_blank_but_last (p : N -> bool) (ls : list text) :
  Forall (fun l => forallb p l = true) ls ->
  Forall (fun l => forallb p l = true) (empty_blank_but_last ls).
Proof.
  induction 1 as [|l ls Hl Hls IH]; [done|]. cbn [empty_blank_but_last].
  destruct ls as [|l' ls]; [by constructor|]. constructor; [|done].
  rewrite reindent_line_nil. by destruct (forallb isspace l).
Qed.

(** The code points of a formatted region are those of the region. *)
Lemma forallb_hole_format (p : N -> bool) (x : text) :
  p LF = true -> forallb p x = true -> forallb p (hole_format x) = true.
Proof.
  intros Hp Hx. unfold hole_format.
  pose proof (forallb_split_on p x Hx) as H.
  destruct (split_on LF x) as [|h t]; [done|].
  inversion H; subst. apply forallb_join; [done|].
  constructor; [done|]. by apply forallb_empty_blank_but_last.
Qed.

(** A region on one line is left as it is. *)
Lemma hole_format_one_line (x : text) : LF ∉ x -> hole_format x = x.
Proof.
  intros H. unfold hole_format. rewrite split_on_last by done.
  by rewrite join_single.
Qed.

Lemma reindent_continued_join (s : text) :
  reindent_continued s
  = join [LF] match continue_lines s with
              | [] => []
              | h :: t => h :: map (reindent_line []) t
              end.
Proof.
  unfold reindent_continued. destruct (continue_lines s) as [|h t]; [done|].
  destruct t as [|t1 t]; [by rewrite join_single, app_nil_r|].
  cbn [map]. by rewrite join_cons2.
Qed.

Lemma continue_lines_Forall (P : text -> Prop) (s : text) :
  P [] -> Forall P (splitlines s) -> Forall P (continue_lines s).
Proof.
  intros H0 H. unfold continue_lines.
  destruct (splitlines s); [by repeat constructor|done].
Qed.

Lemma forallb_reindent_continued (p : N -> bool) (s : text) :
  p LF = true -> forallb p s = true ->
  forallb p (reindent_continued s) = true.
Proof.
  intros Hp Hs. rewrite reindent_continued_join. apply forallb_join; [done|].
  pose proof (continue_lines_Forall (fun l => forallb p l = true) s eq_refl
                (forallb_splitlines p s Hs)) as H.
  destruct (continue_lines s) as [|h t]; [done|].
  inversion H; subst. constructor; [done|]. by apply forallb_reindent_lines.
Qed.

Lemma find_sub_None_reindent_continued (pat s : text) :
  pat <> [] -> LF ∉ pat ->
  find_sub pat s = None -> find_sub pat (reindent_continued s) = None.
Proof.
  intros Hne Hlf Hs. rewrite reindent_continued_join.
  apply find_sub_None_join; [done|done|].
  pose proof (continue_lines_Forall (fun l => find_sub pat l = None) s
                (find_sub_None_nil pat Hne)
                (find_sub_None_splitlines pat s Hne Hs)) as H.
  destruct (continue_lines s) as [|h t]; [done|].
  inversion H as [|? ? Hh Ht]; subst. constructor; [done|].
  apply Forall_map. eapply Forall_impl; [apply Ht|].
  intros l Hl. simpl. rewrite reindent_line_nil.
  destruct (forallb isspace l); [by apply find_sub_None_nil|done].
Qed.

(** ** Lines that open no block *)

(** A text in which the scan finds a block holds a closing item tag
    after a [>]. *)
Lemma scan_hit_closed (bol : bool) (s : text) :
  hits (scan_at match_item_block bol s) <> [] ->
  exists x inn rst, s = x ++ GT :: inn ++ lit "</Item>" ++ rst.
Proof.
  apply (scan_at_ind match_item_block match_item_block_consumes
    (fun _ s ps => hits ps <> [] ->
       exists x inn rst, s = x ++ GT :: inn ++ lit "</Item>" ++ rst)).
  - done.
  - intros b c s' _ IH H. destruct (IH H) as (x & inn & rst & ->).
    by exists (c :: x), inn, rst.
  - intros b s' m rest E bol' _ _.
    apply match_item_block_Some in E as (_ & -> & Hg & _).
    exists (indent m ++ lit "<Item" ++ attrs m), (inner m), rest.
    rewrite Hg. by rewrite <- !app_assoc.
Qed.

Lemma span_not_gt_closed (x y : text) :
  find_sub (lit "</Item>") y <> None ->
  exists att r3,
    span not_gt (x ++ GT :: y) = (att, GT :: r3)
    /\ find_sub (lit "</Item>") r3 <> None.
Proof.
  intros Hy. induction x as [|c x (att & r3 & E & H)].
  - exists [], y. split; [|done]. by rewrite app_nil_l, span_stop.
  - rewrite <- app_comm_cons. cbn [span]. destruct (not_gt c) eqn:Ec.
    + exists (c :: att), r3. by rewrite E.
    + exists [], (x ++ GT :: y). split.
      * unfold not_gt in Ec. apply negb_false_iff, N.eqb_eq in Ec.
        by rewrite Ec.
      * intros Hn. apply Hy.
        apply (find_sub_None_suffix _ (x ++ [GT]) y).
        by rewrite <- app_assoc.
Qed.

Lemma opens_item_Some (l : text) :
  opens_item l = true ->
  exists q, l = fst (span is_indent l) ++ lit "<Item" ++ q
            /\ snd (span is_indent l) = lit "<Item" ++ q.
Proof.
  unfold opens_item.
  destruct (strip_prefix (lit "<Item") (snd (span is_indent l)))
    as [q|] eqn:E; [|done].
  intros _. exists q. apply strip_prefix_Some in E. split; [|done].
  by rewrite <- E, span_app.
Qed.

(** After a line that begins with the item opening and opens no block,
    the scan finds no block. *)
Lemma line_none_no_hits (bol : bool) (l s' : text) :
  opens_item l = true ->
  match_item_block true (l ++ LF :: s') = None ->
  hits (scan_at match_item_block bol s') = [].
Proof.
  intros (q & _ & Hq)%opens_item_Some E.
  destruct (hits (scan_at match_item_block bol s')) as [|m ms] eqn:Eh;
    [done|].
  exfalso.
  destruct (scan_hit_closed bol s') as (x & inn & rst & ->);
    [by rewrite Eh|].
  unfold match_item_block in E. rewrite span_stop_app in E by done.
  rewrite Hq, <- app_assoc, strip_prefix_app in E.
  destruct (span_not_gt_closed (q ++ LF :: x) (inn ++ lit "</Item>" ++ rst))
    as (att & r3 & Es & Hr3); [apply find_sub_occurs|].
  rewrite <- app_assoc, <- app_comm_cons in Es. rewrite Es in E.
  by destruct (find_sub (lit "</Item>") r3) as [[? ?]|].
Qed.

Lemma sub_text_no_hits (src : gmap text text) (bol : bool) (s : text) :
  hits (scan_at match_item_block bol s) = [] -> sub_text src bol s = s.
Proof.
  intros H. unfold sub_text. apply flat_map_piece_out_same.
  rewrite H. constructor.
Qed.

Lemma span_all (p : N -> bool) (a : text) :
  forallb p a = true -> span p a = (a, []).
Proof.
  intros H. rewrite <- (app_nil_r a) at 1.
  rewrite span_all_app by done. cbn. by rewrite app_nil_r.
Qed.

(** A line that begins with the item opening and opens no block opens
    none in the formatted text either. *)
Lemma line_none_formatted (l s' : text) :
  only_lf (l ++ LF :: s') -> LF ∉ l ->
  opens_item l = true ->
  match_item_block true (l ++ LF :: s') = None ->
  match_item_block true (l ++ reindent_continued (LF :: s')) = None.
Proof.
  intros Hlf Hl (q & Hlq & Hq)%opens_item_Some E.
  pose proof (span_fst_all is_indent l) as Hind.
  apply only_lf_app in Hlf as [Hllf Hrlf].
  pose proof (only_lf_no_break l Hllf Hl) as Hnb.
  unfold match_item_block in E. rewrite span_stop_app in E by done.
  rewrite Hq, <- app_assoc, strip_prefix_app in E.
  revert Hllf Hnb E. rewrite Hlq. generalize (fst (span is_indent l)) Hind.
  clear Hlq Hq Hind Hl. intros ind Hind Hllf Hnb E.
  rewrite !forallb_app in Hnb.
  apply andb_prop in Hnb as [_ [_ Hqnb]%andb_prop].
  apply only_lf_app in Hllf as [_ [_ Hqlf]%only_lf_app].
  rewrite <- !app_assoc, <- (reindent_continued_app q) by done.
  assert (only_lf (q ++ LF :: s')) as Hr1 by by apply only_lf_app.
  assert (match snd (span not_gt (q ++ LF :: s')) with
          | [] => True
          | _ :: r3 => find_sub (lit "</Item>") r3 = None
          end) as E'.
  { destruct (span not_gt (q ++ LF :: s')) as [att r2]. cbn [snd].
    destruct r2 as [|g r3]; [done|].
    by destruct (find_sub (lit "</Item>") r3) as [[? ?]|]. }
  clear E. revert E' Hr1. generalize (q ++ LF :: s').
  clear q Hqnb Hqlf Hrlf.
  intros r1 E Hr1. unfold match_item_block.
  rewrite (span_all_app is_indent ind) by done.
  change (lit "<Item" ++ ?x) with (LT :: (lit "Item" ++ x)).
  rewrite (span_stop is_indent LT) by done. cbn [fst snd].
  rewrite app_nil_r.
  change (LT :: (lit "Item" ++ ?x)) with (lit "<Item" ++ x).
  rewrite strip_prefix_app.
  pose proof (span_app not_gt r1) as Happ.
  pose proof (span_fst_all not_gt r1) as Hatt.
  pose proof (span_snd_head not_gt r1) as Hhead.
  destruct (span not_gt r1) as [att r2]. cbn [fst snd] in *.
  destruct r2 as [|g r3].
  - rewrite app_nil_r in Happ. subst att.
    by rewrite span_all by by apply forallb_reindent_continued.
  - assert (g = GT) as ->.
    { specialize (Hhead g r3 eq_refl). unfold not_gt in Hhead.
      by apply negb_false_iff, N.eqb_eq in Hhead. }
    rewrite <- Happ in Hr1 |- *. apply only_lf_app in Hr1 as [Hatt_lf _].
    rewrite reindent_continued_hole by done.
    rewrite (span_all_app not_gt (hole_format att))
      by by apply forallb_hole_format.
    rewrite (span_stop not_gt GT) by done. cbn [fst snd].
    rewrite find_sub_None_reindent_continued; [done|done| |done].
    vm_compute. set_solver.
Qed.

(** What the overall formatting makes of a text that begins with the
    opening tag of a block. *)
Lemma open_tag_formatted (m : item_match) (z : text) :
  forallb is_indent (indent m) = true -> only_lf (attrs m) ->
  reindent (open_tag m ++ z) []
  = indent m ++ lit "<Item" ++ hole_format (attrs m)
      ++ GT :: reindent_continued z.
Proof.
  intros Hi Ha. unfold open_tag.
  assert ((indent m ++ lit "<Item" ++ attrs m ++ [GT]) ++ z
          = ((indent m ++ lit "<Ite") ++ [109%N]) ++ attrs m ++ GT :: z)
    as -> by (rewrite <- !app_assoc; reflexivity).
  rewrite (reindent_app_continued _ _ 109%N); [|by rewrite last_snoc|done].
  rewrite reindent_one_line.
  2:{ by rewrite !forallb_app, is_indent_no_break by done. }
  rewrite reindent_line_nonblank by by apply forallb_isspace_snoc.
  rewrite reindent_continued_hole by done.
  rewrite <- !app_assoc. reflexivity.
Qed.

(** Every block that a scan finds in the formatted substituted text is in
    sync with the catalog. *)
Lemma rescan_in_sync (src : gmap text text) :
  map_Forall (fun _ c => find_sub (lit "</Item>") c = None) src ->
  forall (n : nat) (s : text),
    (length s < n)%nat -> only_lf s ->
    (Forall (fun m => search_identifier (hole_format (attrs m))
                      = search_identifier (attrs m))
            (hits (scan_at match_item_block true s)) ->
     Forall (fun m => replacement src m = None)
            (hits (scan_at match_item_block true
                     (reindent (sub_text src true s) []))))
    /\ (Forall (fun m => search_identifier (hole_format (attrs m))
                         = search_identifier (attrs m))
               (hits (scan_at match_item_block false s)) ->
        Forall (fun m => replacement src m = None)
               (hits (scan_at match_item_block false
                        (reindent_continued (sub_text src false s))))).
Proof.
  intros Hsrc n. induction n as [|n IH]; intros s Hlen Hlf; [lia|].
  split.
  - intros H3.
    destruct (match_item_block true s) as [[m rest]|] eqn:E.
    + pose proof (match_item_block_Some _ _ _ _ E)
        as (_ & Hs & Hg & Hi & Ha & _).
      pose proof (match_item_block_is_block _ _ _ _ E) as Hb.
      pose proof (match_item_block_consumes _ _ _ _ E) as Hc.
      rewrite (scan_item_hit _ _ _ E) in H3.
      unfold hits in H3. cbn [omap] in H3. fold (hits (A := item_match)) in H3.
      inversion H3 as [|? ? Hattr H3']; subst.
      apply only_lf_app in Hlf as [Hglf Hrlf].
      rewrite Hg in Hglf. rewrite !only_lf_app in Hglf.
      destruct Hglf as (_ & _ & Half & _ & Hilf & _).
      destruct (piece_out_shape src m Hsrc Hb Hilf)
        as (x & Hout & Hxlf & Hxn & Hxw).
      unfold sub_text. rewrite (scan_item_hit _ _ _ E). cbn [flat_map].
      fold (sub_text src false rest). rewrite Hout.
      set (y := sub_text src false rest).
      assert ((open_tag m ++ x ++ lit "</Item>") ++ y
              = open_tag m ++ x ++ LT :: (lit "/Item>" ++ y)) as ->
        by by rewrite <- !app_assoc.
      rewrite open_tag_formatted by done.
      rewrite reindent_continued_hole by done.
      rewrite reindent_continued_app by done.
      destruct (match_item_block_intro (indent m) (hole_format (attrs m))
                  (hole_format x) (reindent_continued y) Hi)
        as (m' & Em & Hi' & Ha' & Hn').
      { by apply forallb_hole_format. }
      { apply find_sub_None_hole_format; [done| |done].
        vm_compute. set_solver. }
      assert (indent m ++ lit "<Item" ++ hole_format (attrs m)
                ++ GT :: hole_format x
                ++ LT :: lit "/Item>" ++ reindent_continued y
              = indent m ++ lit "<Item" ++ hole_format (attrs m) ++ [GT]
                  ++ hole_format x ++ lit "</Item>" ++ reindent_continued y)
        as -> by reflexivity.
      rewrite (scan_item_hit _ _ _ Em). unfold hits. cbn [omap].
      constructor.
      * unfold replacement. rewrite Ha', Hn', Hattr.
        destruct (search_identifier (attrs m)) as [i|] eqn:Es; [|done].
        destruct (src !! i) as [c|] eqn:Ec; [|done].
        rewrite bool_decide_eq_true_2; [done|].
        apply normalize_whitespace_eq_words.
        rewrite words_hole_format. by apply (Hxw i c).
      * apply (IH rest); [lia|done|done].
    + destruct (first_line s) as (l & rest & -> & Hl & Hrest).
      pose proof (scan_item_line true l rest Hl E Hrest) as Hscan.
      rewrite Hscan in H3. rewrite hits_lits in H3.
      pose proof Hlf as Hlf0.
      apply only_lf_app in Hlf as [Hllf Hrlf].
      pose proof (only_lf_no_break l Hllf Hl) as Hnb.
      unfold sub_text. rewrite Hscan, flat_map_lits.
      destruct Hrest as [->|[s' ->]].
      * cbn [flat_map]. rewrite app_nil_r, reindent_one_line by done.
        rewrite reindent_line_nil. destruct (forallb isspace l).
        { rewrite scan_at_nil by apply match_item_block_consumes.
          constructor. }
        rewrite <- (app_nil_r l).
        rewrite scan_item_line; [|done|done|by left].
        rewrite hits_lits. constructor.
      * unfold hits in H3. cbn [omap] in H3.
        fold (hits (A := item_match)) in H3.
        apply only_lf_cons in Hrlf as [_ Hs'lf].
        assert (Forall (fun m => replacement src m = None)
                  (hits (scan_at match_item_block true
                           (reindent (sub_text src true s') []))))
          as Hrec.
        { apply (IH s'); [|done|done].
          rewrite length_app in Hlen. simpl in Hlen. lia. }
        cbn [flat_map piece_out]. fold (sub_text src true s').
        change ([LF] ++ ?z) with (LF :: z).
        rewrite reindent_first_line by done.
        rewrite reindent_line_nil. destruct (forallb isspace l).
        { apply (hits_line_then true [] (sub_text src true s'));
            [set_solver| |done].
          apply match_item_block_not_opened; [done|].
          destruct (sub_text src true s'); [by left|right; by eexists]. }
        apply (hits_line_then true l (sub_text src true s')); [done| |done].
        destruct (opens_item l) eqn:Eo.
        -- rewrite (sub_text_no_hits src true s')
             by by apply (line_none_no_hits true l s').
           rewrite <- reindent_continued_break.
           by apply line_none_formatted.
        -- apply match_item_block_not_opened; [done|].
           destruct (sub_text src true s'); [by left|right; by eexists].
  - intros H3.
    destruct (first_line s) as (l & rest & -> & Hl & Hrest).
    pose proof (scan_item_line false l rest Hl (match_item_block_false _)
                  Hrest) as Hscan.
    rewrite Hscan in H3. rewrite hits_lits in H3.
    apply only_lf_app in Hlf as [Hllf Hrlf].
    pose proof (only_lf_no_break l Hllf Hl) as Hnb.
    unfold sub_text. rewrite Hscan, flat_map_lits.
    rewrite reindent_continued_app by done.
    destruct Hrest as [->|[s' ->]].
    + cbn [flat_map]. rewrite reindent_continued_nil.
      rewrite scan_item_line; [|done|done|by left].
      rewrite hits_lits. constructor.
    + unfold hits in H3. cbn [omap] in H3.
      fold (hits (A := item_match)) in H3.
      apply only_lf_cons in Hrlf as [_ Hs'lf].
      cbn [flat_map piece_out]. fold (sub_text src true s').
      change ([LF] ++ ?z) with (LF :: z).
      rewrite reindent_continued_break.
      apply (hits_line_then false l (sub_text src true s')); [done|done|].
      apply (IH s'); [|done|done].
      rewrite length_app in Hlen. simpl in Hlen. lia.
Qed.

Lemma join_snoc (sep : text) (ls : list text) (l : text) :
  ls <> [] -> join sep (ls ++ [l]) = join sep ls ++ sep ++ l.
Proof.
  induction ls as [|l1 ls IH]; [done|]. intros _.
  destruct ls as [|l2 ls]; [done|].
  change ((l1 :: l2 :: ls) ++ [l]) with (l1 :: ((l2 :: ls) ++ [l])).
  rewrite join_cons_ne by by destruct ls.
  rewrite IH by done. rewrite join_cons2. by rewrite <- !app_assoc.
Qed.

(** The overall formatting leaves its own output as it is unless that
    output ends with a line feed. *)
Lemma normalize_overall_reindent (x : text) :
  last (reindent x []) <> Some LF ->
  normalize_overall (reindent x []) = reindent x [].
Proof.
  rewrite reindent_eq. set (ls := map (reindent_line []) (splitlines x)).
  intros Hlast.
  assert (Forall (fun l => forallb (fun c => negb (is_linebreak c)) l = true)
                 ls) as Hnb by by apply reindent_lines_no_break.
  assert (Forall (fun l => forallb isspace l = true -> l = []) ls) as Hbl.
  { apply Forall_map, Forall_forall. intros l _ Hl. unfold reindent_line in *.
    destruct (strip l) eqn:E; [done|]. simpl in Hl.
    apply strip_blank in Hl. by rewrite Hl in E. }
  destruct (decide (last ls = Some [])) as [Hl|Hl];
    [|by apply normalize_overall_formatted].
  apply last_Some in Hl as [ls' Hl]. rewrite Hl in *.
  destruct ls' as [|l1 ls']; [done|].
  rewrite join_snoc in Hlast by done.
  rewrite app_nil_r, last_snoc in Hlast. done.
Qed.

(** ** Running the merge again on a well-formed document *)

(** X23: for a target document whose only line boundaries are line
    feeds and in which the overall formatting keeps the identifier of
    every block (emptying the whitespace-only lines inside the attribute
    text does not change the identifier found in it, as when the
    attribute text is on one line), and a catalog whose entries hold no
    closing item tag, a second run on the output of a first run replaces
    no block: every block it finds is in sync with the catalog, its
    changed flag is false, and its modified text is the overall
    formatting of its input, which is its input again unless that input
    ends with a line feed.  For the scenario of the specification the
    second run returns its input with changed flag false. *)
Theorem rerun_changes_nothing (os : platform) (src : gmap text text)
    (used used' : gset text) (d : text) :
  map_Forall (fun _ c => find_sub (lit "</Item>") c = None) src ->
  only_lf d ->
  Forall (fun m => search_identifier (hole_format (attrs m))
                   = search_identifier (attrs m))
         (Re.finditer match_item_block d) ->
  let first := update_tar_file os (Some d) src used in
  let second := update_tar_file os (Some (tar_modified first)) src used' in
  Forall (fun m => replacement src m = None)
         (Re.finditer match_item_block (tar_modified first))
  /\ tar_changed second = false
  /\ tar_modified second = normalize_overall (tar_modified first)
  /\ (last (tar_modified first) <> Some LF ->
      tar_modified second = tar_modified first)
  /\ update_tar_file os (Some rope_merged) rope_catalog ∅
     = ((rope_merged, rope_merged, false), {[ lit "rope_1" ]}).
Proof.
  intros Hsrc Hd H3 first second.
  assert (tar_modified first = reindent (sub_text src true d) []) as Hm
    by by apply merged_reindent_sub_text.
  assert (Forall (fun m => replacement src m = None)
                 (Re.finditer match_item_block (tar_modified first))) as Hsync.
  { rewrite Hm.
    apply (proj1 (rescan_in_sync src Hsrc (S (length d)) d
                    (Nat.lt_succ_diag_r _) Hd)); done. }
  destruct (update_tar_file_unchanged os (tar_modified first) src used' Hsync)
    as [Hmod Hch].
  split; [done|]. split; [done|]. split; [done|]. split.
  - intros Hlast. subst second. rewrite Hmod, Hm.
    apply normalize_overall_reindent. by rewrite <- Hm.
  - destruct os; vm_compute; reflexivity.
Qed.

Lemma rerun_changes_nothing_witness :
  let d :=
    lit "<?xml version=\q1.0\q?>\n<root><Item identifier=\qinline\q>y</Item>\n  <Item identifier=\qrope_1\q\n        name=\qRope\q>\n    <price>5</price>\n  </Item>\n\n  <Item identifier=\qhook\q/>\n</root>\n" in
  let first := update_tar_file Windows (Some d) rope_catalog ∅ in
  let second :=
    update_tar_file Windows (Some (tar_modified first)) rope_catalog ∅ in
  tar_changed first = true
  /\ tar_changed second = false
  /\ tar_modified second = normalize_overall (tar_modified first).
Proof.
  intros d first second. split; [reflexivity|].
  assert (map_Forall (fun _ c => find_sub (lit "</Item>") c = None)
                     rope_catalog) as H1.
  { apply map_Forall_singleton. reflexivity. }
  assert (only_lf d) as H2 by reflexivity.
  assert (Forall (fun m => search_identifier (hole_format (attrs m))
                           = search_identifier (attrs m))
                 (Re.finditer match_item_block d)) as H3.
  { refine (bool_decide_unpack _ _). vm_compute. exact I. }
  pose proof (rerun_changes_nothing Windows rope_catalog ∅ ∅ d H1 H2 H3)
    as (_ & Hc & Hm & _).
  split; [exact Hc|exact Hm].
Defined.

(** Each condition is needed.  With an identifier that spans a
    whitespace-only line, the formatting of the first run changes the
    identifier and the second run finds another catalog entry for the
    block; with a catalog entry that holds a closing item tag, the block
    that the first run writes ends, for the second run, at that tag; and
    with a line boundary that is not a line feed before a block, the
    second run finds a block that the first run did not.  In each case
    the second run replaces a block and its changed flag is true. *)
Lemma rerun_conditions_needed (os : platform) :
  let again (src : gmap text text) (d : text) :=
    update_tar_file os
      (Some (tar_modified (update_tar_file os (Some d) src ∅))) src ∅ in
  tar_changed
    (again {[ lit "a\n\nb" := lit "<p>1</p>" ]}
           (lit "<Item identifier=\qa\n \nb\q>old</Item>")) = true
  /\ tar_changed
       (again {[ lit "a" := lit "x</Item>y" ]}
              (lit "<Item identifier=\qa\q>old</Item>")) = true
  /\ tar_changed (again two_ropes nel_target) = true.
Proof. destruct os; vm_compute; repeat split. Qed.
(** * The overall formatting of the substituted text *)

(** Unifying the line ends keeps the lines of a text. *)
Lemma splitlines_unified (s : text) :
  splitlines (replace_cr (replace_crlf s)) = splitlines s.
Proof.
  remember (length s) as n eqn:Hn. revert s Hn.
  induction n as [n IH] using lt_wf_ind. intros s ->.
  destruct s as [|c s]; [done|].
  destruct (N.eqb_spec c CR) as [->|Hc].
  - rewrite replace_crlf_cons. destruct s as [|d s]; [done|].
    rewrite N.eqb_refl. cbn [andb].
    destruct (N.eqb_spec d LF) as [->|Hd].
    + change (replace_cr (LF :: ?x)) with (LF :: replace_cr x).
      rewrite (splitlines_break LF), (splitlines_break CR) by done.
      change (after_break LF ?x) with x.
      change (after_break CR (LF :: ?x)) with x.
      f_equal. apply (IH (length s)); [simpl; lia|done].
    + change (replace_cr (CR :: ?x)) with (LF :: replace_cr x).
      rewrite (splitlines_break LF), (splitlines_break CR) by done.
      change (after_break LF ?x) with x.
      assert (after_break CR (d :: s) = d :: s) as ->.
      { unfold after_break. apply N.eqb_neq in Hd.
        by rewrite N.eqb_refl, Hd. }
      f_equal. apply (IH (length (d :: s))); [simpl; lia|done].
  - assert (replace_crlf (c :: s) = c :: replace_crlf s) as ->.
    { rewrite replace_crlf_cons. destruct s as [|d s]; [done|].
      apply N.eqb_neq in Hc. by rewrite Hc. }
    assert (replace_cr (c :: replace_crlf s)
            = c :: replace_cr (replace_crlf s)) as ->.
    { unfold replace_cr. cbn [map]. apply N.eqb_neq in Hc. by rewrite Hc. }
    assert (splitlines (replace_cr (replace_crlf s)) = splitlines s) as Hs
      by (apply (IH (length s)); [simpl; lia|done]).
    destruct (is_linebreak c) eqn:Hb.
    + rewrite !splitlines_break by done. unfold after_break.
      apply N.eqb_neq in Hc. by rewrite Hc, Hs.
    + rewrite !splitlines_char by done. by rewrite Hs.
Qed.

(** The overall formatting, line by line. *)
Lemma normalize_overall_lines (t : text) :
  normalize_overall t = join [LF] (map format_line (splitlines t)).
Proof.
  unfold normalize_overall. rewrite reindent_eq, splitlines_unified.
  f_equal. apply map_ext. intros l. apply reindent_line_nil.
Qed.

Lemma format_line_no_break (l : text) :
  forallb (fun c => negb (is_linebreak c)) l = true ->
  forallb (fun c => negb (is_linebreak c)) (format_line l) = true.
Proof. intros H. unfold format_line. by destruct (forallb isspace l). Qed.

Lemma format_lines_no_break (t : text) (c : N) :
  is_linebreak c = true ->
  Forall (fun l => c ∉ l) (map format_line (splitlines t)).
Proof.
  intros Hc. apply Forall_map.
  eapply Forall_impl; [apply splitlines_no_break|].
  intros l Hl. by apply no_break_not_elem, format_line_no_break.
Qed.

Lemma format_line_blank (l : text) :
  forallb isspace (format_line l) = true -> format_line l = [].
Proof.
  unfold format_line. destruct (forallb isspace l) eqn:E; [done|].
  intros H. by rewrite H in E.
Qed.

(** ** C10 *)

(** C10: for every target document that was read, the modified text that
    [update_tar_file] returns is the substituted text, line by line, with
    every line of whitespace only replaced by an empty line, every other
    line kept as it is and the lines joined by line feeds: it holds no
    carriage return, each of its lines of whitespace only is empty, and
    it reads back, line by line, as the lines of the substituted text.
    The substituted text is the whole document when no block is
    replaced, so the formatting reaches the text outside item blocks as
    well; with an empty catalog it is applied to the document as read. *)
Theorem update_tar_file_no_cr_no_blank_lines (os : platform) (original : text)
    (src : gmap text text) (used : gset text) :
  let substituted :=
    fst (sub_items os src used (Re.scan match_item_block original)) in
  let modified := tar_modified (update_tar_file os (Some original) src used) in
  CR ∉ modified
  /\ Forall (fun line => forallb isspace line = true -> line = [])
            (split_on LF modified)
  /\ modified = join [LF] (map format_line (splitlines substituted))
  /\ (substituted <> [] ->
      split_on LF modified = map format_line (splitlines substituted))
  /\ (Forall (fun m => replacement src m = None)
             (Re.finditer match_item_block original) ->
      substituted = original)
  /\ tar_modified (update_tar_file os (Some original) ∅ used)
     = join [LF] (map format_line (splitlines original)).
Proof.
  cbv zeta. rewrite !update_tar_file_modified, !sub_items_fst.
  rewrite !normalize_overall_lines.
  set (t := flat_map (piece_out os src) _).
  assert (t <> [] ->
          split_on LF (join [LF] (map format_line (splitlines t)))
          = map format_line (splitlines t)) as Hsplit.
  { intros Hne. apply split_on_join; [|by apply format_lines_no_break].
    intros H. by apply map_eq_nil, splitlines_nil in H. }
  split; [|split; [|split; [done|split; [done|split]]]].
  - intros [Hin|(l & Hl & Hin)]%elem_of_join; [set_solver|].
    pose proof (format_lines_no_break t CR eq_refl) as Hall.
    rewrite Forall_forall in Hall. by apply (Hall l).
  - destruct t as [|c t'] eqn:Et.
    + cbn. constructor; [done|constructor].
    + rewrite Hsplit by done. apply Forall_map, Forall_forall.
      intros l _. apply format_line_blank.
  - intros H. subst t. rewrite scan_scan_at.
    apply flat_map_piece_out_same. by rewrite <- scan_scan_at.
  - do 3 f_equal. rewrite scan_scan_at. apply flat_map_piece_out_same.
    apply Forall_forall. intros m _. apply replacement_empty.
Qed.

(** * More about [normalize_whitespace] and [reindent] *)

Lemma words_nil_blank (s : text) : words s = [] -> forallb isspace s = true.
Proof.
  induction s as [|c s IH]; [done|]. destruct (isspace c) eqn:Hc.
  - rewrite words_space by done. intros H. simpl. by rewrite Hc, IH.
  - intros H. exfalso. revert H. apply words_starts_nonempty.
    simpl. by rewrite Hc.
Qed.

Lemma word_no_space (w : text) (c : N) :
  is_a_word w -> c ∈ w -> isspace c = false.
Proof.
  intros [_ Hw] Hin. rewrite forallb_forall in Hw.
  apply list_elem_of_In, Hw in Hin. by apply negb_true_iff.
Qed.

Lemma head_join_words (w : text) (ws : list text) :
  w <> [] -> head (join [SPACE] (w :: ws)) = head w.
Proof.
  intros Hne. destruct w as [|c w]; [done|]. by rewrite join_cons_head.
Qed.

Lemma last_join_words (ws : list text) (c : N) :
  Forall is_a_word ws -> last (join [SPACE] ws) = Some c -> isspace c = false.
Proof.
  induction 1 as [|w ws Hw Hws IH]; [done|]. destruct ws as [|w' ws].
  - rewrite join_single. intros Hl. apply (word_no_space w); [done|].
    apply last_Some in Hl as [l' ->]. set_solver.
  - rewrite join_cons2. intros Hl. apply IH.
    assert (join [SPACE] (w' :: ws) <> []) as Hne.
    { inversion Hws as [|? ? [Hne' _] _]; subst.
      destruct w' as [|d w']; [done|]. by rewrite join_cons_head. }
    rewrite app_assoc, last_app in Hl.
    by destruct (last (join [SPACE] (w' :: ws))) eqn:E;
      [|apply last_None in E].
Qed.

Lemma find_sub_spaces_word (w r : text) :
  (forall c, c ∈ w -> c <> SPACE) ->
  head r <> Some SPACE ->
  find_sub [SPACE; SPACE] r = None ->
  find_sub [SPACE; SPACE] (w ++ SPACE :: r) = None.
Proof.
  intros Hw Hr Hn. induction w as [|c w IH].
  - cbn [app find_sub]. rewrite strip_prefix_cons, N.eqb_refl.
    destruct r as [|d r].
    + done.
    + rewrite strip_prefix_cons. destruct (N.eqb_spec SPACE d) as [<-|].
      * by destruct Hr.
      * by rewrite Hn.
  - rewrite <- app_comm_cons. cbn [find_sub]. rewrite strip_prefix_cons.
    destruct (N.eqb_spec SPACE c) as [<-|].
    + destruct (Hw SPACE); [left|done].
    + rewrite IH; [done|]. intros d Hd. apply Hw. by right.
Qed.

Lemma find_sub_spaces_one_word (w : text) :
  (forall c, c ∈ w -> c <> SPACE) -> find_sub [SPACE; SPACE] w = None.
Proof.
  intros Hw. induction w as [|c w IH]; [done|].
  cbn [find_sub]. rewrite strip_prefix_cons.
  destruct (N.eqb_spec SPACE c) as [<-|].
  - destruct (Hw SPACE); [left|done].
  - rewrite IH; [done|]. intros d Hd. apply Hw. by right.
Qed.

Lemma find_sub_spaces_join (ws : list text) :
  Forall is_a_word ws -> find_sub [SPACE; SPACE] (join [SPACE] ws) = None.
Proof.
  assert (forall w c, is_a_word w -> c ∈ w -> c <> SPACE) as Hsp.
  { intros w c Hw Hin ->. pose proof (word_no_space w SPACE Hw Hin) as H.
    by rewrite isspace_SPACE in H. }
  induction 1 as [|w ws Hw Hws IH]; [done|]. destruct ws as [|w' ws].
  - rewrite join_single. apply find_sub_spaces_one_word. eauto.
  - rewrite join_cons2. change ([SPACE] ++ ?x) with (SPACE :: x).
    apply find_sub_spaces_word; [eauto| |done].
    inversion Hws as [|? ? Hw' _]; subst.
    rewrite head_join_words by apply Hw'.
    destruct w' as [|d v]; [by destruct Hw'|]. simpl.
    intros [= ->]. by apply (Hsp (SPACE :: v) SPACE); [|left|].
Qed.

(** X1: the form [normalize_whitespace] gives to a text is canonical:
    its only whitespace is the single space, it neither starts nor ends
    with whitespace, no two spaces are adjacent in it, and it is empty
    exactly when the text holds nothing but whitespace. *)
Theorem normalize_whitespace_canonical (t : text) :
  let n := normalize_whitespace t in
  (forall c, c ∈ n -> isspace c = true -> c = SPACE)
  /\ (forall c, head n = Some c -> isspace c = false)
  /\ (forall c, last n = Some c -> isspace c = false)
  /\ find_sub [SPACE; SPACE] n = None
  /\ (n = [] <-> forallb isspace t = true).
Proof.
  cbv zeta. rewrite normalize_whitespace_words.
  pose proof (words_are_words t) as Hws.
  split; [|split; [|split; [|split]]].
  - intros c [Hin|(w & Hw & Hin)]%elem_of_join Hc.
    + by apply list_elem_of_singleton in Hin.
    + rewrite Forall_forall in Hws.
      by rewrite (word_no_space w c) in Hc by eauto.
  - intros c. destruct (words t) as [|w ws]; [done|].
    inversion Hws as [|? ? Hw _]; subst.
    rewrite head_join_words by apply Hw. intros Hh.
    apply (word_no_space w); [done|]. destruct w; [done|].
    injection Hh as ->. left.
  - intros c. by apply last_join_words.
  - by apply find_sub_spaces_join.
  - split.
    + intros Hj. apply words_nil_blank.
      destruct (words t) as [|w ws]; [done|].
      inversion Hws as [|? ? [Hne _] _]; subst.
      destruct w as [|c w]; [done|]. by rewrite join_cons_head in Hj.
    + intros Hb. by rewrite words_blank.
Qed.

Lemma words_app_blank_run (a ws b : text) :
  ws <> [] -> forallb isspace ws = true ->
  words (a ++ ws ++ b) = words a ++ words b.
Proof.
  intros Hne Hb. destruct ws as [|c ws]; [done|].
  simpl in Hb. apply andb_prop in Hb as [Hc Hb].
  rewrite <- app_comm_cons, words_app_space by done.
  by rewrite words_blank_app.
Qed.

(** X2: [normalize_whitespace] does not see which whitespace separates
    two parts of a text, nor whitespace around it: a run of whitespace
    that is not empty may be exchanged for any other, and whitespace put
    before and after a text is ignored. *)
Theorem normalize_whitespace_blind_to_whitespace (a ws1 ws2 b : text) :
  ws1 <> [] -> ws2 <> [] ->
  forallb isspace ws1 = true -> forallb isspace ws2 = true ->
  normalize_whitespace (a ++ ws1 ++ b) = normalize_whitespace (a ++ ws2 ++ b)
  /\ normalize_whitespace (ws1 ++ a ++ ws2) = normalize_whitespace a.
Proof.
  intros Hn1 Hn2 Hb1 Hb2. split; apply normalize_whitespace_eq_words.
  - by rewrite !words_app_blank_run.
  - rewrite words_blank_app by done.
    by rewrite <- (app_nil_r ws2), words_app_blank_run, app_nil_r.
Qed.

Lemma normalize_whitespace_blind_to_whitespace_witness :
  normalize_whitespace (lit "<a>1</a>" ++ lit "\r\n\t" ++ lit "<b/>")
  = normalize_whitespace (lit "<a>1</a>" ++ lit " " ++ lit "<b/>")
  /\ normalize_whitespace (lit "\r\n\t" ++ lit "<a>1</a>" ++ lit " ")
     = normalize_whitespace (lit "<a>1</a>").
Proof. apply normalize_whitespace_blind_to_whitespace; done. Defined.

(** X3: [reindent] with an indent of whitespace that holds no line
    boundary keeps the whitespace-normalized form of a text, and what it
    returns for a text that is not empty reads back, line by line at its
    line feeds, as the lines of the text, each whitespace-only line
    emptied and every other line with the indent put before it. *)
Theorem reindent_keeps_lines_and_words (t ind : text) :
  forallb isspace ind = true ->
  forallb (fun c => negb (is_linebreak c)) ind = true ->
  normalize_whitespace (reindent t ind) = normalize_whitespace t
  /\ (t <> [] ->
      split_on LF (reindent t ind)
      = map (fun line => if forallb isspace line then [] else ind ++ line)
            (splitlines t))
  /\ reindent [] ind = [].
Proof.
  intros Hs Hb. split; [|split; [|done]].
  - by apply normalize_whitespace_eq_words, words_reindent.
  - intros Hne. rewrite reindent_eq, split_on_join.
    + apply map_ext. intros l. unfold reindent_line.
      destruct (strip l) eqn:E.
      * apply strip_blank in E. by rewrite E.
      * destruct (forallb isspace l) eqn:E'; [|done].
        apply strip_blank in E'. by rewrite E' in E.
    + intros H. apply map_eq_nil, splitlines_nil in H. done.
    + eapply Forall_impl; [by apply reindent_lines_no_break|].
      intros l Hl. by apply no_break_not_elem.
Qed.

Lemma reindent_keeps_lines_and_words_witness :
  normalize_whitespace (reindent (lit "a\r\n  \n b\n") [TAB])
  = normalize_whitespace (lit "a\r\n  \n b\n")
  /\ split_on LF (reindent (lit "a\r\n  \n b\n") [TAB])
     = [lit "\ta"; []; lit "\t b"].
Proof.
  destruct (reindent_keeps_lines_and_words (lit "a\r\n  \n b\n") [TAB])
    as (H1 & H2 & _); [done|done|].
  split; [exact H1|]. rewrite H2; done.
Defined.

(** * More about the merge tool *)

(** The result of [update_tar_file] on a document that was read, written
    out. *)
Lemma update_tar_file_eta (os : platform) (original : text)
    (src : gmap text text) (used : gset text) :
  update_tar_file os (Some original) src used
  = ((original,
      normalize_overall
        (flat_map (piece_out os src) (Re.scan match_item_block original)),
      negb (bool_decide
              (normalize_whitespace original
               = normalize_whitespace
                   (normalize_overall
                      (flat_map (piece_out os src)
                                (Re.scan match_item_block original)))))),
     used ∪ list_to_set
              (omap (used_ident src)
                    (hits (Re.scan match_item_block original)))).
Proof.
  pose proof (update_tar_file_modified os original src used) as Hm.
  pose proof (update_tar_file_original os original src used) as Ho.
  pose proof (update_tar_file_changed os original src used) as Hc.
  pose proof (update_tar_file_used os original src used) as Hu.
  cbv zeta in Hc. rewrite Hm in Hc.
  destruct (update_tar_file os (Some original) src used) as [[[o m] c] u].
  unfold tar_modified, tar_original, tar_changed, tar_used in *.
  cbn [fst snd] in *. by subst.
Qed.

Lemma update_tar_file_fst_used (os : platform) (content : option text)
    (src : gmap text text) (used : gset text) :
  fst (update_tar_file os content src used)
  = fst (update_tar_file os content src ∅).
Proof.
  destruct content as [original|]; [|done].
  by rewrite !update_tar_file_eta.
Qed.

(** X4: on a document without carriage returns (as every document read
    in text mode is) [update_tar_file] returns the same triple and the
    same used identifiers whether [os.linesep] is a line feed or a
    carriage return with a line feed: the line separators written into
    rebuilt blocks are unified before the text is returned. *)
Theorem update_tar_file_platform_independent (original : text)
    (src : gmap text text) (used : gset text) :
  CR ∉ original ->
  update_tar_file Windows (Some original) src used
  = update_tar_file Posix (Some original) src used.
Proof.
  intros Hcr. rewrite !update_tar_file_eta.
  assert (normalize_overall
            (flat_map (piece_out Windows src)
                      (Re.scan match_item_block original))
          = normalize_overall
              (flat_map (piece_out Posix src)
                        (Re.scan match_item_block original))) as ->; [|done].
  unfold normalize_overall. rewrite scan_scan_at.
  rewrite !substituted_unified; [done| | | |];
    (apply scan_hits_blocks || by rewrite scan_item_text).
Qed.

Lemma update_tar_file_platform_independent_witness :
  CR ∉ rope_target
  /\ update_tar_file Windows (Some rope_target) rope_catalog ∅
     = update_tar_file Posix (Some rope_target) rope_catalog ∅.
Proof.
  assert (CR ∉ rope_target) as H.
  { refine (bool_decide_unpack _ _). vm_compute. exact I. }
  split; [exact H|].
  exact (update_tar_file_platform_independent rope_target rope_catalog ∅ H).
Defined.

(** X5: [update_tar_file] only ever adds to the set of used identifiers,
    and only identifiers of the catalog: an identifier is in the set
    afterwards exactly when it was in it before or it is a catalog
    identifier carried by a block of the document that was read, whether
    or not that block was rewritten.  The returned triple does not depend
    on the set. *)
Theorem update_tar_file_used_ids_grow (os : platform) (content : option text)
    (src : gmap text text) (used : gset text) :
  let r := update_tar_file os content src used in
  used ⊆ tar_used r
  /\ tar_used r ⊆ used ∪ dom src
  /\ fst r = fst (update_tar_file os content src ∅)
  /\ (forall ident,
        ident ∈ tar_used r <->
        ident ∈ used
        \/ (ident ∈ dom src
            /\ exists original m,
                 content = Some original
                 /\ m ∈ Re.finditer match_item_block original
                 /\ search_identifier (attrs m) = Some ident)).
Proof.
  cbv zeta.
  assert (forall ident,
    ident ∈ tar_used (update_tar_file os content src used) <->
    ident ∈ used
    \/ (ident ∈ dom src
        /\ exists original m,
             content = Some original
             /\ m ∈ Re.finditer match_item_block original
             /\ search_identifier (attrs m) = Some ident)) as Hiff.
  { intros ident. destruct content as [original|].
    - rewrite update_tar_file_used, elem_of_union, elem_of_list_to_set.
      rewrite list_elem_of_omap. split.
      + intros [?|(m & Hm & [Hs Hd]%used_ident_Some)]; [by left|].
        right. split; [done|]. by exists original, m.
      + intros [?|(Hd & o & m & [= <-] & Hm & Hs)]; [by left|].
        right. exists m. split; [done|]. by apply used_ident_Some.
    - unfold tar_used. cbn. split; [by left|].
      by intros [?|(_ & o & m & ? & _)]. }
  split; [|split; [|split; [|done]]].
  - intros ident Hi. apply Hiff. by left.
  - intros ident [Hi|[Hd _]]%Hiff; set_solver.
  - apply update_tar_file_fst_used.
Qed.

Lemma omap_cons_case {A B : Type} (f : A -> option B) (x : A) (l : list A) :
  omap f (x :: l)
  = match f x with
    | Some y => y :: omap f l
    | None => omap f l
    end.
Proof. done. Qed.

Lemma target_result_pair (os : platform) (src : gmap text text)
    (fname : text) (content : option text) :
  target_result os src (fname, content)
  = if endswith fname (lit ".xml")
    then Some (fname, fst (update_tar_file os content src ∅))
    else None.
Proof. done. Qed.

Lemma process_targets_results_from (os : platform) (src : gmap text text)
    (tar_dir : directory)
    (st : list (text * (text * text * bool)) * gset text) :
  fst (foldl (fun st file =>
                if endswith (fst file) (lit ".xml") then
                  let (res, used_ids') :=
                    update_tar_file os (snd file) src (snd st) in
                  (fst st ++ [(fst file, res)], used_ids')
                else st)
             st tar_dir)
  = fst st ++ omap (target_result os src) tar_dir.
Proof.
  revert st; induction tar_dir as [|[fname content] tar_dir IH]; intros st.
  - simpl. by rewrite app_nil_r.
  - cbn [foldl]. rewrite IH, omap_cons_case, target_result_pair.
    cbn [fst snd]. destruct (endswith fname (lit ".xml")); [|done].
    rewrite <- (update_tar_file_fst_used os content src (snd st)).
    destruct (update_tar_file os content src (snd st)) as [res u].
    cbn [fst]. by rewrite <- app_assoc.
Qed.

Lemma main_pass_eta (os : platform) (src_dir tar_dir : directory) :
  main_pass os src_dir tar_dir
  = (omap (target_result os (extract_items_from_src src_dir)) tar_dir,
     missing_ids (extract_items_from_src src_dir)
       (list_to_set
          (flat_map (file_used (extract_items_from_src src_dir)) tar_dir))).
Proof.
  unfold main_pass.
  pose proof (process_targets_used os (extract_items_from_src src_dir)
                tar_dir) as Hu.
  pose proof (process_targets_results_from os
                (extract_items_from_src src_dir) tar_dir ([], ∅)) as Hr.
  fold (process_targets os (extract_items_from_src src_dir) tar_dir) in Hr.
  destruct (process_targets os (extract_items_from_src src_dir) tar_dir)
    as [results used]. cbn [fst snd] in *. by subst.
Qed.

(** X6: in one pass of [main] every target file is merged on its own:
    the triple recorded for a file is the one [update_tar_file] returns
    for that file alone, whatever files were processed before it; and
    the missing identifiers do not depend on the order in which the
    target directory lists its files. *)
Theorem main_pass_files_independent (os : platform)
    (src_dir tar_dir tar_dir' : directory) :
  tar_dir ≡ₚ tar_dir' ->
  fst (main_pass os src_dir tar_dir)
  = omap (target_result os (extract_items_from_src src_dir)) tar_dir
  /\ snd (main_pass os src_dir tar_dir)
     = snd (main_pass os src_dir tar_dir').
Proof.
  intros Hp. rewrite !main_pass_eta. cbn [fst snd]. split; [done|].
  f_equal. apply list_to_set_perm_L. by apply Permutation_flat_map.
Qed.

Lemma main_pass_files_independent_witness :
  snd (main_pass Posix
         [(lit "src.xml", Some (lit "<Item identifier=\qa\q>1</Item>\n<Item identifier=\qb\q>2</Item>"))]
         [(lit "t1.xml", Some (lit "<Item identifier=\qa\q>0</Item>"));
          (lit "t2.xml", Some (lit "<Item identifier=\qc\q>0</Item>"))])
  = snd (main_pass Posix
         [(lit "src.xml", Some (lit "<Item identifier=\qa\q>1</Item>\n<Item identifier=\qb\q>2</Item>"))]
         [(lit "t2.xml", Some (lit "<Item identifier=\qc\q>0</Item>"));
          (lit "t1.xml", Some (lit "<Item identifier=\qa\q>0</Item>"))]).
Proof.
  exact (proj2 (main_pass_files_independent Posix _ _ _ (perm_swap _ _ _))).
Defined.

Lemma search_identifier_Some (s v : text) :
  search_identifier s = Some v -> v <> [] /\ forallb not_dquote v = true.
Proof.
  assert (forall s, match_identifier s = Some v ->
            v <> [] /\ forallb not_dquote v = true) as Hm.
  { intros s'. unfold match_identifier.
    destruct (strip_prefix _ s') as [r|]; [|done].
    pose proof (span_fst_all not_dquote r) as Ha.
    destruct (span not_dquote r) as [w r']. cbn [fst] in Ha.
    destruct w as [|c w]; [done|]. destruct r'; [done|].
    by intros [= <-]. }
  induction s as [|c s IH]; cbn [search_identifier].
  - destruct (match_identifier []) eqn:E; [|done].
    intros [= ->]. by apply (Hm []).
  - destruct (match_identifier (c :: s)) eqn:E.
    + intros [= ->]. by apply (Hm (c :: s)).
    + done.
Qed.

Lemma lstrip_started (s : text) :
  s = [] \/ starts_word s = true -> lstrip s = s.
Proof.
  intros [->|H]; [done|]. destruct s as [|c s]; [done|].
  simpl in H. apply negb_true_iff in H. by rewrite lstrip_nonspace.
Qed.

Lemma strip_idem (s : text) : strip (strip s) = strip s.
Proof.
  unfold strip. rewrite (lstrip_started (rstrip (lstrip s))).
  - apply rstrip_idem.
  - destruct (lstrip_starts s) as [E|E].
    + left. by rewrite E.
    + right. by rewrite (proj2 (words_rstrip _)).
Qed.

(** X7: every entry of the catalog that [extract_items_from_src] builds
    has a key that is not empty and holds no double quote, and a value
    without whitespace at its start or end. *)
Theorem catalog_entries_well_formed (src_dir : directory)
    (ident cleaned : text) :
  extract_items_from_src src_dir !! ident = Some cleaned ->
  ident <> []
  /\ DQUOTE ∉ ident
  /\ strip cleaned = cleaned
  /\ (forall c, head cleaned = Some c -> isspace c = false)
  /\ (forall c, last cleaned = Some c -> isspace c = false).
Proof.
  intros H. apply (proj1 (extract_items_from_src_spec src_dir)) in H
    as (fname & content & m & _ & _ & _ & Hs & ->).
  apply search_identifier_Some in Hs as [Hne Hq].
  assert (strip (strip (remove_components (inner m)))
          = strip (remove_components (inner m))) as Hst by apply strip_idem.
  set (x := strip (remove_components (inner m))) in *.
  split; [done|]. split; [|split; [done|split]].
  - intros Hin. rewrite forallb_forall in Hq.
    apply list_elem_of_In, Hq in Hin. done.
  - intros c Hh. destruct x as [|d x']; [done|]. injection Hh as ->.
    destruct (isspace c) eqn:Hc; [|done].
    unfold strip in Hst. rewrite lstrip_space in Hst by done.
    pose proof (lstrip_length x') as Hl.
    assert (length (rstrip (lstrip x')) <= length (lstrip x'))%nat as Hr.
    { clear. induction (lstrip x') as [|a l IH]; [done|].
      rewrite rstrip_cons. destruct (rstrip l); [|simpl in *; lia].
      destruct (isspace a); simpl; lia. }
    apply (f_equal length) in Hst. simpl in Hst. lia.
  - intros c Hl. destruct (isspace c) eqn:Hc; [|done].
    apply last_Some in Hl as [x' Hx].
    assert (rstrip x = x) as Hr.
    { rewrite <- Hst at 2. unfold strip. rewrite <- Hst at 1. unfold strip.
      by rewrite rstrip_idem. }
    rewrite Hx in Hr. clear -Hr Hc. exfalso.
    induction x' as [|a l IH].
    + simpl in Hr. by rewrite Hc in Hr.
    + rewrite <- app_comm_cons, rstrip_cons in Hr.
      destruct (rstrip (l ++ [c])) as [|r rs] eqn:E.
      * destruct (isspace a); [done|]. injection Hr as Hr.
        by destruct l.
      * injection Hr as Hr. by apply IH.
Qed.

Lemma catalog_entries_well_formed_witness :
  extract_items_from_src
    [(lit "a.xml", Some (lit "<Item identifier=\qx\q> y </Item>"))]
    !! lit "x" = Some (lit "y")
  /\ strip (lit "y") = lit "y".
Proof.
  assert (extract_items_from_src
            [(lit "a.xml", Some (lit "<Item identifier=\qx\q> y </Item>"))]
            !! lit "x" = Some (lit "y")) as H by (vm_compute; reflexivity).
  split; [exact H|].
  exact (proj1 (proj2 (proj2 (catalog_entries_well_formed _ _ _ H)))).
Defined.

Lemma extract_from_not_found (d : directory) (items : gmap text text)
    (ident : text) :
  (forall cleaned, ~ source_block d ident cleaned) ->
  foldl (fun items file =>
           if endswith (fst file) (lit ".xml") then
             match snd file with
             | Some content => add_items items content
             | None => items
             end
           else items) items d !! ident
  = items !! ident.
Proof.
  revert items; induction d as [|[fname content] d IH]; intros items Hno;
    [done|].
  cbn [foldl fst snd]. rewrite IH.
  - destruct (endswith fname (lit ".xml")) eqn:Hx; [|done].
    destruct content as [content|]; [|done].
    rewrite add_items_lookup.
    destruct (last _) as [m|] eqn:El; [|done].
    apply last_filter_Some in El as [Hm Hs]. exfalso.
    apply (Hno (strip (remove_components (inner m)))).
    exists fname, content, m. split; [left|done].
  - intros cleaned (f & c & m & Hf & Hrest). apply (Hno cleaned).
    exists f, c, m. split; [by right|done].
Qed.

(** X8: when several source blocks carry the same identifier, the
    catalog keeps the last of them: the entry of an identifier is the
    cleaned inner content of the block after which, in its file and in
    the files listed later, no block carries the identifier. *)
Theorem catalog_last_block_wins (d1 d2 : directory) (fname content : text)
    (ms1 ms2 : list item_match) (m : item_match) (ident : text) :
  endswith fname (lit ".xml") = true ->
  Re.finditer match_item_block content = ms1 ++ m :: ms2 ->
  search_identifier (attrs m) = Some ident ->
  Forall (fun m' => search_identifier (attrs m') <> Some ident) ms2 ->
  (forall cleaned, ~ source_block d2 ident cleaned) ->
  extract_items_from_src (d1 ++ (fname, Some content) :: d2) !! ident
  = Some (strip (remove_components (inner m))).
Proof.
  intros Hx Hms Hs Hms2 Hd2. unfold extract_items_from_src.
  rewrite foldl_app. cbn [foldl fst snd]. rewrite Hx.
  rewrite extract_from_not_found by done.
  rewrite add_items_lookup, Hms, filter_app, filter_cons_True by done.
  assert (filter (fun m0 => search_identifier (attrs m0) = Some ident) ms2
          = []) as ->.
  { clear Hms. induction Hms2 as [|m' ms2 Hm' _ IH]; [done|].
    by rewrite filter_cons_False. }
  by rewrite last_snoc.
Qed.

Lemma catalog_last_block_wins_witness :
  extract_items_from_src
    [(lit "a.xml", Some (lit "<Item identifier=\qx\q>1</Item>"));
     (lit "b.xml", Some (lit "<Item identifier=\qx\q>2</Item>\n<Item identifier=\qx\q>3</Item>\n<Item identifier=\qy\q>4</Item>"))]
    !! lit "x"
  = Some (lit "3").
Proof.
  refine (catalog_last_block_wins
    [(lit "a.xml", Some (lit "<Item identifier=\qx\q>1</Item>"))] []
    (lit "b.xml")
    (lit "<Item identifier=\qx\q>2</Item>\n<Item identifier=\qx\q>3</Item>\n<Item identifier=\qy\q>4</Item>")
    [{| group0 := lit "<Item identifier=\qx\q>2</Item>"; indent := [];
        attrs := lit " identifier=\qx\q"; inner := lit "2" |}]
    [{| group0 := lit "<Item identifier=\qy\q>4</Item>"; indent := [];
        attrs := lit " identifier=\qy\q"; inner := lit "4" |}]
    {| group0 := lit "<Item identifier=\qx\q>3</Item>"; indent := [];
       attrs := lit " identifier=\qx\q"; inner := lit "3" |}
    (lit "x") _ _ _ _ _).
  - reflexivity.
  - vm_compute. reflexivity.
  - vm_compute. reflexivity.
  - repeat constructor. vm_compute. discriminate.
  - intros cleaned (f & c & m & Hf & _). by apply elem_of_nil in Hf.
Defined.

Lemma extract_filter_from (d : directory) (items : gmap text text) :
  foldl (fun items file =>
           if endswith (fst file) (lit ".xml") then
             match snd file with
             | Some content => add_items items content
             | None => items
             end
           else items) items d
  = foldl (fun items file =>
             if endswith (fst file) (lit ".xml") then
               match snd file with
               | Some content => add_items items content
               | None => items
               end
             else items) items
          (filter (fun file => endswith (fst file) (lit ".xml") = true
                               /\ is_Some (snd file)) d).
Proof.
  revert items; induction d as [|[fname content] d IH]; intros items;
    [done|].
  cbn [foldl fst snd].
  destruct (endswith fname (lit ".xml")) eqn:Hx.
  - destruct content as [content|].
    + rewrite filter_cons_True by (cbn [fst snd]; eauto). cbn [foldl fst snd].
      rewrite Hx. apply IH.
    + rewrite filter_cons_False; [apply IH|].
      cbn [fst snd]. by intros [_ [? ?]].
  - rewrite filter_cons_False; [apply IH|]. cbn [fst snd]. rewrite Hx.
    by intros [? _].
Qed.

Lemma omap_target_result_filter (os : platform) (src : gmap text text)
    (d : directory) :
  omap (target_result os src) d
  = omap (target_result os src)
         (filter (fun file => endswith (fst file) (lit ".xml") = true) d).
Proof.
  induction d as [|[fname content] d IH]; [done|].
  destruct (endswith fname (lit ".xml")) eqn:Hx.
  - rewrite filter_cons_True by done. rewrite !omap_cons_case. by rewrite IH.
  - rewrite filter_cons_False by (cbn [fst snd]; congruence).
    by rewrite omap_cons_case, target_result_pair, Hx.
Qed.

Lemma file_used_filter (src : gmap text text) (d : directory) :
  flat_map (file_used src) d
  = flat_map (file_used src)
             (filter (fun file => endswith (fst file) (lit ".xml") = true) d).
Proof.
  induction d as [|[fname content] d IH]; [done|].
  destruct (endswith fname (lit ".xml")) eqn:Hx.
  - rewrite filter_cons_True by done. cbn [flat_map]. by rewrite IH.
  - rewrite filter_cons_False by (cbn [fst snd]; congruence).
    cbn [flat_map]. unfold file_used at 1. cbn [fst]. by rewrite Hx.
Qed.

(** X9: files whose name does not end in [.xml], in either directory,
    and source files that cannot be read leave no trace in a pass of
    [main]: the pass gives what it gives once they are taken out of the
    listings. *)
Theorem main_pass_skips_other_files (os : platform)
    (src_dir tar_dir : directory) :
  main_pass os src_dir tar_dir
  = main_pass os
      (filter (fun file => endswith (fst file) (lit ".xml") = true
                           /\ is_Some (snd file)) src_dir)
      (filter (fun file => endswith (fst file) (lit ".xml") = true) tar_dir).
Proof.
  rewrite !main_pass_eta.
  assert (extract_items_from_src src_dir
          = extract_items_from_src
              (filter (fun file => endswith (fst file) (lit ".xml") = true
                                   /\ is_Some (snd file)) src_dir)) as <-
    by apply extract_filter_from.
  by rewrite <- omap_target_result_filter, <- file_used_filter.
Qed.

Lemma sublist_lstrip (s : text) : sublist (lstrip s) s.
Proof.
  induction s as [|c s IH]; [done|]. simpl.
  destruct (isspace c); [by apply sublist_cons|done].
Qed.

Lemma sublist_rstrip (s : text) : sublist (rstrip s) s.
Proof.
  induction s as [|c s IH]; [done|]. rewrite rstrip_cons.
  destruct (rstrip s) as [|r rs].
  - destruct (isspace c); [apply sublist_nil_l|].
    apply sublist_skip, sublist_nil_l.
  - by apply sublist_skip.
Qed.

Lemma find_component_end_suffix (s rest : text) :
  find_component_end s = Some rest -> exists x, s = x ++ rest.
Proof.
  induction s as [|c s IH]; [done|]. cbn [find_component_end].
  destruct (strip_prefix (lit "</Fabricate>") (c :: s)) as [r|] eqn:E1.
  { intros [= <-]. apply strip_prefix_Some in E1. by eexists. }
  destruct (strip_prefix (lit "</Deconstruct>") (c :: s)) as [r|] eqn:E2.
  { intros [= <-]. apply strip_prefix_Some in E2. by eexists. }
  intros [x ->]%IH. by exists (c :: x).
Qed.

Lemma match_component_suffix (bol : bool) (s : text) (a : unit)
    (rest : text) :
  match_component bol s = Some (a, rest) -> exists x, s = x ++ rest.
Proof.
  unfold match_component.
  assert (forall p r, strip_prefix p s = Some r ->
            (if word_boundary r
             then match find_component_end r with
                  | Some rest => Some (tt, rest)
                  | None => None
                  end
             else None) = Some (a, rest) ->
            exists x, s = x ++ rest) as H.
  { intros p r E%strip_prefix_Some. destruct (word_boundary r); [|done].
    destruct (find_component_end r) as [rest'|] eqn:E'; [|done].
    intros [= _ <-]. apply find_component_end_suffix in E' as [x ->].
    exists (p ++ x). by rewrite E, app_assoc. }
  destruct (strip_prefix (lit "<Fabricate") s) as [r|] eqn:E1; [by eapply H|].
  destruct (strip_prefix (lit "<Deconstruct") s) as [r|] eqn:E2;
    [by eapply H|done].
Qed.

(** X10: the removal of components only deletes: what it returns, and
    the stripped text stored in the catalog, is a subsequence of the
    inner content it was given, so the catalog never holds text that was
    not in the source block. *)
Theorem remove_components_only_deletes (s : text) :
  sublist (remove_components s) s
  /\ sublist (strip (remove_components s)) s
  /\ (length (remove_components s) <= length s)%nat.
Proof.
  assert (sublist (remove_components s) s) as H.
  { rewrite remove_components_eq.
    apply (scan_at_ind match_component match_component_consumes
      (fun _ s ps => sublist (flat_map (fun p => match p with
                                                 | Re.Lit c => [c]
                                                 | Re.Hit _ => []
                                                 end) ps) s)).
    - done.
    - intros _ c s' _ IH. cbn [flat_map app]. by apply sublist_skip.
    - intros bol s' a rest E bol' IH. cbn [flat_map app].
      apply match_component_suffix in E as [x ->].
      by apply sublist_inserts_l. }
  split; [done|]. split; [|by apply sublist_length].
  unfold strip. etrans; [apply sublist_rstrip|].
  etrans; [apply sublist_lstrip|done].
Qed.

(** X11: the removal needs an opening and a closing component tag: a
    text that holds no opening tag of a component, or no closing tag of
    one (as with self-closing components only), is returned as it is. *)
Theorem remove_components_needs_both_tags (s : text) :
  (find_sub (lit "<Fabricate") s = None
   /\ find_sub (lit "<Deconstruct") s = None)
  \/ (find_sub (lit "</Fabricate>") s = None
      /\ find_sub (lit "</Deconstruct>") s = None) ->
  remove_components s = s.
Proof.
  induction s as [|c s IH]; [done|]. intros H.
  rewrite remove_components_lit.
  - f_equal. apply IH.
    destruct H as [[H1 H2]|[H1 H2]];
      apply find_sub_None_cons in H1 as [_ H1];
      apply find_sub_None_cons in H2 as [_ H2]; auto.
  - unfold match_component. destruct H as [[H1 H2]|[H1 H2]].
    + apply find_sub_None_cons in H1 as [-> _].
      by apply find_sub_None_cons in H2 as [-> _].
    + assert (forall p r, strip_prefix p (c :: s) = Some r ->
                find_component_end r = None) as Hend.
      { intros p r E%strip_prefix_Some. rewrite E in H1, H2.
        apply find_component_end_None; by eapply find_sub_None_suffix. }
      destruct (strip_prefix (lit "<Fabricate") (c :: s)) as [r|] eqn:E1.
      { rewrite (Hend _ _ E1). by destruct (word_boundary r). }
      destruct (strip_prefix (lit "<Deconstruct") (c :: s)) as [r|] eqn:E2;
        [|done].
      rewrite (Hend _ _ E2). by destruct (word_boundary r).
Qed.

Lemma remove_components_needs_both_tags_witness :
  remove_components (lit "<Deconstruct time=\q5\q/>\n<price>10</price>")
  = lit "<Deconstruct time=\q5\q/>\n<price>10</price>".
Proof.
  apply remove_components_needs_both_tags. right. split; reflexivity.
Defined.

(** Lines that do not begin with the item opening are passed over by the
    scan, which is at a line start again after them. *)
Lemma scan_item_skip_lines (x : text) :
  forall (n : nat) (pre : text),
    (length pre < n)%nat ->
    Forall (fun line => opens_item line = false) (split_on LF pre) ->
    pre = [] \/ last pre = Some LF ->
    scan_at match_item_block true (pre ++ x)
    = map Re.Lit pre ++ scan_at match_item_block true x.
Proof.
  induction n as [|n IH]; intros pre Hlen Hall Hend; [lia|].
  destruct (first_line pre) as (l & tl & -> & Hl & [->|[s' ->]]).
  - rewrite app_nil_r in *. destruct Hend as [->|Hend]; [done|].
    destruct l as [|c l] using rev_ind; [done|].
    rewrite last_snoc in Hend. injection Hend as ->. set_solver.
  - rewrite split_on_line in Hall by done.
    inversion Hall as [|? ? Hl0 Hall']; subst.
    rewrite <- app_assoc, <- app_comm_cons.
    rewrite scan_item_line; [|done| |right; by eexists].
    + rewrite map_app. cbn [map]. rewrite <- app_assoc. f_equal.
      cbn [app]. f_equal. apply IH; [|done|].
      * rewrite length_app in Hlen. simpl in Hlen. lia.
      * destruct s' as [|c s']; [by left|right].
        destruct Hend as [Hend|Hend]; [by destruct l|].
        by rewrite last_app_cons, last_cons_cons in Hend.
    + apply match_item_block_not_opened; [done|right; by eexists].
Qed.

(** X12: the item pattern does not ask the tag name to end after
    [Item]: the first line of a document that begins, after spaces and
    tabs, with the item opening (a root [Items], say), whatever lines
    come before it (an XML declaration, comments, other elements),
    opens a match that runs to the first closing item tag, the rest of
    the name being taken as attribute text.  What stands in between, an
    item block included, is the inner content of that match and is not
    matched on its own: the only other matches are those of the text
    after the closing tag.  The same holds where the scan goes on after
    a match: past the rest of the line on which that match ended, the
    first line that begins with the item opening opens the next match. *)
Theorem item_pattern_ignores_tag_end (pre ind suffix body rest : text) :
  Forall (fun line => opens_item line = false) (split_on LF pre) ->
  pre = [] \/ last pre = Some LF ->
  forallb is_indent ind = true ->
  forallb not_gt suffix = true ->
  find_sub (lit "</Item>") body = None ->
  exists m,
    Re.finditer match_item_block
      (pre ++ ind ++ lit "<Item" ++ suffix ++ [GT] ++ body ++ lit "</Item>"
           ++ rest)
    = m :: hits (scan_at match_item_block false rest)
    /\ (forall l0 : text,
          LF ∉ l0 ->
          hits (scan_at match_item_block false
                  (l0 ++ LF :: pre ++ ind ++ lit "<Item" ++ suffix ++ [GT]
                      ++ body ++ lit "</Item>" ++ rest))
          = m :: hits (scan_at match_item_block false rest))
    /\ indent m = ind /\ attrs m = suffix /\ inner m = body.
Proof.
  intros Hpre Hend Hi Hs Hb.
  destruct (match_item_block_intro ind suffix body rest Hi Hs Hb)
    as (m & E & H1 & H2 & H3).
  exists m.
  assert (hits (scan_at match_item_block true
                  (pre ++ ind ++ lit "<Item" ++ suffix ++ [GT] ++ body
                       ++ lit "</Item>" ++ rest))
          = m :: hits (scan_at match_item_block false rest)) as Hscan.
  { rewrite (scan_item_skip_lines _ (S (length pre)) pre) by (done || lia).
    by rewrite hits_lits, (scan_item_hit _ _ _ E). }
  split; [|split; [|done]].
  - change (Re.finditer match_item_block ?d)
      with (hits (Re.scan match_item_block d)).
    by rewrite scan_scan_at.
  - intros l0 Hl0.
    rewrite scan_item_line;
      [|done|apply match_item_block_false|right; by eexists].
    by rewrite hits_lits.
Qed.

Lemma item_pattern_ignores_tag_end_witness :
  exists m,
    Re.finditer match_item_block
      (lit "<?xml version=\q1.0\q?>\n<!-- items -->\n<Items>\n\t<Item identifier=\qa\q>x</Item>\n</Items>")
    = [m]
    /\ attrs m = lit "s"
    /\ inner m = lit "\n\t<Item identifier=\qa\q>x".
Proof.
  assert (Forall (fun line => opens_item line = false)
            (split_on LF (lit "<?xml version=\q1.0\q?>\n<!-- items -->\n")))
    as Hpre.
  { refine (bool_decide_unpack _ _). vm_compute. exact I. }
  destruct (item_pattern_ignores_tag_end
              (lit "<?xml version=\q1.0\q?>\n<!-- items -->\n") []
              (lit "s") (lit "\n\t<Item identifier=\qa\q>x")
              (lit "\n</Items>") Hpre (or_intror eq_refl)
              eq_refl eq_refl eq_refl) as (m & H1 & _ & _ & H2 & H3).
  exists m. split; [exact H1|]. split; [exact H2|exact H3].
Defined.

Lemma splitlines_keepends_break (c : N) (s : text) :
  is_linebreak c = true ->
  exists e, e <> []
    /\ splitlines_keepends (c :: s) = e :: splitlines_keepends (after_break c s)
    /\ c :: s = e ++ after_break c s.
Proof.
  intros Hc. simpl. rewrite Hc. unfold after_break.
  destruct (c =? CR)%N eqn:E.
  - destruct s as [|d s]; [by exists [c]|].
    destruct (N.eqb_spec d LF) as [->|]; [by exists [c; LF]|by exists [c]].
  - by exists [c].
Qed.

Lemma splitlines_keepends_char (c : N) (s : text) :
  is_linebreak c = false ->
  splitlines_keepends (c :: s) =
  match splitlines_keepends s with
  | [] => [[c]]
  | l :: ls => (c :: l) :: ls
  end.
Proof. intros Hc. simpl. by rewrite Hc. Qed.

Lemma splitlines_keepends_spec (s : text) :
  concat (splitlines_keepends s) = s
  /\ Forall (fun l => l <> []) (splitlines_keepends s)
  /\ length (splitlines_keepends s) = length (splitlines s).
Proof.
  induction s as [| c s Hc (IH1 & IH2 & IH3) | c s Hc (IH1 & IH2 & IH3)]
    using splitlines_ind.
  - done.
  - destruct (splitlines_keepends_break c s Hc) as (e & He & -> & Hs).
    rewrite splitlines_break by done. cbn [concat length].
    rewrite IH1, IH3. split; [done|]. split; [by constructor|done].
  - rewrite splitlines_keepends_char, splitlines_char by done.
    destruct (splitlines_keepends s) as [|l ls] eqn:E.
    + destruct (splitlines s) eqn:E'; [|done]. simpl in IH1. subst s.
      split; [done|]. split; [by repeat constructor|done].
    + destruct (splitlines s) eqn:E'; [done|].
      simpl in *. rewrite IH1. split; [done|].
      inversion IH2; subst. split; [by constructor|done].
Qed.

(** X13: the two line lists that [generate_diff] hands to the diff put
    together again give the original and the modified text, code point
    for code point (line ends are kept); no line in them is empty, and
    there are as many as [splitlines] counts. *)
Theorem generate_diff_lines_round_trip (original modified : text) :
  let sides := generate_diff_lines original modified in
  concat (fst sides) = original
  /\ concat (snd sides) = modified
  /\ Forall (fun l => l <> []) (fst sides ++ snd sides)
  /\ length (fst sides) = length (splitlines original)
  /\ length (snd sides) = length (splitlines modified).
Proof.
  cbv zeta. unfold generate_diff_lines. cbn [fst snd].
  destruct (splitlines_keepends_spec original) as (H1 & H2 & H3).
  destruct (splitlines_keepends_spec modified) as (H4 & H5 & H6).
  rewrite Forall_app. done.
Qed.

(** * The formatting normalizer of the text swapper *)

Lemma match_indent_groups_eq (s : text) :
  Swapper.match_indent_groups true s
  = match (length (fst (span (fun c => (c =? SPACE)%N) s)) / 4)%nat with
    | O => None
    | S k' => Some (S k', drop (4 * S k') s)
    end.
Proof.
  unfold Swapper.match_indent_groups.
  destruct (span (fun c => (c =? SPACE)%N) s) as [sp r]. cbn [fst].
  by destruct (length sp / 4)%nat.
Qed.

(** The leading spaces of a text are those of its first line. *)
Lemma span_space_first_line (s l : text) (ls : list text) :
  split_on LF s = l :: ls ->
  fst (span (fun c => (c =? SPACE)%N) s)
  = fst (span (fun c => (c =? SPACE)%N) l).
Proof.
  revert l ls; induction s as [|c s IH]; intros l ls.
  - by intros [= <- _].
  - destruct (N.eqb_spec c LF) as [->|Hc].
    + simpl. by intros [= <- _].
    + rewrite split_on_cons_ne by done.
      destruct (split_on LF s) as [|l' ls'] eqn:E; [by destruct (split_on_ne LF s)|].
      intros [= <- _]. simpl. destruct (c =? SPACE)%N; [|done].
      specialize (IH l' ls' eq_refl).
      destruct (span _ s), (span _ l'). simpl in *. by f_equal.
Qed.

Lemma join_app_head (sep a l : text) (ls : list text) :
  join sep ((a ++ l) :: ls) = a ++ join sep (l :: ls).
Proof. destruct ls; [done|]. by rewrite !join_cons2, <- app_assoc. Qed.

Lemma split_on_app_no_sep (sep : N) (a s : text) :
  sep ∉ a ->
  split_on sep (a ++ s)
  = match split_on sep s with
    | l :: ls => (a ++ l) :: ls
    | [] => [a]
    end.
Proof.
  induction a as [|c a IH]; intros Ha.
  - simpl. destruct (split_on sep s) eqn:E; [by destruct (split_on_ne sep s)|done].
  - rewrite <- app_comm_cons, split_on_cons_ne, IH by set_solver.
    by destruct (split_on sep s).
Qed.

Lemma tab_line_small (l : text) :
  (length (fst (span (fun c => (c =? SPACE)%N) l)) / 4)%nat = O ->
  tab_line l = l.
Proof. unfold tab_line. by intros ->. Qed.

(** The substitution of the formatting normalizer from a scan position,
    line by line. *)
Lemma sub_indent_groups_lines (bol : bool) (s : text) :
  flat_map (fun p => match p with
                     | Re.Lit c => [c]
                     | Re.Hit k => repeat TAB k
                     end)
           (scan_at Swapper.match_indent_groups bol s)
  = tab_lines_from bol s.
Proof.
  apply (scan_at_ind Swapper.match_indent_groups match_indent_groups_consumes
    (fun bol s ps =>
       flat_map (fun p => match p with
                          | Re.Lit c => [c]
                          | Re.Hit k => repeat TAB k
                          end) ps = tab_lines_from bol s)).
  - by intros [].
  - intros b c s' E IH. cbn [flat_map app]. rewrite IH.
    unfold tab_lines_from. destruct (N.eqb_spec c LF) as [->|Hc].
    + simpl split_on.
      destruct (split_on LF s') as [|l ls] eqn:El;
        [by destruct (split_on_ne LF s')|].
      by destruct b.
    + rewrite split_on_cons_ne by done.
      destruct (split_on LF s') as [|l ls] eqn:El;
        [by destruct (split_on_ne LF s')|].
      assert ((if b then tab_line (c :: l) else c :: l) = c :: l) as ->.
      { destruct b; [|done]. apply tab_line_small.
        rewrite <- (span_space_first_line (c :: s') (c :: l) ls)
          by by rewrite split_on_cons_ne, El.
        rewrite match_indent_groups_eq in E.
        by destruct (_ / 4)%nat. }
      by rewrite join_cons_head.
  - intros b s' k rest E bol' IH. cbn [flat_map]. rewrite IH.
    pose proof E as (-> & Hk & Hs)%match_indent_groups_Some.
    rewrite match_indent_groups_eq in E.
    destruct (_ / 4)%nat as [|k'] eqn:Ek in E; [done|].
    injection E as <- _.
    assert (bol' = false) as ->.
    { subst bol'. rewrite Hs, take_app_length_sub.
      replace (4 * S k')%nat with (S (4 * k' + 3)) by lia.
      cbn [repeat]. rewrite repeat_cons. by rewrite ends_line_snoc. }
    unfold tab_lines_from. rewrite Hs at 1.
    rewrite split_on_app_no_sep.
    2:{ intros Hin%list_elem_of_In%repeat_spec. done. }
    destruct (split_on LF rest) as [|l ls] eqn:El;
      [by destruct (split_on_ne LF rest)|].
    rewrite <- join_app_head. f_equal. f_equal. unfold tab_line.
    rewrite <- (span_space_first_line s' (repeat SPACE (4 * S k') ++ l) ls).
    2:{ rewrite Hs at 1. rewrite split_on_app_no_sep, El; [done|].
        intros Hin%list_elem_of_In%repeat_spec. done. }
    rewrite Ek. f_equal.
    rewrite drop_app_length'; [done|]. by rewrite repeat_length.
Qed.

(** X14: [normalize_formatting] works line by line on the text with its
    line ends unified: in each line the leading spaces are counted, every
    full group of four of them becomes one tab, and the rest of the line
    (the spaces left over, and any space after another code point) stays;
    the lines and the line feeds between them are kept. *)
Theorem normalize_formatting_line_by_line (t : text) :
  Swapper.normalize_formatting t
  = join [LF]
      (map (fun l =>
              let k := (length (fst (span (fun c => (c =? SPACE)%N) l)) / 4)%nat
              in repeat TAB k ++ drop (4 * k) l)
           (split_on LF (replace_cr (replace_crlf t)))).
Proof.
  unfold Swapper.normalize_formatting, Re.sub. cbv zeta.
  rewrite scan_scan_at, sub_indent_groups_lines. unfold tab_lines_from.
  by destruct (split_on LF _).
Qed.

Lemma normalize_formatting_lines (t : text) :
  Swapper.normalize_formatting t
  = join [LF] (map tab_line (split_on LF (replace_cr (replace_crlf t)))).
Proof. apply normalize_formatting_line_by_line. Qed.

Lemma replace_cr_free (s : text) : CR ∉ replace_cr s.
Proof.
  unfold replace_cr. intros (c & Hc & _)%list_elem_of_fmap.
  by destruct (N.eqb_spec c CR).
Qed.

Lemma split_on_lines (sep : N) (s : text) :
  Forall (fun l => sep ∉ l /\ forall c, c ∈ l -> c ∈ s) (split_on sep s).
Proof.
  induction s as [|c s IH].
  - repeat constructor; set_solver.
  - destruct (N.eqb_spec c sep) as [->|Hc].
    + simpl. rewrite N.eqb_refl. constructor; [set_solver|].
      eapply Forall_impl; [done|]. set_solver.
    + rewrite split_on_cons_ne by done.
      destruct (split_on sep s) as [|l ls] eqn:E;
        [by destruct (split_on_ne sep s)|].
      inversion IH as [|? ? [Hl Hin] Hls]; subst. constructor.
      * split; [set_solver|]. intros d [->|Hd]%elem_of_cons; [left|].
        right. auto.
      * eapply Forall_impl; [done|]. set_solver.
Qed.

Lemma join_split_on (sep : N) (s : text) :
  join [sep] (split_on sep s) = s.
Proof.
  induction s as [|c s IH]; [done|].
  destruct (N.eqb_spec c sep) as [->|Hc].
  - simpl. rewrite N.eqb_refl.
    destruct (split_on sep s) eqn:E; [by destruct (split_on_ne sep s)|].
    rewrite join_cons2. by rewrite IH.
  - rewrite split_on_cons_ne by done.
    destruct (split_on sep s) eqn:E; [by destruct (split_on_ne sep s)|].
    by rewrite join_cons_head, IH.
Qed.

Lemma tab_line_elem (l : text) (c : N) :
  c ∈ tab_line l -> c = TAB \/ c ∈ l.
Proof.
  unfold tab_line. intros [H|H]%elem_of_app.
  - left. by apply list_elem_of_In, repeat_spec in H.
  - right. eapply elem_of_sublist; [done|apply sublist_drop].
Qed.

Lemma span_space_length (l r : text) :
  strip_prefix (lit "    ") l = Some r ->
  (4 <= length (fst (span (fun c => (c =? SPACE)%N) l)))%nat.
Proof.
  intros ->%strip_prefix_Some.
  change (lit "    " ++ r) with (SPACE :: SPACE :: SPACE :: SPACE :: r).
  simpl. destruct (span _ r). simpl. lia.
Qed.

Lemma tab_line_fixed (l : text) :
  tab_line l = l <-> strip_prefix (lit "    ") l = None.
Proof.
  pose proof (span_app (fun c => (c =? SPACE)%N) l) as Hs.
  pose proof (span_eqb_repeat SPACE l) as Hr.
  split.
  - intros Hl. destruct (strip_prefix (lit "    ") l) as [r|] eqn:E; [|done].
    pose proof (span_space_length _ _ E) as Hlen.
    apply strip_prefix_Some in E. exfalso.
    unfold tab_line in Hl.
    destruct (length (fst (span (fun c => (c =? SPACE)%N) l)) / 4)%nat
      as [|k] eqn:Ek.
    + apply Nat.div_small_iff in Ek; lia.
    + rewrite E in Hl. done.
  - intros Hn. apply tab_line_small. apply Nat.div_small_iff; [done|].
    destruct (decide (4 <= length (fst (span (fun c => (c =? SPACE)%N) l)))%nat)
      as [Hge|]; [|lia].
    exfalso. rewrite <- Hs, Hr in Hn.
    destruct (length (fst (span (fun c => (c =? SPACE)%N) l)))
      as [|[|[|[|n]]]]; try lia.
    done.
Qed.

Lemma tab_line_idem (l : text) : tab_line (tab_line l) = tab_line l.
Proof.
  destruct (length (fst (span (fun c => (c =? SPACE)%N) l)) / 4)%nat
    as [|k] eqn:Ek.
  - by rewrite !(tab_line_small l).
  - apply tab_line_small. unfold tab_line. by rewrite Ek.
Qed.

Lemma unify_no_cr (t : text) : CR ∉ t -> replace_cr (replace_crlf t) = t.
Proof. intros H. by rewrite replace_crlf_no_cr, replace_cr_no_cr. Qed.

Lemma normalize_formatting_no_cr (t : text) :
  CR ∉ Swapper.normalize_formatting t.
Proof.
  rewrite normalize_formatting_lines.
  intros [Hin|(l & Hl & Hin)]%elem_of_join; [set_solver|].
  apply list_elem_of_fmap in Hl as (l' & -> & Hl').
  apply tab_line_elem in Hin as [?|Hin]; [done|].
  pose proof (split_on_lines LF (replace_cr (replace_crlf t))) as Hall.
  rewrite Forall_forall in Hall. destruct (Hall l' Hl') as [_ Hsub].
  by apply Hsub, replace_cr_free in Hin.
Qed.

Lemma tab_line_no_lf (l : text) : LF ∉ l -> LF ∉ tab_line l.
Proof. intros Hl [?|?]%tab_line_elem; done. Qed.

Lemma normalize_formatting_split (t : text) :
  split_on LF (Swapper.normalize_formatting t)
  = map tab_line (split_on LF (replace_cr (replace_crlf t))).
Proof.
  rewrite normalize_formatting_lines, split_on_join; [done| |].
  - intros H%map_eq_nil. by apply split_on_ne in H.
  - apply Forall_map. eapply Forall_impl; [apply split_on_lines|].
    intros l [Hl _]. by apply tab_line_no_lf.
Qed.

Lemma normalize_formatting_fixed (u : text) :
  Swapper.normalize_formatting u = u <-> tab_indented u.
Proof.
  unfold tab_indented. split.
  - intros Hu. assert (CR ∉ u) as Hcr.
    { rewrite <- Hu. apply normalize_formatting_no_cr. }
    split; [done|]. pose proof (normalize_formatting_split u) as Hs.
    rewrite Hu, unify_no_cr in Hs by done.
    induction (split_on LF u) as [|l ls IH]; [done|].
    injection Hs as Hl Hls. constructor; [by apply tab_line_fixed|by apply IH].
  - intros [Hcr Hall]. rewrite normalize_formatting_lines, unify_no_cr by done.
    rewrite <- (join_split_on LF u) at 2. f_equal.
    induction Hall as [|l ls Hl _ IH]; [done|].
    cbn [map]. by rewrite IH, (proj2 (tab_line_fixed l)).
Qed.

Lemma normalize_formatting_tab_indented (t : text) :
  tab_indented (Swapper.normalize_formatting t).
Proof.
  split; [apply normalize_formatting_no_cr|].
  rewrite normalize_formatting_split. apply Forall_map, Forall_forall.
  intros l _. apply tab_line_fixed, tab_line_idem.
Qed.

(** X15: [normalize_formatting] is idempotent.  What it returns holds no
    carriage return and has no line that begins with four spaces, and
    the texts it leaves as they are are exactly the texts of that
    form. *)
Theorem normalize_formatting_idempotent (t : text) :
  Swapper.normalize_formatting (Swapper.normalize_formatting t)
  = Swapper.normalize_formatting t
  /\ CR ∉ Swapper.normalize_formatting t
  /\ Forall (fun l => strip_prefix (lit "    ") l = None)
            (split_on LF (Swapper.normalize_formatting t))
  /\ (Swapper.normalize_formatting t = t <->
      CR ∉ t
      /\ Forall (fun l => strip_prefix (lit "    ") l = None)
                (split_on LF t)).
Proof.
  pose proof (normalize_formatting_tab_indented t) as [H1 H2].
  split; [|split; [done|split; [done|]]].
  - by apply normalize_formatting_fixed.
  - apply normalize_formatting_fixed.
Qed.

(** * The patching of elements by the text swapper *)

Lemma match_tag_from_cons (tg : text) (c : N) (s : text) :
  Swapper.match_tag_from tg (c :: s)
  = match tg with
    | [] => if isspace c then None else Swapper.match_tag_from (tg ++ [c]) s
    | _ :: _ =>
        if (c =? GT)%N then
          match find_sub (lit "</" ++ tg ++ [GT]) s with
          | Some (txt, rest) => Some (tg, txt, rest)
          | None =>
              if isspace c then None
              else Swapper.match_tag_from (tg ++ [c]) s
          end
        else if isspace c then None
             else Swapper.match_tag_from (tg ++ [c]) s
    end.
Proof. by destruct tg. Qed.

(** What a match of the element pattern looks like: an opening tag
    whose name is not empty and free of whitespace, a text, and the
    closing tag of the same name. *)
Lemma match_tag_from_Some (tg s tg' txt rest : text) :
  Swapper.match_tag_from tg s = Some (tg', txt, rest) ->
  exists ext,
    tg' = tg ++ ext /\ tg' <> []
    /\ forallb (fun c => negb (isspace c)) ext = true
    /\ s = ext ++ [GT] ++ txt ++ lit "</" ++ tg' ++ [GT] ++ rest.
Proof.
  revert tg; induction s as [|c s IH]; intros tg; [done|].
  assert ((if isspace c then None else Swapper.match_tag_from (tg ++ [c]) s)
          = Some (tg', txt, rest) ->
          exists ext,
            tg' = tg ++ ext /\ tg' <> []
            /\ forallb (fun c => negb (isspace c)) ext = true
            /\ c :: s = ext ++ [GT] ++ txt ++ lit "</" ++ tg' ++ [GT] ++ rest)
    as Hlonger.
  { destruct (isspace c) eqn:Hc; [done|].
    intros (ext & -> & Hne & Hext & ->)%IH. exists (c :: ext).
    rewrite <- app_assoc in Hne |- *. split; [done|]. split; [done|].
    split; [|done]. simpl. by rewrite Hc. }
  rewrite match_tag_from_cons. destruct tg as [|t tg]; [done|].
  destruct (N.eqb_spec c GT) as [->|]; [|done].
  destruct (find_sub _ s) as [[txt' rest']|] eqn:E; [|done].
  intros [= <- <- <-]. apply find_sub_Some in E. exists [].
  rewrite app_nil_r. split; [done|]. split; [done|]. split; [done|].
  cbn [app]. rewrite E. by rewrite <- !app_assoc.
Qed.

Lemma match_tag_element_Some (bol : bool) (s : text)
    (m : Swapper.tag_match) (rest : text) :
  Swapper.match_tag_element bol s = Some (m, rest) ->
  s = Swapper.group0 m ++ rest
  /\ Swapper.group0 m
     = element_text (Swapper.tag m) (Swapper.original_text m)
  /\ Swapper.tag m <> []
  /\ forallb (fun c => negb (isspace c)) (Swapper.tag m) = true.
Proof.
  unfold Swapper.match_tag_element.
  destruct (strip_prefix (lit "<") s) as [r|] eqn:E1; [|done].
  apply strip_prefix_Some in E1.
  destruct (Swapper.match_tag_from [] r) as [[[tg txt] rest']|] eqn:E2;
    [|done].
  intros [= <- <-]. cbn [Swapper.group0 Swapper.tag Swapper.original_text].
  apply match_tag_from_Some in E2 as (ext & Htg & Hne & Hext & Hr).
  cbn [app] in Htg. subst ext.
  assert (s = element_text tg txt ++ rest') as Hs.
  { unfold element_text. rewrite E1, Hr. by rewrite <- !app_assoc. }
  clear E1 Hr. subst s. by rewrite take_app_length_sub.
Qed.

Lemma match_tag_element_consumes (bol : bool) (s : text)
    (m : Swapper.tag_match) (rest : text) :
  Swapper.match_tag_element bol s = Some (m, rest) ->
  (length rest < length s)%nat.
Proof.
  intros (-> & -> & _)%match_tag_element_Some.
  unfold element_text. rewrite !length_app. simpl. lia.
Qed.

(** The patched text from a scan position. *)
Lemma patch_xml_content_eq (s : text)
    (replacements : gmap text (option text)) :
  Swapper.patch_xml_content s replacements
  = flat_map (fun p => match p with
                       | Re.Lit c => [c]
                       | Re.Hit m => Swapper.replace_tag replacements m
                       end)
             (scan_at Swapper.match_tag_element false s).
Proof.
  unfold Swapper.patch_xml_content, Re.sub. rewrite scan_scan_at.
  by rewrite (scan_at_bol_irrelevant Swapper.match_tag_element
                match_tag_element_consumes (fun _ _ _ => eq_refl) true false).
Qed.

Lemma patch_xml_content_hit (s rest : text) (m : Swapper.tag_match)
    (replacements : gmap text (option text)) :
  Swapper.match_tag_element false s = Some (m, rest) ->
  Swapper.patch_xml_content s replacements
  = Swapper.replace_tag replacements m
      ++ Swapper.patch_xml_content rest replacements.
Proof.
  intros E. rewrite !patch_xml_content_eq.
  rewrite (scan_at_hit _ match_tag_element_consumes _ _ _ _ E).
  cbn [flat_map].
  by rewrite (scan_at_bol_irrelevant Swapper.match_tag_element
                match_tag_element_consumes (fun _ _ _ => eq_refl) _ false).
Qed.

Lemma patch_xml_content_lit (c : N) (s : text)
    (replacements : gmap text (option text)) :
  Swapper.match_tag_element false (c :: s) = None ->
  Swapper.patch_xml_content (c :: s) replacements
  = c :: Swapper.patch_xml_content s replacements.
Proof.
  intros E. rewrite !patch_xml_content_eq.
  rewrite (scan_at_lit _ match_tag_element_consumes _ _ _ E).
  cbn [flat_map app].
  by rewrite (scan_at_bol_irrelevant Swapper.match_tag_element
                match_tag_element_consumes (fun _ _ _ => eq_refl) _ false).
Qed.

Lemma scan_tag_text (bol : bool) (s : text) :
  flat_map tag_piece_text (scan_at Swapper.match_tag_element bol s) = s.
Proof.
  apply (scan_at_ind Swapper.match_tag_element match_tag_element_consumes
           (fun _ s ps => flat_map tag_piece_text ps = s)).
  - done.
  - intros _ c s' _ IH. simpl. by rewrite IH.
  - intros bol' s' m rest E bol'' IH. simpl. rewrite IH.
    by apply match_tag_element_Some in E as (-> & _).
Qed.

Lemma replace_tag_in_sync (replacements : gmap text (option text))
    (m : Swapper.tag_match) :
  in_sync replacements m ->
  Swapper.replace_tag replacements m = Swapper.group0 m.
Proof.
  unfold Swapper.replace_tag. intros [->| ->]; [done|].
  by rewrite bool_decide_eq_true_2.
Qed.

Lemma patch_xml_content_in_sync (original_content : text)
    (replacements : gmap text (option text)) :
  Forall (in_sync replacements)
         (Re.finditer Swapper.match_tag_element original_content) ->
  Swapper.patch_xml_content original_content replacements = original_content.
Proof.
  intros Hall. unfold Swapper.patch_xml_content, Re.sub.
  rewrite <- (scan_tag_text true original_content) at 2.
  rewrite <- scan_scan_at. unfold Re.finditer in Hall.
  induction (Re.scan Swapper.match_tag_element original_content)
    as [|[c|m] ps IH]; [done| |].
  - simpl. f_equal. by apply IH.
  - simpl in Hall. inversion Hall as [|? ? Hm Hps]; subst.
    simpl. rewrite replace_tag_in_sync by done. f_equal. by apply IH.
Qed.

(** X16: [patch_xml_content] gives a text back as it is when every
    element it matches is in sync: the tag of the match has no entry in
    the patch dictionary, or its entry is the text the element already
    has (so with an empty dictionary nothing is ever changed). *)
Theorem patch_xml_content_unchanged (original_content : text)
    (replacements : gmap text (option text)) :
  Forall (fun m =>
            replacements !! Swapper.tag m = None
            \/ replacements !! Swapper.tag m
               = Some (Some (Swapper.original_text m)))
         (Re.finditer Swapper.match_tag_element original_content) ->
  Swapper.patch_xml_content original_content replacements = original_content.
Proof. apply patch_xml_content_in_sync. Qed.

Lemma patch_xml_content_unchanged_witness :
  Swapper.patch_xml_content
    (lit "<name>Rope</name>\n<desc>Long</desc>")
    {[ lit "name" := Some (lit "Rope") ]}
  = lit "<name>Rope</name>\n<desc>Long</desc>".
Proof.
  refine (patch_xml_content_unchanged _ _ _).
  refine (bool_decide_unpack _ _). vm_compute. exact I.
Defined.

Lemma match_tag_from_intro (acc tg body post : text) :
  forallb (fun c => negb (isspace c) && negb (c =? GT)%N) tg = true ->
  acc ++ tg <> [] ->
  LT ∉ acc ++ tg ->
  find_sub (lit "</" ++ (acc ++ tg) ++ [GT]) body = None ->
  Swapper.match_tag_from acc
    (tg ++ [GT] ++ body ++ lit "</" ++ (acc ++ tg) ++ [GT] ++ post)
  = Some (acc ++ tg, body, post).
Proof.
  revert acc; induction tg as [|c tg IH]; intros acc Htg Hne Hlt Hb.
  - rewrite app_nil_r in *. change ([] ++ [GT] ++ ?x) with (GT :: x).
    rewrite match_tag_from_cons.
    destruct acc as [|a acc]; [done|]. rewrite N.eqb_refl.
    assert (find_sub (lit "</" ++ (a :: acc) ++ [GT])
              (body ++ lit "</" ++ (a :: acc) ++ [GT] ++ post)
            = Some (body, post)) as ->; [|done].
    replace (body ++ lit "</" ++ (a :: acc) ++ [GT] ++ post)
      with (body ++ (lit "</" ++ (a :: acc) ++ [GT]) ++ post)
      by by rewrite <- !app_assoc.
    apply (find_sub_app_first _ _ _ LT); [done| |done].
    assert (forallb (fun c => negb (c =? LT)%N) (a :: acc) = true) as Hf.
    { apply forallb_forall. intros x Hx%list_elem_of_In.
      apply negb_true_iff, N.eqb_neq. intros ->. done. }
    change (tail (lit "</" ++ (a :: acc) ++ [GT]))
      with ([47%N] ++ (a :: acc) ++ [GT]).
    by rewrite !forallb_app, Hf.
  - simpl in Htg. apply andb_prop in Htg as [Hc Htg].
    apply andb_prop in Hc as [Hs%negb_true_iff Hg%negb_true_iff].
    rewrite <- app_comm_cons, match_tag_from_cons, Hs, Hg.
    replace (acc ++ c :: tg) with ((acc ++ [c]) ++ tg) in *
      by by rewrite <- app_assoc.
    rewrite IH by done. by destruct acc.
Qed.

Lemma match_tag_element_intro (tg body post : text) :
  tg <> [] ->
  forallb (fun c => negb (isspace c) && negb (c =? GT)%N) tg = true ->
  LT ∉ tg ->
  find_sub (lit "</" ++ tg ++ [GT]) body = None ->
  Swapper.match_tag_element false (element_text tg body ++ post)
  = Some ({| Swapper.group0 := element_text tg body;
             Swapper.tag := tg;
             Swapper.original_text := body |}, post).
Proof.
  intros Hne Htg Hlt Hb. unfold Swapper.match_tag_element.
  assert (element_text tg body ++ post
          = lit "<" ++ tg ++ [GT] ++ body ++ lit "</" ++ ([] ++ tg) ++ [GT]
              ++ post) as Hs.
  { unfold element_text. by rewrite <- !app_assoc. }
  rewrite Hs at 1. rewrite strip_prefix_app.
  rewrite (match_tag_from_intro [] tg body post) by done.
  cbn [app]. by rewrite take_app_length_sub.
Qed.

(** X17: what [patch_xml_content] does to an element that follows text
    without [<]: when the tag name (not empty, without whitespace, [<]
    or [>]) has no patch, or has the element's text as its patch, the
    whole element is copied, whatever its text holds, so that an element
    nested in it is never patched; otherwise the element is written
    again with the patch as its text, and a patch that is [None] (an
    element without text in the patch file) is written as the word
    None.  The text after the closing tag is patched on its own. *)
Theorem patch_xml_content_element (pre tg body post : text)
    (replacements : gmap text (option text)) :
  LT ∉ pre ->
  tg <> [] ->
  forallb (fun c => negb (isspace c) && negb (c =? GT)%N) tg = true ->
  LT ∉ tg ->
  find_sub (lit "</" ++ tg ++ [GT]) body = None ->
  Swapper.patch_xml_content (pre ++ element_text tg body ++ post) replacements
  = pre
      ++ match replacements !! tg with
         | None => element_text tg body
         | Some new_text =>
             if decide (new_text = Some body) then element_text tg body
             else element_text tg
                    (match new_text with
                     | Some t => t
                     | None => lit "None"
                     end)
         end
      ++ Swapper.patch_xml_content post replacements.
Proof.
  intros Hpre Hne Htg Hlt Hb. induction pre as [|c pre IH].
  - cbn [app].
    rewrite (patch_xml_content_hit _ _ _ _
               (match_tag_element_intro tg body post Hne Htg Hlt Hb)).
    f_equal. unfold Swapper.replace_tag.
    cbn [Swapper.group0 Swapper.tag Swapper.original_text].
    destruct (replacements !! tg) as [new_text|]; [|done].
    case_bool_decide; by destruct (decide (new_text = Some body)).
  - rewrite <- app_comm_cons, patch_xml_content_lit.
    + rewrite IH by set_solver. done.
    + unfold Swapper.match_tag_element.
      rewrite strip_prefix_None_cons; [done|done|].
      intros [= <-]. set_solver.
Qed.

Lemma patch_xml_content_element_witness :
  Swapper.patch_xml_content
    (lit "  " ++ element_text (lit "name") (lit "<b>Rope</b>") ++ lit "\n")
    {[ lit "name" := None; lit "b" := Some (lit "Cord") ]}
  = lit "  <name>None</name>\n".
Proof.
  refine (eq_trans
    (patch_xml_content_element (lit "  ") (lit "name") (lit "<b>Rope</b>")
       (lit "\n") {[ lit "name" := None; lit "b" := Some (lit "Cord") ]}
       _ _ _ _ _) _).
  - refine (bool_decide_unpack _ _). vm_compute. exact I.
  - discriminate.
  - reflexivity.
  - refine (bool_decide_unpack _ _). vm_compute. exact I.
  - reflexivity.
  - vm_compute. reflexivity.
Defined.

(** X18: what [process_all_files] does with one target file.  Nothing is
    written exactly when the preview is on and the answer is not [y].
    The text written to the output file is in the form of the formatting
    normalizer (no carriage return, no line beginning with four spaces).
    A diff is written exactly when the file is written and the
    normalized original differs from the normalized patched text, and
    its two sides are these two normalized texts, line ends kept.  When
    every element matched in the normalized original is in sync with the
    patch dictionary, no diff is written and the output is the
    normalized original. *)
Theorem process_file_outcome (preview_mode : bool) (user_input : text)
    (original_content : text) (patch_dict : gmap text (option text)) :
  let o := Swapper.process_file preview_mode user_input original_content
             patch_dict in
  let original_normalized := Swapper.normalize_formatting original_content in
  let modified_normalized :=
    Swapper.normalize_formatting
      (Swapper.patch_xml_content original_normalized patch_dict) in
  (Swapper.out_file o = None <->
   preview_mode = true /\ user_input <> lit "y")
  /\ (Swapper.out_file o = None -> Swapper.diff_file o = None)
  /\ (forall w,
        Swapper.out_file o = Some w ->
        w = modified_normalized
        /\ Swapper.normalize_formatting w = w
        /\ CR ∉ w
        /\ Forall (fun l => strip_prefix (lit "    ") l = None)
                  (split_on LF w)
        /\ (Swapper.diff_file o = None <->
            original_normalized = modified_normalized))
  /\ (forall a b,
        Swapper.diff_file o = Some (a, b) ->
        concat a = original_normalized
        /\ concat b = modified_normalized
        /\ Swapper.normalize_formatting (concat a) = concat a
        /\ Swapper.normalize_formatting (concat b) = concat b)
  /\ (Forall (fun m =>
                patch_dict !! Swapper.tag m = None
                \/ patch_dict !! Swapper.tag m
                   = Some (Some (Swapper.original_text m)))
             (Re.finditer Swapper.match_tag_element original_normalized) ->
      Swapper.diff_file o = None
      /\ (Swapper.out_file o = None
          \/ Swapper.out_file o = Some original_normalized)).
Proof.
  cbv zeta. unfold Swapper.process_file.
  set (on := Swapper.normalize_formatting original_content).
  set (mn := Swapper.normalize_formatting
               (Swapper.patch_xml_content on patch_dict)).
  assert (Swapper.normalize_formatting on = on) as Hon
    by apply normalize_formatting_fixed, normalize_formatting_tab_indented.
  assert (Swapper.normalize_formatting mn = mn) as Hmn
    by apply normalize_formatting_fixed, normalize_formatting_tab_indented.
  destruct (normalize_formatting_tab_indented
              (Swapper.patch_xml_content on patch_dict)) as [Hcr Hsp].
  fold mn in Hcr, Hsp.
  destruct (preview_mode && negb (bool_decide (user_input = lit "y")))
    eqn:Hskip; cbn [Swapper.out_file Swapper.diff_file].
  - apply andb_prop in Hskip as [-> Hu%negb_true_iff%bool_decide_eq_false].
    split; [done|]. split; [done|]. split; [done|]. split; [done|].
    intros _. split; [done|by left].
  - assert (~ (preview_mode = true /\ user_input <> lit "y")) as Hno.
    { intros [-> Hu]. by rewrite bool_decide_eq_false_2 in Hskip. }
    split; [split; [done|by intros ?]|]. split; [done|].
    split; [|split].
    + intros w [= <-]. split; [done|]. split; [done|]. split; [done|].
      split; [done|]. destruct (decide (on = mn)) as [He|He].
      * by rewrite bool_decide_eq_true_2.
      * rewrite bool_decide_eq_false_2 by done. by split.
    + intros a b. destruct (decide (on = mn)) as [He|He];
        [by rewrite bool_decide_eq_true_2|].
      rewrite bool_decide_eq_false_2 by done.
      intros [= <- <-].
      rewrite !(proj1 (splitlines_keepends_spec _)). done.
    + intros Hp%patch_xml_content_in_sync.
      assert (on = mn) as <-.
      { unfold mn. by rewrite Hp, Hon. }
      rewrite bool_decide_eq_true_2 by done. split; [done|by right].
Qed.

Lemma match_tag_from_no_close (acc name rest : text) (ws : N) :
  GT ∉ name -> isspace ws = true ->
  Swapper.match_tag_from acc (name ++ ws :: rest) = None.
Proof.
  intros Hn Hw. revert acc. induction name as [|c name IH]; intros acc.
  - cbn [app]. rewrite match_tag_from_cons, Hw.
    assert ((ws =? GT)%N = false) as ->.
    { apply N.eqb_neq. intros ->. done. }
    by destruct acc.
  - rewrite <- app_comm_cons, match_tag_from_cons.
    assert ((c =? GT)%N = false) as ->.
    { apply N.eqb_neq. intros ->. set_solver. }
    rewrite IH by set_solver. by destruct acc, (isspace c).
Qed.

Lemma patch_xml_content_lits (pre s : text)
    (replacements : gmap text (option text)) :
  LT ∉ pre ->
  Swapper.patch_xml_content (pre ++ s) replacements
  = pre ++ Swapper.patch_xml_content s replacements.
Proof.
  intros Hpre. induction pre as [|c pre IH]; [done|].
  rewrite <- app_comm_cons, patch_xml_content_lit.
  - rewrite IH by set_solver. done.
  - unfold Swapper.match_tag_element.
    rewrite strip_prefix_None_cons; [done|done|].
    intros [= <-]. set_solver.
Qed.

(** X22: an opening tag that holds whitespace before its first [>]
    (a tag with attributes, or an XML declaration) is never matched by
    [patch_xml_content]: the tag is copied up to that whitespace and the
    text after it is patched on its own, so the elements inside an
    element with attributes are reached. *)
Theorem patch_xml_content_skips_attributes (pre name rest : text) (ws : N)
    (replacements : gmap text (option text)) :
  LT ∉ pre ->
  LT ∉ name ->
  GT ∉ name ->
  isspace ws = true ->
  Swapper.patch_xml_content (pre ++ lit "<" ++ name ++ ws :: rest) replacements
  = pre ++ lit "<" ++ name ++ ws
      :: Swapper.patch_xml_content rest replacements.
Proof.
  intros Hpre Hlt Hgt Hws. rewrite patch_xml_content_lits by done. f_equal.
  change (lit "<" ++ ?x) with (LT :: x).
  rewrite patch_xml_content_lit.
  - f_equal. rewrite (patch_xml_content_lits name (ws :: rest)) by done.
    f_equal. rewrite patch_xml_content_lit; [done|].
    unfold Swapper.match_tag_element.
    rewrite strip_prefix_None_cons; [done|done|].
    intros [= <-]. done.
  - unfold Swapper.match_tag_element.
    change (LT :: ?x) with (lit "<" ++ x). rewrite strip_prefix_app.
    by rewrite match_tag_from_no_close.
Qed.

Lemma patch_xml_content_skips_attributes_witness :
  Swapper.patch_xml_content
    ([] ++ lit "<" ++ lit "infotexts"
        ++ SPACE :: lit "language=\qEnglish\q><name>Rope</name></infotexts>")
    {[ lit "name" := Some (lit "Cord") ]}
  = lit "<infotexts language=\qEnglish\q><name>Cord</name></infotexts>".
Proof.
  refine (eq_trans
    (patch_xml_content_skips_attributes [] (lit "infotexts")
       (lit "language=\qEnglish\q><name>Rope</name></infotexts>") SPACE
       {[ lit "name" := Some (lit "Cord") ]} _ _ _ _) _).
  - refine (bool_decide_unpack _ _). vm_compute. exact I.
  - refine (bool_decide_unpack _ _). vm_compute. exact I.
  - refine (bool_decide_unpack _ _). vm_compute. exact I.
  - reflexivity.
  - vm_compute. reflexivity.
Defined.

(** * The two tools together, and the merge of a source into itself *)

Lemma split_on_reindent (t ind : text) :
  t <> [] ->
  forallb (fun c => negb (is_linebreak c)) ind = true ->
  split_on LF (reindent t ind) = map (reindent_line ind) (splitlines t).
Proof.
  intros Hne Hb. rewrite reindent_eq, split_on_join; [done| |].
  - intros H. apply map_eq_nil, splitlines_nil in H. done.
  - eapply Forall_impl; [by apply reindent_lines_no_break|].
    intros l Hl. by apply no_break_not_elem.
Qed.

(** X19: the overall formatting step at the end of [update_tar_file]
    never turns leading spaces into tabs: a line of the text (line ends
    unified) that is not whitespace-only and begins with four spaces is
    a line of the formatted text as it stands, so the formatted text is
    not in the form that the formatting normalizer of the text swapper
    produces. *)
Theorem normalize_overall_keeps_space_indent (t l r : text) :
  l ∈ splitlines (replace_cr (replace_crlf t)) ->
  strip_prefix (lit "    ") l = Some r ->
  forallb isspace l = false ->
  l ∈ split_on LF (normalize_overall t)
  /\ Swapper.normalize_formatting (normalize_overall t)
     <> normalize_overall t.
Proof.
  intros Hl Hsp Hnb.
  assert (l ∈ split_on LF (normalize_overall t)) as Hin.
  { unfold normalize_overall. rewrite split_on_reindent; [| |done].
    2:{ intros E. rewrite E in Hl. by apply elem_of_nil in Hl. }
    apply list_elem_of_fmap. exists l. split; [|done].
    by rewrite reindent_line_nonblank. }
  split; [done|]. intros [_ Hall]%normalize_formatting_fixed.
  rewrite Forall_forall in Hall. apply Hall in Hin. congruence.
Qed.

Lemma normalize_overall_keeps_space_indent_witness :
  lit "    <a/>" ∈ split_on LF (normalize_overall (lit "<r>\n    <a/>\n</r>\n"))
  /\ Swapper.normalize_formatting (normalize_overall (lit "<r>\n    <a/>\n</r>\n"))
     <> normalize_overall (lit "<r>\n    <a/>\n</r>\n").
Proof.
  apply (normalize_overall_keeps_space_indent _ _ (lit "<a/>")).
  - refine (bool_decide_unpack _ _). vm_compute. exact I.
  - reflexivity.
  - reflexivity.
Defined.

Lemma add_items_source (d ident : text) (c : text) :
  add_items ∅ d !! ident = Some c ->
  exists m,
    m ∈ Re.finditer match_item_block d
    /\ search_identifier (attrs m) = Some ident
    /\ c = strip (remove_components (inner m)).
Proof.
  rewrite add_items_lookup.
  destruct (last _) as [m|] eqn:El; [|by rewrite lookup_empty].
  apply last_filter_Some in El as [Hm Hs]. intros [= <-]. by exists m.
Qed.

Lemma add_items_has (d ident : text) (m : item_match) :
  m ∈ Re.finditer match_item_block d ->
  search_identifier (attrs m) = Some ident ->
  is_Some (add_items ∅ d !! ident).
Proof.
  intros Hm Hs. rewrite add_items_lookup.
  destruct (last _) as [m'|] eqn:El; [done|].
  by eapply last_filter_None in El.
Qed.

(** X20: a document merged with the catalog extracted from the document
    itself is left alone: when its identified blocks hold no component
    to remove, and blocks that share an identifier agree up to
    whitespace, a pass of [main] with the document as the only source
    and the only target flags it unchanged, returns its overall
    formatting as the merged text, and reports no identifier missing. *)
Theorem merge_into_itself (os : platform) (fname tname d : text) :
  endswith fname (lit ".xml") = true ->
  endswith tname (lit ".xml") = true ->
  (forall m ident,
      m ∈ Re.finditer match_item_block d ->
      search_identifier (attrs m) = Some ident ->
      remove_components (inner m) = inner m
      /\ forall m',
           m' ∈ Re.finditer match_item_block d ->
           search_identifier (attrs m') = Some ident ->
           normalize_whitespace (inner m') = normalize_whitespace (inner m)) ->
  main_pass os [(fname, Some d)] [(tname, Some d)]
  = ([(tname, (d, normalize_overall d, false))], []).
Proof.
  intros Hf Ht Hsame. rewrite main_pass_eta.
  assert (extract_items_from_src [(fname, Some d)] = add_items ∅ d) as ->.
  { unfold extract_items_from_src. cbn [foldl fst snd]. by rewrite Hf. }
  set (src := add_items ∅ d).
  assert (Forall (fun m => replacement src m = None)
                 (Re.finditer match_item_block d)) as Hnone.
  { apply Forall_forall. intros m Hm. unfold replacement.
    destruct (search_identifier (attrs m)) as [ident|] eqn:Hs; [|done].
    destruct (src !! ident) as [c|] eqn:Hc; [|done].
    apply add_items_source in Hc as (m0 & Hm0 & Hs0 & ->).
    destruct (Hsame m0 ident Hm0 Hs0) as [Hrm Hnw].
    rewrite bool_decide_eq_true_2; [done|].
    rewrite (Hnw m Hm Hs), Hrm.
    apply normalize_whitespace_eq_words. by rewrite words_strip. }
  f_equal.
  - rewrite omap_cons_case, target_result_pair, Ht. cbn [omap].
    f_equal. f_equal.
    destruct (update_tar_file_unchanged os d src ∅ Hnone) as [Hm Hc].
    pose proof (update_tar_file_original os d src ∅) as Ho.
    destruct (update_tar_file os (Some d) src ∅) as [[[o m] c] u].
    unfold tar_modified, tar_changed, tar_original in *. cbn [fst snd] in *.
    by subst.
  - unfold missing_ids.
    assert (dom src ∖ list_to_set (flat_map (file_used src) [(tname, Some d)])
            = (∅ : gset text)) as ->; [|done].
    apply set_eq. intros ident. split; [|set_solver].
    intros [Hd Hu]%elem_of_difference. exfalso. apply Hu.
    apply elem_of_list_to_set. cbn [flat_map]. rewrite app_nil_r.
    unfold file_used. cbn [fst snd]. rewrite Ht.
    apply elem_of_dom in Hd as [c Hc].
    apply add_items_source in Hc as (m0 & Hm0 & Hs0 & _).
    apply list_elem_of_omap. exists m0. split; [done|].
    apply used_ident_Some. split; [done|].
    apply elem_of_dom. by eapply add_items_has.
Qed.

Lemma merge_into_itself_witness :
  main_pass Posix
    [(lit "items.xml", Some (lit "<Item identifier=\qa\q>\n    <p/>\n</Item>\n"))]
    [(lit "items.xml", Some (lit "<Item identifier=\qa\q>\n    <p/>\n</Item>\n"))]
  = ([(lit "items.xml",
       (lit "<Item identifier=\qa\q>\n    <p/>\n</Item>\n",
        lit "<Item identifier=\qa\q>\n    <p/>\n</Item>",
        false))], []).
Proof.
  refine (merge_into_itself Posix (lit "items.xml") (lit "items.xml")
            (lit "<Item identifier=\qa\q>\n    <p/>\n</Item>\n")
            eq_refl eq_refl _).
  intros m ident Hm Hs.
  assert (Re.finditer match_item_block
            (lit "<Item identifier=\qa\q>\n    <p/>\n</Item>\n")
          = [{| group0 := lit "<Item identifier=\qa\q>\n    <p/>\n</Item>";
                indent := []; attrs := lit " identifier=\qa\q";
                inner := lit "\n    <p/>\n" |}]) as E
    by (vm_compute; reflexivity).
  rewrite E in Hm |- *. apply list_elem_of_singleton in Hm. subst m.
  split; [vm_compute; reflexivity|].
  intros m' Hm'%list_elem_of_singleton _. by subst m'.
Defined.

Lemma find_sub_None_written_inner_os (os : platform) (m : item_match)
    (c : text) :
  forallb is_indent (indent m) = true ->
  find_sub (lit "</Item>") c = None ->
  find_sub (lit "</Item>") (written_inner os m c) = None.
Proof.
  intros Hind Hc. destruct os; [by apply find_sub_None_written_inner|].
  pose proof (find_sub_None_written_inner m c Hind Hc) as Hp.
  unfold written_inner in *. cbn [linesep] in *.
  apply find_sub_None_suffix in Hp. apply find_sub_None_prefix in Hp.
  apply (find_sub_None_blank_app _ _ _ LT); [done|done|done|].
  change ([CR; LF] ++ indent m) with (CR :: ([LF] ++ indent m)).
  apply find_sub_None_app_sep; [done| |done|].
  { vm_compute. set_solver. }
  rewrite <- (app_nil_r ([LF] ++ indent m)).
  apply (find_sub_None_blank_app _ _ _ LT); [done|done| |done].
  rewrite forallb_app. by rewrite (is_indent_isspace _ Hind).
Qed.

(** X21: a block that the merge rewrites is in sync afterwards.  When
    the catalog entry holds no closing item tag, the block written by
    [replacer], read again at a line start, is matched as one block with
    the same indent and attributes; its inner content has the
    whitespace-normalized form of the catalog entry, and [replacer]
    returns it as it is, recording its identifier as used. *)
Theorem rewritten_block_in_sync (os : platform) (src : gmap text text)
    (used used' : gset text) (doc : text) (m : item_match)
    (ident c rest : text) :
  m ∈ Re.finditer match_item_block doc ->
  search_identifier (attrs m) = Some ident ->
  src !! ident = Some c ->
  normalize_whitespace (inner m) <> normalize_whitespace c ->
  find_sub (lit "</Item>") c = None ->
  let block := fst (replacer os src used m) in
  exists m',
    match_item_block true (block ++ rest) = Some (m', rest)
    /\ group0 m' = block
    /\ indent m' = indent m
    /\ attrs m' = attrs m
    /\ normalize_whitespace (inner m') = normalize_whitespace c
    /\ replacer os src used' m' = (block, {[ident]} ∪ used').
Proof.
  intros Hm Hs Hc Hn Hno block.
  assert (is_block m) as (_ & Hi & Ha & _).
  { pose proof (scan_hits_blocks true doc) as Hall.
    rewrite Forall_forall in Hall. by apply Hall. }
  assert (block = indent m ++ lit "<Item" ++ attrs m ++ [GT]
                    ++ written_inner os m c ++ lit "</Item>") as Hb.
  { subst block. rewrite replacer_fst. cbn [piece_out].
    rewrite (replacement_Some src m ident c) by done.
    unfold new_block, written_inner. by rewrite <- !app_assoc. }
  destruct (match_item_block_intro (indent m) (attrs m)
              (written_inner os m c) rest Hi Ha)
    as (m' & E & H1 & H2 & H3); [by apply find_sub_None_written_inner_os|].
  assert ((indent m ++ lit "<Item" ++ attrs m ++ [GT]
             ++ written_inner os m c ++ lit "</Item>" ++ rest)
          = block ++ rest) as Hbr.
  { rewrite Hb. by rewrite <- !app_assoc. }
  rewrite Hbr in E. exists m'.
  assert (group0 m' = block) as Hg.
  { apply match_item_block_Some in E as (_ & Hdec & _).
    by apply app_inv_tail in Hdec. }
  assert (normalize_whitespace (inner m') = normalize_whitespace c) as Hw.
  { apply normalize_whitespace_eq_words. rewrite H3. unfold written_inner.
    apply words_written_inner; [by destruct os|done]. }
  split; [done|]. split; [done|]. split; [done|]. split; [done|].
  split; [done|]. unfold replacer. rewrite H2, Hs, Hc.
  by rewrite bool_decide_eq_true_2, Hg.
Qed.

Lemma rewritten_block_in_sync_witness :
  exists m',
    match_item_block true (rope_merged ++ lit "\n</Items>")
    = Some (m', lit "\n</Items>")
    /\ normalize_whitespace (inner m') = lit "<price>10</price>"
    /\ replacer Posix rope_catalog ∅ m' = (rope_merged, {[ lit "rope_1" ]} ∪ ∅).
Proof.
  destruct (rewritten_block_in_sync Posix rope_catalog ∅ ∅ rope_target
              {| group0 := rope_target; indent := [];
                 attrs := lit " identifier=\qrope_1\q";
                 inner := lit "\n    <price>5</price>\n" |}
              (lit "rope_1") (lit "<price>10</price>") (lit "\n</Items>"))
    as (m' & H1 & _ & _ & _ & H2 & H3).
  - assert (Re.finditer match_item_block rope_target
            = [{| group0 := rope_target; indent := [];
                  attrs := lit " identifier=\qrope_1\q";
                  inner := lit "\n    <price>5</price>\n" |}]) as ->
      by (vm_compute; reflexivity).
    by apply list_elem_of_singleton.
  - reflexivity.
  - reflexivity.
  - vm_compute. discriminate.
  - reflexivity.
  - exists m'. split; [exact H1|]. split; [exact H2|exact H3].
Defined.
